(** * ONNX scalar type analysis (torch/csrc/jit/passes/onnx/scalar_type_analysis.cpp)

    A shallow embedding of the pass [ScalarTypeAnalysisForONNX] and of the part
    of the JIT IR it reads and mutates, followed by the properties of the pass.

    The IR is a pointer graph in the source.  Here a [Graph] is a store of
    nodes and blocks addressed by identifiers; a [Value] is the pair of its
    producing node and its offset among that node's outputs, as the source's
    [Value] keeps [node_] and [offset_]. *)

From stdpp Require Import gmap strings list fin_maps.
From Stdlib Require Import ZArith Lia.

(** ** Element types *)

(** Modelled from the spec: [c10::ScalarType] is declared outside src/.  The
    nine element types the pass names, and the further members of the
    enumeration (the data model says it covers "at least" the nine). *)
Inductive ScalarType :=
  | kByte | kChar | kShort | kInt | kLong | kHalf | kFloat | kDouble
  | kComplexHalf | kComplexFloat | kComplexDouble
  | kBool | kQInt8 | kQUInt8 | kQInt32 | kBFloat16 | kUndefined.

Global Instance ScalarType_eq_dec : EqDecision ScalarType.
Proof. solve_decision. Defined.

(** [ScalarTypeHashFunction]: the hash of an element type is its position in
    the enumeration ([static_cast<size_t>(type)]). *)
Definition ScalarTypeHashFunction (type : ScalarType) : nat :=
  match type with
  | kByte => 0 | kChar => 1 | kShort => 2 | kInt => 3 | kLong => 4
  | kHalf => 5 | kFloat => 6 | kDouble => 7
  | kComplexHalf => 8 | kComplexFloat => 9 | kComplexDouble => 10
  | kBool => 11 | kQInt8 => 12 | kQUInt8 => 13 | kQInt32 => 14
  | kBFloat16 => 15 | kUndefined => 16
  end.

Definition ScalarType_of_hash (h : nat) : option ScalarType :=
  match h with
  | 0 => Some kByte | 1 => Some kChar | 2 => Some kShort | 3 => Some kInt
  | 4 => Some kLong | 5 => Some kHalf | 6 => Some kFloat | 7 => Some kDouble
  | 8 => Some kComplexHalf | 9 => Some kComplexFloat
  | 10 => Some kComplexDouble | 11 => Some kBool | 12 => Some kQInt8
  | 13 => Some kQUInt8 | 14 => Some kQInt32 | 15 => Some kBFloat16
  | 16 => Some kUndefined | _ => None
  end.

Global Instance ScalarType_countable : Countable ScalarType.
Proof.
  refine (inj_countable ScalarTypeHashFunction ScalarType_of_hash _).
  intros []; reflexivity.
Defined.

(** [scalarTypeToONNXTypeMap]: the wire-format code of each encodable type. *)
Definition scalarTypeToONNXTypeMap : gmap ScalarType Z :=
  list_to_map
    [ (kFloat, 1); (kByte, 2); (kChar, 3); (kShort, 5); (kInt, 6);
      (kLong, 7); (kBool, 9); (kHalf, 10); (kDouble, 11) ]%Z.

(** [ScalarTypeToONNXType]: [-1] unless the map holds the type. *)
Definition ScalarTypeToONNXType (st : ScalarType) : Z :=
  let onnx_type := (-1)%Z in
  match scalarTypeToONNXTypeMap !! st with
  | Some it_second => it_second
  | None => onnx_type
  end.

(** ** Node kinds and the two operator sets *)

(** The symbols the pass names, and every other symbol by its name. *)
Inductive NodeKind :=
  | onnx_Add | onnx_Sub | onnx_Mul | onnx_Div | onnx_Gemm | onnx_Pow
  | onnx_Mod
  | onnx_Greater | onnx_Less | onnx_Equal | onnx_GreaterOrEqual
  | onnx_LessOrEqual
  | onnx_Gather | onnx_Shape | onnx_Constant | onnx_Cast
  | OtherKind (name : string).

Global Instance NodeKind_eq_dec : EqDecision NodeKind.
Proof. solve_decision. Defined.

Definition NodeKind_code (k : NodeKind) : nat + string :=
  match k with
  | onnx_Add => inl 0 | onnx_Sub => inl 1 | onnx_Mul => inl 2
  | onnx_Div => inl 3 | onnx_Gemm => inl 4 | onnx_Pow => inl 5
  | onnx_Mod => inl 6 | onnx_Greater => inl 7 | onnx_Less => inl 8
  | onnx_Equal => inl 9 | onnx_GreaterOrEqual => inl 10
  | onnx_LessOrEqual => inl 11 | onnx_Gather => inl 12
  | onnx_Shape => inl 13 | onnx_Constant => inl 14 | onnx_Cast => inl 15
  | OtherKind name => inr name
  end.

Definition NodeKind_of_code (c : nat + string) : option NodeKind :=
  match c with
  | inl 0 => Some onnx_Add | inl 1 => Some onnx_Sub | inl 2 => Some onnx_Mul
  | inl 3 => Some onnx_Div | inl 4 => Some onnx_Gemm | inl 5 => Some onnx_Pow
  | inl 6 => Some onnx_Mod | inl 7 => Some onnx_Greater
  | inl 8 => Some onnx_Less | inl 9 => Some onnx_Equal
  | inl 10 => Some onnx_GreaterOrEqual | inl 11 => Some onnx_LessOrEqual
  | inl 12 => Some onnx_Gather | inl 13 => Some onnx_Shape
  | inl 14 => Some onnx_Constant | inl 15 => Some onnx_Cast
  | inl _ => None
  | inr name => Some (OtherKind name)
  end.

Global Instance NodeKind_countable : Countable NodeKind.
Proof.
  refine (inj_countable NodeKind_code NodeKind_of_code _).
  intros []; reflexivity.
Defined.

(** For these operators, all inputs and outputs share the same scalar type. *)
Definition standardOps : gset NodeKind :=
  {[ onnx_Add; onnx_Sub; onnx_Mul; onnx_Div; onnx_Gemm; onnx_Pow; onnx_Mod ]}.

Definition IsStandardOp (nkind : NodeKind) : bool :=
  bool_decide (nkind ∈ standardOps).

(** For these operators, all inputs share the same scalar type; the output
    scalar type is always Bool. *)
Definition comparisonOps : gset NodeKind :=
  {[ onnx_Greater; onnx_Less; onnx_Equal; onnx_GreaterOrEqual;
     onnx_LessOrEqual ]}.

Definition IsComparisonOp (nkind : NodeKind) : bool :=
  bool_decide (nkind ∈ comparisonOps).

Definition IsImplicitCastSupported (nodeKind : NodeKind) : bool :=
  bool_decide (nodeKind ∈ standardOps) || bool_decide (nodeKind ∈ comparisonOps).

(** ** Types, tensors and attributes *)

(** Modelled from the spec: [TensorType] (declared outside src/), "an
    annotation exposing an optional element-type"; the rest of the profile is
    kept as the optional sizes. *)
Record TensorType := mkTensorType {
  scalarType : option ScalarType;
  tt_sizes : option (list Z);
}.

(** The types a [Value] may carry: a [TensorType] or some other JIT type. *)
Inductive JitType :=
  | TensorT (t : TensorType)
  | OtherT (name : string).

(** Modelled from the spec: [at::Tensor] (declared outside src/), a literal
    with its stored element type. *)
Record Tensor := mkTensor {
  scalar_type : ScalarType;
  t_sizes : list Z;
  t_elems : list Z;
}.

(** Modelled from the spec: [TensorType::withScalarType], the derivation "with
    element type = X" that yields a new [TensorType]. *)
Definition withScalarType (t : TensorType) (st : option ScalarType) : TensorType :=
  {| scalarType := st; tt_sizes := tt_sizes t |}.

(** Modelled from the spec: [TensorType::create] of a tensor, the annotation
    that carries the tensor's element type. *)
Definition TensorType_create (t : Tensor) : TensorType :=
  {| scalarType := Some (scalar_type t); tt_sizes := Some (t_sizes t) |}.

(** Modelled from the spec: [TensorType::get], the annotation of a value
    about which nothing is recorded. *)
Definition TensorType_get : TensorType :=
  {| scalarType := None; tt_sizes := None |}.

Definition CreateProfiledTensorTypeWithScalarType
    (typePtr : TensorType) (scalar_type : ScalarType) : TensorType :=
  withScalarType typePtr (Some scalar_type).

Inductive AttrValue :=
  | AttrTensor (t : Tensor)
  | AttrInt (i : Z)
  | AttrOther (repr : string).

Definition attr_value : string := "value".
Definition attr_to : string := "to".

(** ** The graph *)

Definition NodeId := nat.
Definition BlockId := nat.

(** A value is an output of its producer. *)
Record Value := mkValue {
  Value_node : NodeId;
  Value_offset : nat;
}.

Global Instance Value_eq_dec : EqDecision Value.
Proof. solve_decision. Defined.

Record Node := mkNode {
  n_kind : NodeKind;
  n_inputs : list Value;
  n_outputs : list JitType;   (* the type of each output value *)
  n_attrs : gmap string AttrValue;
  n_blocks : list BlockId;
}.

Record Block := mkBlock {
  b_nodes : list NodeId;      (* block->nodes(), in order *)
  b_return : list Value;      (* the inputs of the block's return node *)
}.

Record Graph := mkGraph {
  g_nodes : gmap NodeId Node;
  g_blocks : gmap BlockId Block;
  g_block : BlockId;          (* graph->block() *)
}.

Global Instance Node_inhabited : Inhabited Node :=
  populate (mkNode (OtherKind "") [] [] ∅ []).
Global Instance Block_inhabited : Inhabited Block :=
  populate (mkBlock [] []).

(** Dereferencing a node or a block pointer. *)
Definition getNode (g : Graph) (n : NodeId) : Node := g_nodes g !!! n.
Definition getBlock (g : Graph) (b : BlockId) : Block := g_blocks g !!! b.

Definition set_node (g : Graph) (n : NodeId) (nd : Node) : Graph :=
  {| g_nodes := <[n := nd]> (g_nodes g);
     g_blocks := g_blocks g; g_block := g_block g |}.

(** ** Failures and the result monad *)

Inductive Failure :=
  | NullTensorType     (* cast<TensorType>() gave nullptr and was dereferenced *)
  | MissingAttribute   (* t(name): no tensor attribute of that name *)
  | IndexOutOfRange    (* input(i) past the end *)
  | NotSingleOutput    (* output() on a node without exactly one output *)
  | OutOfFuel.         (* the nesting of blocks is deeper than the fuel *)

Inductive Res (A : Type) :=
  | Ok (a : A)
  | Fail (f : Failure).
Arguments Ok {A} a.
Arguments Fail {A} f.

Global Instance Res_ret : MRet Res := fun A a => Ok a.
Global Instance Res_bind : MBind Res := fun A B f m =>
  match m with Ok a => f a | Fail e => Fail e end.

Fixpoint foldlM {A B : Type} (f : A -> B -> Res A) (a : A) (l : list B) : Res A :=
  match l with
  | [] => Ok a
  | x :: l' => match f a x with Ok a' => foldlM f a' l' | Fail e => Fail e end
  end.

(** ** The IR operations the pass calls *)

(** Modelled from the spec: [Value::type()]. *)
Definition Value_type (g : Graph) (v : Value) : option JitType :=
  n_outputs (getNode g (Value_node v)) !! Value_offset v.

(** [type->cast<TensorType>()] followed by a dereference. *)
Definition cast_TensorType (t : option JitType) : Res TensorType :=
  match t with
  | Some (TensorT tensor_type) => Ok tensor_type
  | _ => Fail NullTensorType
  end.

(** Modelled from the spec: [Node::input(i)], a checked index. *)
Definition Node_input (g : Graph) (n : NodeId) (i : nat) : Res Value :=
  match n_inputs (getNode g n) !! i with
  | Some v => Ok v
  | None => Fail IndexOutOfRange
  end.

(** Modelled from the spec: [Node::output()], the single output. *)
Definition Node_output (g : Graph) (n : NodeId) : Res Value :=
  match n_outputs (getNode g n) with
  | [_] => Ok (mkValue n 0)
  | _ => Fail NotSingleOutput
  end.

(** Modelled from the spec: [Node::t(name)], the reader of a tensor-valued
    attribute. *)
Definition Node_t (g : Graph) (n : NodeId) (name : string) : Res Tensor :=
  match n_attrs (getNode g n) !! name with
  | Some (AttrTensor t) => Ok t
  | _ => Fail MissingAttribute
  end.

(** Modelled from the spec: [Graph::create(kind)], a new node owned by the
    graph, with no input, one output and no attribute, linked in no block. *)
Definition create (g : Graph) (kind : NodeKind) : Graph * NodeId :=
  let n := fresh (dom (g_nodes g)) in
  (set_node g n (mkNode kind [] [TensorT TensorType_get] ∅ []), n).

(** Modelled from the spec: [Node::addInput(value)]. *)
Definition addInput (g : Graph) (n : NodeId) (v : Value) : Graph :=
  let nd := getNode g n in
  set_node g n
    (mkNode (n_kind nd) (n_inputs nd ++ [v]) (n_outputs nd) (n_attrs nd) (n_blocks nd)).

(** Modelled from the spec: the attribute setters [t_] and [i_]. *)
Definition set_attr (g : Graph) (n : NodeId) (name : string) (a : AttrValue) : Graph :=
  let nd := getNode g n in
  set_node g n
    (mkNode (n_kind nd) (n_inputs nd) (n_outputs nd) (<[name := a]> (n_attrs nd)) (n_blocks nd)).

Definition Node_t_ (g : Graph) (n : NodeId) (name : string) (v : Tensor) : Graph :=
  set_attr g n name (AttrTensor v).
Definition Node_i_ (g : Graph) (n : NodeId) (name : string) (v : Z) : Graph :=
  set_attr g n name (AttrInt v).

Fixpoint insert_before (c n : NodeId) (l : list NodeId) : list NodeId :=
  match l with
  | [] => []
  | x :: l' => if decide (x = n) then c :: x :: l' else x :: insert_before c n l'
  end.

(** Modelled from the spec: [c->insertBefore(n)], "insert it immediately
    before node": [c] is linked in the block that lists [n], just before it. *)
Definition insertBefore (g : Graph) (c n : NodeId) : Graph :=
  {| g_nodes := g_nodes g;
     g_blocks := (fun b => mkBlock (insert_before c n (b_nodes b)) (b_return b)) <$> g_blocks g;
     g_block := g_block g |}.

(** Modelled from the spec: [Value::setType]. *)
Definition setType (g : Graph) (v : Value) (t : JitType) : Graph :=
  let nd := getNode g (Value_node v) in
  set_node g (Value_node v)
    (mkNode (n_kind nd) (n_inputs nd) (<[Value_offset v := t]> (n_outputs nd))
            (n_attrs nd) (n_blocks nd)).

Definition replace_value (from to : Value) (x : Value) : Value :=
  if decide (x = from) then to else x.

(** Modelled from the spec: [n->replaceInputWith(from, to)], every input edge
    of [n] that reads [from] is rewired to [to]. *)
Definition replaceInputWith (g : Graph) (n : NodeId) (from to : Value) : Graph :=
  let nd := getNode g n in
  set_node g n
    (mkNode (n_kind nd) (replace_value from to <$> n_inputs nd) (n_outputs nd)
            (n_attrs nd) (n_blocks nd)).

(** ** External services *)

Inductive DCESideEffectPolicy :=
  | DONT_DELETE_NODES_WITH_SIDE_EFFECTS
  | ALLOW_DELETING_NODES_WITH_SIDE_EFFECTS.

(** The collaborators the pass consumes and does not define: the promotion
    table of element types, the element conversion behind [Tensor::to], and
    the dead code elimination pass. *)
Class External := {
  promoteTypes : ScalarType -> ScalarType -> ScalarType;
  convert_elems : ScalarType -> ScalarType -> list Z -> list Z;
  EliminateDeadCode : Graph -> BlockId -> bool -> DCESideEffectPolicy -> Graph;
}.

(** Modelled from the spec: [Tensor::to(scalar_type)], the "constant-literal
    element-cast operation": the literal itself when it is stored with the
    target type already ("constants of equal value"), else the literal with
    its elements converted and stored with the target type. *)
Definition Tensor_to `{External} (val : Tensor) (st : ScalarType) : Tensor :=
  if decide (scalar_type val = st) then val
  else {| scalar_type := st; t_sizes := t_sizes val;
          t_elems := convert_elems (scalar_type val) st (t_elems val) |}.

(** ** Warnings written to [std::cerr] *)

Inductive Warning :=
  | WarnScalarTypesMismatch (op : NodeKind) (chosen : ScalarType)
      (* "Scalar types mismatch for tensor inputs of operator <op> ... The
         scalar type <chosen> of the first tensor is chosen." *)
  | WarnNotSupportedInONNX (st : ScalarType) (op : NodeKind).
      (* "Scalar type: <st> of input tensor in operator: <op> not supported in
         ONNX." *)

(** ** Type inference *)

Definition PromoteScalarTypes `{External} (types : list ScalarType) : option ScalarType :=
  match types with
  | [] => None
  | t0 :: rest => Some (foldl promoteTypes t0 rest)
  end.

(** The body of the [for_each] over the inputs: one input is added to
    [typesFromScalars] or to [typesFromTensors], or to neither.  The pair is
    (typesFromTensors, typesFromScalars). *)
Definition classify_input (g : Graph)
    (acc : list ScalarType * list ScalarType) (input : Value)
  : Res (list ScalarType * list ScalarType) :=
  let nkind := n_kind (getNode g (Value_node input)) in
  shape_gather ←
    (if decide (nkind = onnx_Gather) then
       in0 ← Node_input g (Value_node input) 0;
       mret (bool_decide (n_kind (getNode g (Value_node in0)) = onnx_Shape))
     else mret false);
  if (shape_gather : bool) then mret (acc.1, acc.2 ++ [kLong])
  else if decide (nkind = onnx_Constant) then
    value ← Node_t g (Value_node input) attr_value;
    mret (acc.1, acc.2 ++ [scalar_type value])
  else
    tensor_type ← cast_TensorType (Value_type g input);
    match scalarType tensor_type with
    | Some st => mret (acc.1 ++ [st], acc.2)
    | None => mret acc
    end.

(** The [for_each] itself: (typesFromTensors, typesFromScalars) of a node. *)
Definition collect_types (g : Graph) (n : NodeId)
  : Res (list ScalarType * list ScalarType) :=
  foldlM (classify_input g) ([], []) (n_inputs (getNode g n)).

Definition InferExpectedScalarType `{External} (g : Graph) (n : NodeId)
  : Res (option ScalarType * list Warning) :=
  let nd := getNode g n in
  buckets ← collect_types g n;
  let typesFromTensors := buckets.1 in
  let typesFromScalars := buckets.2 in
  out ← Node_output g n;
  out_tt ← cast_TensorType (Value_type g out);
  let output_st := scalarType out_tt in
  if IsComparisonOp (n_kind nd) then
    mret (PromoteScalarTypes (typesFromScalars ++ typesFromTensors), [])
  else if length typesFromScalars =? length (n_inputs nd) then
    mret (PromoteScalarTypes typesFromScalars, [])
  else if output_st is Some _ then
    mret (output_st, [])
  else if typesFromTensors is t0 :: _ then
    let st := Some t0 in
    mret (st,
          if existsb (fun type => bool_decide (Some type ≠ st)) typesFromTensors
          then [WarnScalarTypesMismatch (n_kind nd) t0] else [])
  else
    mret (PromoteScalarTypes typesFromScalars, []).

(** ** Rewriting the inputs and the output of one node *)

(** One turn of the loop [for (auto input : n->inputs())]: the loop walks the
    input array of [n] by position while [replaceInputWith] overwrites entries
    of that same array, so turn [i] reads the input now at position [i]. *)
Definition update_input `{External} (n : NodeId) (st : ScalarType) (onnx_type : Z)
    (g : Graph) (i : nat) : Res Graph :=
  input ← Node_input g n i;
  input_tensor_type ← cast_TensorType (Value_type g input);
  let input_scalar_type := scalarType input_tensor_type in
  let is_constant :=
    bool_decide (n_kind (getNode g (Value_node input)) = onnx_Constant) in
  if is_constant ||
     (if input_scalar_type is Some t then bool_decide (t ≠ st) else false)
  then
    if is_constant then
      (* Fix up the scalar directly instead of inserting a cast operator. *)
      val ← Node_t g (Value_node input) attr_value;
      let new_val := Tensor_to val st in
      let '(g1, const_node) := create g onnx_Constant in
      let g2 := Node_t_ g1 const_node attr_value new_val in
      let g3 := insertBefore g2 const_node n in
      out ← Node_output g3 const_node;
      let g4 := setType g3 out (TensorT (TensorType_create new_val)) in
      mret (replaceInputWith g4 n input out)
    else
      let '(g1, cast_node) := create g onnx_Cast in
      let g2 := addInput g1 cast_node input in
      let g3 := Node_i_ g2 cast_node attr_to onnx_type in
      let g4 := insertBefore g3 cast_node n in
      out ← Node_output g4 cast_node;
      let g5 := setType g4 out
        (TensorT (CreateProfiledTensorTypeWithScalarType input_tensor_type st)) in
      mret (replaceInputWith g5 n input out)
  else mret g.

Definition UpdateScalarTypeForInputs `{External} (g : Graph) (n : NodeId)
    (st : ScalarType) : Res (Graph * list Warning) :=
  let onnx_type := ScalarTypeToONNXType st in
  if (onnx_type <? 0)%Z then
    mret (g, [WarnNotSupportedInONNX st (n_kind (getNode g n))])
  else
    g' ← foldlM (update_input n st onnx_type) g
           (seq 0 (length (n_inputs (getNode g n))));
    mret (g', []).

Definition UpdateScalarTypeForOutput (g : Graph) (n : NodeId) (st : ScalarType)
  : Res Graph :=
  out ← Node_output g n;
  output_tensor_type ← cast_TensorType (Value_type g out);
  mret (setType g out
          (TensorT (CreateProfiledTensorTypeWithScalarType output_tensor_type st))).

(** ** The driver *)

(** The state the driver threads: the graph, what was written to [std::cerr],
    and a ghost record of the inferences made, (node, inferred type or
    unknown) in the order of the visits.  The record is not program state;
    the properties of the whole pass speak of "the type inferred for N"
    through it. *)
Record PassState := mkPassState {
  ps_graph : Graph;
  ps_cerr : list Warning;
  ps_inferred : list (NodeId * option ScalarType);
}.

(** The body of the loop over the nodes of a block, after the recursion into
    the sub-blocks of the node. *)
Definition visit_node `{External} (s : PassState) (it : NodeId) : Res PassState :=
  let g := ps_graph s in
  if IsImplicitCastSupported (n_kind (getNode g it)) then
    inferred ← InferExpectedScalarType g it;
    match inferred.1 with
    | Some expected_scalar_type =>
        updated ← UpdateScalarTypeForInputs g it expected_scalar_type;
        g2 ← (if negb (IsComparisonOp (n_kind (getNode updated.1 it))) then
                UpdateScalarTypeForOutput updated.1 it expected_scalar_type
              else mret updated.1);
        mret (mkPassState g2 (ps_cerr s ++ inferred.2 ++ updated.2)
                (ps_inferred s ++ [(it, Some expected_scalar_type)]))
    | None =>
        mret (mkPassState g (ps_cerr s ++ inferred.2)
                (ps_inferred s ++ [(it, None)]))
    end
  else mret s.

(** [ImplicitCastForONNX] on a block.  The recursion follows the nesting of
    blocks, which lives in the store: [fuel] bounds its depth.  The nodes of
    the block are walked in the order they had when the loop started: a node
    spliced in by a visit lands before the cursor and is never visited. *)
Fixpoint ImplicitCastForONNX `{External} (fuel : nat) (s : PassState)
    (block : BlockId) : Res PassState :=
  match fuel with
  | O => Fail OutOfFuel
  | S fuel' =>
      s' ← foldlM
             (fun s it =>
                s1 ← foldlM (ImplicitCastForONNX fuel') s
                       (n_blocks (getNode (ps_graph s) it));
                visit_node s1 it)
             s (b_nodes (getBlock (ps_graph s) block));
      mret (mkPassState
              (EliminateDeadCode (ps_graph s') block true
                 ALLOW_DELETING_NODES_WITH_SIDE_EFFECTS)
              (ps_cerr s') (ps_inferred s'))
  end.

Definition ScalarTypeAnalysisForONNX `{External} (fuel : nat) (graph : Graph)
  : Res PassState :=
  ImplicitCastForONNX fuel (mkPassState graph [] []) (g_block graph).

(** ** The classification of inputs in the words of the specification *)

(** The idiom [Gather(Shape(x), index)]: the producer is a Gather whose first
    operand is produced by a Shape node. *)
Definition is_shape_gather (g : Graph) (input : Value) : bool :=
  bool_decide (n_kind (getNode g (Value_node input)) = onnx_Gather)
  && match n_inputs (getNode g (Value_node input)) !! 0 with
     | Some in0 => bool_decide (n_kind (getNode g (Value_node in0)) = onnx_Shape)
     | None => false
     end.

Definition is_constant (g : Graph) (input : Value) : bool :=
  bool_decide (n_kind (getNode g (Value_node input)) = onnx_Constant).

(** An input "classified into the scalar bucket". *)
Definition is_scalar_input (g : Graph) (input : Value) : bool :=
  is_shape_gather g input || is_constant g input.

(** What an input contributes to typesFromScalars: the stored element type
    of a constant literal, Long for the Gather/Shape idiom. *)
Definition scalar_contribution (g : Graph) (input : Value) : option ScalarType :=
  if is_shape_gather g input then Some kLong
  else if is_constant g input then
    match n_attrs (getNode g (Value_node input)) !! attr_value with
    | Some (AttrTensor t) => Some (scalar_type t)
    | _ => None
    end
  else None.

(** What an input contributes to typesFromTensors: its annotated element
    type, when it is not a scalar input and the annotation carries one. *)
Definition tensor_contribution (g : Graph) (input : Value) : option ScalarType :=
  if is_scalar_input g input then None
  else match Value_type g input with
       | Some (TensorT t) => scalarType t
       | _ => None
       end.

(** The annotated element type of a value, when it has one. *)
Definition known_scalar_type (g : Graph) (v : Value) : option ScalarType :=
  match Value_type g v with
  | Some (TensorT t) => scalarType t
  | _ => None
  end.

(** A Constant node that holds the literal [v] and whose output carries the
    annotation made from [v]: what the pass makes of a constant input. *)
Definition constant_node (v : Tensor) : Node :=
  mkNode onnx_Constant [] [TensorT (TensorType_create v)]
         {[ attr_value := AttrTensor v ]} [].

(** The graph in which a new node [nd] is created at the next free
    identifier, linked just before [n], and read by [n] wherever [n] read
    [input]: what one turn of the loop of [UpdateScalarTypeForInputs] makes
    of a graph when it rewrites an input. *)
Definition splice_before (g : Graph) (n : NodeId) (input : Value) (nd : Node) : Graph :=
  let c := fresh (dom (g_nodes g)) in
  let old := getNode g n in
  {| g_nodes :=
       <[n := mkNode (n_kind old) (replace_value input (mkValue c 0) <$> n_inputs old)
                     (n_outputs old) (n_attrs old) (n_blocks old)]>
         (<[c := nd]> (g_nodes g));
     g_blocks := (fun b => mkBlock (insert_before c n (b_nodes b)) (b_return b)) <$> g_blocks g;
     g_block := g_block g |}.
Global Arguments splice_before : simpl never.

(** ** How a graph may change during the pass *)

(** An annotation is kept, or a tensor annotation is replaced by another. *)
Definition same_or_tensor (t t' : JitType) : Prop :=
  t' = t \/ exists tens tens', t = TensorT tens /\ t' = TensorT tens'.

(** An input edge is kept, or rewired to the output of a node of [D'] that
    is not in [D]. *)
Definition kept_or_rewired (D D' : gset NodeId) (v v' : Value) : Prop :=
  v' = v \/ (Value_offset v' = 0 /\ Value_node v' ∈ D' /\ Value_node v' ∉ D).

(** A node [nd] of the store [D] as it may be found later, [nd'], in the
    store [D']: only the inputs of a whitelisted node and the output
    annotations of a STANDARD node change. *)
Record node_evolves (D D' : gset NodeId) (nd nd' : Node) : Prop := {
  ne_kind : n_kind nd' = n_kind nd;
  ne_attrs : n_attrs nd' = n_attrs nd;
  ne_blocks : n_blocks nd' = n_blocks nd;
  ne_outputs : Forall2 same_or_tensor (n_outputs nd) (n_outputs nd');
  ne_outputs_keep : IsStandardOp (n_kind nd) = false -> n_outputs nd' = n_outputs nd;
  ne_inputs : Forall2 (kept_or_rewired D D') (n_inputs nd) (n_inputs nd');
  ne_inputs_keep :
    IsImplicitCastSupported (n_kind nd) = false -> n_inputs nd' = n_inputs nd;
}.

(** A node made by the pass: a Constant with its literal or a Cast, with one
    tensor-typed output and no sub-block. *)
Definition created_node (nd : Node) : Prop :=
  n_blocks nd = []
  /\ (exists tens, n_outputs nd = [TensorT tens])
  /\ ((n_kind nd = onnx_Constant
       /\ exists t, n_attrs nd !! attr_value = Some (AttrTensor t))
      \/ n_kind nd = onnx_Cast).

(** [g'] is [g] after some steps of the pass: old nodes evolve, new nodes
    are nodes made by the pass, and a block lists old members and new nodes
    only. *)
Record evolves (g g' : Graph) : Prop := {
  ev_old : forall m nd, g_nodes g !! m = Some nd ->
    exists nd', g_nodes g' !! m = Some nd'
                /\ node_evolves (dom (g_nodes g)) (dom (g_nodes g')) nd nd';
  ev_new : forall m nd', g_nodes g !! m = None -> g_nodes g' !! m = Some nd' ->
    created_node nd';
  ev_blocks : forall b x, x ∈ b_nodes (getBlock g' b) ->
    x ∈ b_nodes (getBlock g b)
    \/ (g_nodes g !! x = None /\ is_Some (g_nodes g' !! x));
  ev_block : g_block g' = g_block g;
}.

(** An input edge that agrees with the element type [st]: it carries a
    tensor annotation whose element type is unknown or [st], and when its
    producer is a Constant, that is a Constant holding a literal of type [st]
    under the annotation made from the literal. *)
Definition input_settled (g : Graph) (st : ScalarType) (v : Value) : Prop :=
  (exists tens, Value_type g v = Some (TensorT tens)
                /\ (scalarType tens = None \/ scalarType tens = Some st))
  /\ (n_kind (getNode g (Value_node v)) = onnx_Constant ->
      exists val, scalar_type val = st
                  /\ getNode g (Value_node v) = constant_node val).

(** Every node of [g] other than [n] is found unchanged in [g']. *)
Definition frame (n : NodeId) (g g' : Graph) : Prop :=
  forall m nd, m <> n -> g_nodes g !! m = Some nd -> g_nodes g' !! m = Some nd.

(** The visits happened in an order in which, in the graph [g], no node is
    visited twice and no visited node reads an output of a node visited after
    it (values are defined before they are used). *)
Fixpoint def_before_use (g : Graph) (order : list NodeId) : Prop :=
  match order with
  | [] => True
  | n :: later =>
      (n ∉ later)
      /\ (forall v, v ∈ n_inputs (getNode g n) -> Value_node v ∉ later)
      /\ def_before_use g later
  end.

(** What the traversal keeps true of the nodes it has visited, [g0] being
    the graph it started from: the inputs of a visited node whose inferred
    type has a wire-format code agree with that type, unless the node itself
    or the producer of the input is visited again later. *)
Definition agreed (g0 g : Graph) (tr : list (NodeId * option ScalarType)) : Prop :=
  evolves g0 g
  /\ forall i n r, tr !! i = Some (n, r) ->
       is_Some (g_nodes g0 !! n)
       /\ IsImplicitCastSupported (n_kind (getNode g n)) = true
       /\ (forall st, r = Some st -> ScalarTypeToONNXType st <> (-1)%Z ->
           (exists j r', i < j /\ tr !! j = Some (n, r'))
           \/ Forall (fun v => input_settled g st v
                               \/ exists j r', i < j
                                    /\ tr !! j = Some (Value_node v, r'))
                     (n_inputs (getNode g n))).

(** ** Running the pass twice *)

(** The contract of the external promotion of element types this
    development relies on where it compares two runs: promotion is a join
    (the specification asks for it to be "commutative/associative enough"). *)
Class PromoteLaws (E : External) : Prop := {
  promote_assoc : forall a b c,
    promoteTypes a (promoteTypes b c) = promoteTypes (promoteTypes a b) c;
  promote_comm : forall a b, promoteTypes a b = promoteTypes b a;
  promote_idem : forall a, promoteTypes a a = a;
}.

(** The order of the join: [a] is below [b] when promoting the two gives
    [b]. *)
Definition promote_le `{External} (a b : ScalarType) : Prop :=
  promoteTypes a b = b.

(** A visited node as the pass leaves it: inference yields [r] on it; when
    [r] is a type with a wire-format code the inputs agree with it, and the
    output of a STANDARD node carries it. *)
Definition settled_as `{External} (g : Graph) (n : NodeId)
    (r : option ScalarType) : Prop :=
  IsImplicitCastSupported (n_kind (getNode g n)) = true
  /\ (exists w, InferExpectedScalarType g n = Ok (r, w))
  /\ forall st, r = Some st ->
       (ScalarTypeToONNXType st <> (-1)%Z ->
        Forall (input_settled g st) (n_inputs (getNode g n)))
       /\ (IsStandardOp (n_kind (getNode g n)) = true ->
           exists tens, n_outputs (getNode g n) = [TensorT tens]
                        /\ scalarType tens = Some st).

(** The node [p] looks the same in [g'] as in [g] to a consumer of its
    outputs: same kind, attributes and annotations, and the same record
    altogether when it is outside the whitelist. *)
Definition view_kept (g g' : Graph) (p : NodeId) : Prop :=
  n_kind (getNode g' p) = n_kind (getNode g p)
  /\ n_attrs (getNode g' p) = n_attrs (getNode g p)
  /\ n_outputs (getNode g' p) = n_outputs (getNode g p)
  /\ (IsImplicitCastSupported (n_kind (getNode g p)) = false ->
      getNode g' p = getNode g p).

(** The same nodes are Shape nodes in [g] and in [g']. *)
Definition shape_kept (g g' : Graph) : Prop :=
  forall q, n_kind (getNode g' q) = onnx_Shape <-> n_kind (getNode g q) = onnx_Shape.

(** Where an input [v1] of a rewritten node comes from, [v] being the input
    at the same position before the rewriting in [g]: it is [v] itself, or
    the output of a node that [g] does not have, a Constant when the producer
    of [v] was one, else a Cast annotated with [st]. *)
Definition rewired_from (g g1 : Graph) (st : ScalarType) (v v1 : Value) : Prop :=
  v1 = v
  \/ (g_nodes g !! Value_node v1 = None
      /\ ((is_constant g v = true
           /\ n_kind (getNode g1 (Value_node v1)) = onnx_Constant)
          \/ (is_constant g v = false
              /\ n_kind (getNode g1 (Value_node v1)) = onnx_Cast
              /\ known_scalar_type g1 v1 = Some st))).

(** What the input [v2] of a node contributes to inference in [g2], against
    the input [v] at the same position in [g]: the same (for the tensor
    bucket when [cmp] asks for it), or [st] as a scalar where [v] was a
    scalar input, or [st] as a tensor. *)
Definition contributes_alike (g g2 : Graph) (st : ScalarType) (cmp : bool)
    (v v2 : Value) : Prop :=
  (is_scalar_input g2 v2 = is_scalar_input g v
   /\ scalar_contribution g2 v2 = scalar_contribution g v
   /\ (cmp = true -> tensor_contribution g2 v2 = tensor_contribution g v))
  \/ (is_scalar_input g2 v2 = true /\ is_scalar_input g v = true
      /\ scalar_contribution g2 v2 = Some st
      /\ tensor_contribution g2 v2 = None)
  \/ (is_scalar_input g2 v2 = false
      /\ scalar_contribution g2 v2 = None
      /\ tensor_contribution g2 v2 = Some st).

(** What the traversal keeps true of the nodes it has visited, [g0] being
    the graph it started from: a visited node is left as the words of
    [settled_as] have it, unless the node is visited again later or reads, in
    [g0], an output of a node that is visited later. *)
Definition stable `{External} (g0 g : Graph)
    (tr : list (NodeId * option ScalarType)) : Prop :=
  evolves g0 g
  /\ forall i n r, tr !! i = Some (n, r) ->
       is_Some (g_nodes g0 !! n)
       /\ (settled_as g n r
           \/ (exists j r', i < j /\ tr !! j = Some (n, r'))
           \/ (exists v j r', v ∈ n_inputs (getNode g0 n) /\ i < j
                              /\ tr !! j = Some (Value_node v, r'))).




(** The state [s'] comes after the state [s] in a run of the pass: the
    graph has evolved and the record of the visits has grown. *)
Definition follows (s s' : PassState) : Prop :=
  evolves (ps_graph s) (ps_graph s')
  /\ forall m, m ∈ (ps_inferred s).*1 -> m ∈ (ps_inferred s').*1.

(** The traversal of the block [b] of [g] meets whitelisted nodes of
    [visited] only, down to the [depth] the nesting has. *)
Fixpoint covered (depth : nat) (g : Graph) (visited : list NodeId)
    (b : BlockId) : Prop :=
  match depth with
  | O => False
  | S depth' =>
      forall x, x ∈ b_nodes (getBlock g b) ->
        (x ∈ visited \/ IsImplicitCastSupported (n_kind (getNode g x)) = false)
        /\ forall sb, sb ∈ n_blocks (getNode g x) -> covered depth' g visited sb
  end.

(** A node as the pass makes one for the element type [st]: a Constant
    that holds a literal of type [st] under the annotation made from the
    literal, or a Cast with one operand, the attribute "to" set to the
    wire-format code of [st], which [st] has, and an output annotated with
    [st]. *)
Definition made_for (st : ScalarType) (nd : Node) : Prop :=
  (exists val, nd = constant_node val /\ scalar_type val = st)
  \/ (exists v tens,
        nd = mkNode onnx_Cast [v] [TensorT tens]
                    {[ attr_to := AttrInt (ScalarTypeToONNXType st) ]} []
        /\ scalarType tens = Some st
        /\ ScalarTypeToONNXType st <> (-1)%Z).

(** What the loop of [UpdateScalarTypeForInputs] over the inputs of [n]
    makes of the graph [g] for the type [st]: it substitutes outputs of new
    nodes for inputs of [n], makes Constant and Cast nodes, links them in a
    row just before [n], and leaves everything else as it is. *)
Definition inputs_rewritten (n : NodeId) (st : ScalarType) (g g1 : Graph) : Prop :=
  is_Some (g_nodes g1 !! n)
  /\ (forall m nd, m <> n -> g_nodes g !! m = Some nd -> g_nodes g1 !! m = Some nd)
  /\ n_kind (getNode g1 n) = n_kind (getNode g n)
  /\ n_outputs (getNode g1 n) = n_outputs (getNode g n)
  /\ n_attrs (getNode g1 n) = n_attrs (getNode g n)
  /\ n_blocks (getNode g1 n) = n_blocks (getNode g n)
  /\ (exists f : Value -> Value,
        n_inputs (getNode g1 n) = f <$> n_inputs (getNode g n)
        /\ forall v, f v = v
                     \/ (g_nodes g !! Value_node (f v) = None
                         /\ Value_offset (f v) = 0))
  /\ (forall m nd', g_nodes g !! m = None -> g_nodes g1 !! m = Some nd' ->
        made_for st nd')
  /\ g_block g1 = g_block g
  /\ forall b,
       b_return (getBlock g1 b) = b_return (getBlock g b)
       /\ ((n ∉ b_nodes (getBlock g b)
            /\ b_nodes (getBlock g1 b) = b_nodes (getBlock g b))
           \/ exists l1 l2 news,
                b_nodes (getBlock g b) = l1 ++ n :: l2 /\ n ∉ l1
                /\ b_nodes (getBlock g1 b) = l1 ++ news ++ n :: l2
                /\ Forall (fun x => g_nodes g !! x = None) news).

(** [n] is linked in a block of [g]: [insertBefore(n)] asks for it. *)
Definition linked (g : Graph) (n : NodeId) : Prop :=
  exists b, n ∈ b_nodes (getBlock g b).

(** The identifiers that [Graph::create] gives to nodes made one after the
    other, in the order in which they are made, [D] being the identifiers
    in use before the first is made. *)
Fixpoint made_in_order (D : gset NodeId) (news : list NodeId) : Prop :=
  match news with
  | [] => True
  | c :: rest => c = fresh D /\ made_in_order ({[ c ]} ∪ D) rest
  end.

(** The nodes [news] were made in this order and linked, in this order, in a
    row that ends just before (the first occurrence of) [n], in every block
    that lists [n]; no other node was made, and nothing else changed in the
    blocks. *)
Definition linked_in_a_row (n : NodeId) (g g1 : Graph) (news : list NodeId) : Prop :=
  made_in_order (dom (g_nodes g)) news
  /\ dom (g_nodes g1) = list_to_set news ∪ dom (g_nodes g)
  /\ forall b,
       b_return (getBlock g1 b) = b_return (getBlock g b)
       /\ ((n ∉ b_nodes (getBlock g b)
            /\ b_nodes (getBlock g1 b) = b_nodes (getBlock g b))
           \/ exists l1 l2,
                b_nodes (getBlock g b) = l1 ++ n :: l2 /\ n ∉ l1
                /\ b_nodes (getBlock g1 b) = l1 ++ news ++ n :: l2).

(** What the loop of [UpdateScalarTypeForInputs] for the type [st] makes of
    an input [v] of the node, read in the graph [g] the loop starts from,
    [v1] being the input at the same position when the loop has ended in
    [g1].  An input whose producer is a node of [g] carries a tensor
    annotation, which the loop has read; when its producer is a Constant,
    [v1] is the output of a new Constant that holds the literal converted to
    [st]; otherwise, when the annotated element type is known and is not
    [st], [v1] is the output of a new Cast of [v] to [st]; otherwise [v1] is
    [v].  Nothing is said of an input that names no node of [g]. *)
Definition input_rewritten `{External} (g g1 : Graph) (st : ScalarType)
    (v v1 : Value) : Prop :=
  match g_nodes g !! Value_node v with
  | None => True
  | Some _ =>
      match Value_type g v with
      | Some (TensorT tens) =>
          if decide (n_kind (getNode g (Value_node v)) = onnx_Constant) then
            exists val,
              n_attrs (getNode g (Value_node v)) !! attr_value
                = Some (AttrTensor val)
              /\ Value_offset v1 = 0
              /\ g_nodes g !! Value_node v1 = None
              /\ g_nodes g1 !! Value_node v1
                 = Some (mkNode onnx_Constant []
                           [TensorT (TensorType_create (Tensor_to val st))]
                           {[ attr_value := AttrTensor (Tensor_to val st) ]} [])
          else
            match scalarType tens with
            | Some t =>
                if decide (t = st) then v1 = v
                else Value_offset v1 = 0
                     /\ g_nodes g !! Value_node v1 = None
                     /\ g_nodes g1 !! Value_node v1
                        = Some (mkNode onnx_Cast [v]
                                  [TensorT (CreateProfiledTensorTypeWithScalarType tens st)]
                                  {[ attr_to := AttrInt (ScalarTypeToONNXType st) ]} [])
            | None => v1 = v
            end
      | _ => False
      end
  end.




(** What a warning of the pass says of the node it names: a mismatch of
    tensor types is reported for a STANDARD operator, and a type is reported
    as not supported when it has no wire-format code, for an operator of
    the whitelist. *)
Definition warning_justified (w : Warning) : Prop :=
  match w with
  | WarnScalarTypesMismatch op _ => IsStandardOp op = true
  | WarnNotSupportedInONNX st op =>
      ScalarTypeToONNXType st = (-1)%Z /\ IsImplicitCastSupported op = true
  end.

(** ** What the pass needs of a graph *)

Definition is_tensor_typed (g : Graph) (v : Value) : bool :=
  match Value_type g v with
  | Some (TensorT _) => true
  | _ => false
  end.

Definition has_tensor_value (nd : Node) : bool :=
  match n_attrs nd !! attr_value with
  | Some (AttrTensor _) => true
  | _ => false
  end.

Definition single_tensor_output (nd : Node) : bool :=
  match n_outputs nd with
  | [TensorT _] => true
  | _ => false
  end.

(** The input carries a [TensorType], and its producer, when a Constant,
    carries a tensor-valued attribute "value". *)
Definition input_typed (g : Graph) (v : Value) : bool :=
  is_tensor_typed g v
  && (if is_constant g v then has_tensor_value (getNode g (Value_node v)) else true).

(** The producer of the input, when a Gather, has a first operand. *)
Definition gather_has_operand (g : Graph) (v : Value) : bool :=
  if decide (n_kind (getNode g (Value_node v)) = onnx_Gather)
  then bool_decide (n_inputs (getNode g (Value_node v)) <> [])
  else true.

Definition input_ok (g : Graph) (v : Value) : bool :=
  input_typed g v && gather_has_operand g v.

(** Whether the [for_each] of [InferExpectedScalarType] can read an input:
    a Gather producer has a first operand, a Constant producer holds a tensor
    under "value", and any other input (that of a Gather which is not read
    off a Shape included) carries a tensor annotation. *)
Definition input_readable (g : Graph) (input : Value) : bool :=
  let nd := getNode g (Value_node input) in
  if decide (n_kind nd = onnx_Gather) then
    match n_inputs nd !! 0 with
    | Some in0 =>
        bool_decide (n_kind (getNode g (Value_node in0)) = onnx_Shape)
        || is_tensor_typed g input
    | None => false
    end
  else if decide (n_kind nd = onnx_Constant) then
    match n_attrs nd !! attr_value with
    | Some (AttrTensor _) => true
    | _ => false
    end
  else is_tensor_typed g input.

(** Every whitelisted node of the store has one tensor-typed output and
    inputs that satisfy [ok]. *)
Definition whitelisted_nodes_ok (ok : Graph -> Value -> bool) (g : Graph) : Prop :=
  map_Forall
    (fun _ nd =>
       IsImplicitCastSupported (n_kind nd) = true ->
       single_tensor_output nd = true /\ forallb (ok g) (n_inputs nd) = true)
    (g_nodes g).

(** The nesting of blocks below [b] is less than [depth] deep. *)
Fixpoint nesting_below (depth : nat) (g : Graph) (b : BlockId) : bool :=
  match depth with
  | O => false
  | S depth' =>
      forallb (fun x => forallb (nesting_below depth' g) (n_blocks (getNode g x)))
              (b_nodes (getBlock g b))
  end.

(** The contract of the external dead code elimination: it unlinks nodes
    from blocks and does nothing else (the record of an unlinked node stays
    in the store and its identifier is not reused). *)
Class DCELaws (E : External) : Prop := {
  dce_nodes : forall g b recurse policy,
    g_nodes (EliminateDeadCode g b recurse policy) = g_nodes g;
  dce_blocks : forall g b recurse policy b' x,
    x ∈ b_nodes (getBlock (EliminateDeadCode g b recurse policy) b') ->
    x ∈ b_nodes (getBlock g b');
  dce_block : forall g b recurse policy,
    g_block (EliminateDeadCode g b recurse policy) = g_block g;
}.

(** ** An instance of the external services, and sample graphs *)

(** A promotion table in the shape of the frontend's: Bool below the integer
    types, these below the floating types, Byte and Char joined in Short,
    Half and BFloat16 in Float, and kUndefined above everything else. *)
Definition promote_level (t : ScalarType) : option nat :=
  match t with
  | kBool => Some 0 | kByte => Some 1 | kChar => Some 1 | kShort => Some 2
  | kInt => Some 3 | kLong => Some 4 | kHalf => Some 5 | kBFloat16 => Some 5
  | kFloat => Some 6 | kDouble => Some 7
  | _ => None
  end.

Definition sample_promoteTypes (a b : ScalarType) : ScalarType :=
  if decide (a = b) then a
  else match promote_level a, promote_level b with
       | Some la, Some lb =>
           if la <? lb then b
           else if lb <? la then a
           else if la =? 1 then kShort else kFloat
       | _, _ => kUndefined
       end.

(** Whether some node linked in a block, or the return of a block, reads [v]. *)
Definition value_used (g : Graph) (v : Value) : bool :=
  existsb
    (fun kb : BlockId * Block =>
       existsb (fun n => bool_decide (v ∈ n_inputs (getNode g n))) (b_nodes kb.2)
       || bool_decide (v ∈ b_return kb.2))
    (map_to_list (g_blocks g)).

Definition node_dead (g : Graph) (n : NodeId) : bool :=
  forallb (fun off => negb (value_used g (mkValue n off)))
          (seq 0 (length (n_outputs (getNode g n))))
  && bool_decide (n_blocks (getNode g n) = []).

Definition unlink (g : Graph) (b : BlockId) (n : NodeId) : Graph :=
  {| g_nodes := g_nodes g;
     g_blocks :=
       <[b := mkBlock (filter (fun x => x ≠ n) (b_nodes (getBlock g b)))
                      (b_return (getBlock g b))]> (g_blocks g);
     g_block := g_block g |}.

(** A dead code elimination in the words of the glossary, "removes nodes
    whose outputs are unused": the nodes of the block are swept from the last
    to the first, and a node without sub-blocks none of whose outputs is read
    is unlinked from the block. *)
Definition sample_dce (g : Graph) (b : BlockId) (recurse : bool)
    (policy : DCESideEffectPolicy) : Graph :=
  foldr (fun n g => if node_dead g n then unlink g b n else g)
        g (b_nodes (getBlock g b)).

Definition sample_external : External :=
  {| promoteTypes := sample_promoteTypes;
     convert_elems := fun _ _ elems => elems;
     EliminateDeadCode := sample_dce |}.

Definition tensor_of (st : option ScalarType) : JitType :=
  TensorT (mkTensorType st None).

(** The parameters of a graph are the outputs of its [prim::Param] node. *)
Definition param_node (types : list JitType) : Node :=
  mkNode (OtherKind "prim::Param") [] types ∅ [].

Definition op_node (k : NodeKind) (ins : list Value) (out : option ScalarType) : Node :=
  mkNode k ins [tensor_of out] ∅ [].

Definition graph_of (nodes : list (NodeId * Node)) (body : list NodeId)
    (ret : list Value) : Graph :=
  mkGraph (list_to_map nodes) {[ 0 := mkBlock body ret ]} 0.

(** Add(FloatTensor, IntTensor), output annotation unknown. *)
Definition g_add_float_int : Graph :=
  graph_of [ (0, param_node [tensor_of (Some kFloat); tensor_of (Some kInt)]);
             (1, op_node onnx_Add [mkValue 0 0; mkValue 0 1] None) ]
           [1] [mkValue 1 0].

(** Mul(FloatTensor, Constant(Int 3)), output annotation unknown. *)
Definition g_mul_float_const : Graph :=
  graph_of [ (0, param_node [tensor_of (Some kFloat)]);
             (1, constant_node (mkTensor kInt [] [3%Z]));
             (2, op_node onnx_Mul [mkValue 0 0; mkValue 1 0] None) ]
           [1; 2] [mkValue 2 0].

(** Add(BFloat16Tensor, FloatTensor), output annotation unknown. *)
Definition g_add_bfloat_float : Graph :=
  graph_of [ (0, param_node [tensor_of (Some kBFloat16); tensor_of (Some kFloat)]);
             (1, op_node onnx_Add [mkValue 0 0; mkValue 0 1] None) ]
           [1] [mkValue 1 0].

(** Greater(FloatTensor, Constant(Double 1.5)), output annotated Bool. *)
Definition g_greater_float_const : Graph :=
  graph_of [ (0, param_node [tensor_of (Some kFloat)]);
             (1, constant_node (mkTensor kDouble [] [15%Z]));
             (2, op_node onnx_Greater [mkValue 0 0; mkValue 1 0] (Some kBool)) ]
           [1; 2] [mkValue 2 0].

(** Greater(Constant(Float 1.5), DoubleTensor), output annotated Bool. *)
Definition g_greater_const_double : Graph :=
  graph_of [ (0, param_node [tensor_of (Some kDouble)]);
             (1, constant_node (mkTensor kFloat [] [15%Z]));
             (2, op_node onnx_Greater [mkValue 1 0; mkValue 0 0] (Some kBool)) ]
           [1; 2] [mkValue 2 0].

(** Add(Gather(), IntTensor): a Gather node without operand feeds an Add. *)
Definition g_gather_no_operand : Graph :=
  graph_of [ (0, param_node [tensor_of (Some kInt)]);
             (1, op_node onnx_Gather [] (Some kLong));
             (2, op_node onnx_Add [mkValue 1 0; mkValue 0 0] None) ]
           [1; 2] [mkValue 2 0].

(** Add(x, IntTensor) where x carries a type that is not a tensor type. *)
Definition g_add_untyped : Graph :=
  graph_of [ (0, param_node [OtherT "int"; tensor_of (Some kInt)]);
             (1, op_node onnx_Add [mkValue 0 0; mkValue 0 1] None) ]
           [1] [mkValue 1 0].

(** Add(x, y) where nothing is known of the element types. *)
Definition g_add_unknown : Graph :=
  graph_of [ (0, param_node [tensor_of None; tensor_of None]);
             (1, op_node onnx_Add [mkValue 0 0; mkValue 0 1] None) ]
           [1] [mkValue 1 0].

(** Add(x, x) for an Int tensor x, output annotated Float. *)
Definition g_add_same_input : Graph :=
  graph_of [ (0, param_node [tensor_of (Some kInt)]);
             (1, op_node onnx_Add [mkValue 0 0; mkValue 0 0] (Some kFloat)) ]
           [1] [mkValue 1 0].

(** x.size(idx) read as Gather(Shape(x), idx) with an Int annotation, the
    same behind an Unsqueeze, and a Gather that does not read a Shape. *)
Definition g_shape_gather : Graph :=
  graph_of [ (0, param_node [tensor_of (Some kFloat); tensor_of (Some kLong)]);
             (1, op_node onnx_Shape [mkValue 0 0] (Some kLong));
             (2, op_node onnx_Gather [mkValue 1 0; mkValue 0 1] (Some kInt));
             (3, op_node (OtherKind "onnx::Unsqueeze") [mkValue 2 0] (Some kLong));
             (4, op_node onnx_Add [mkValue 2 0; mkValue 3 0] None);
             (5, op_node onnx_Gather [mkValue 0 0; mkValue 0 1] (Some kInt)) ]
           [1; 2; 3; 4; 5] [mkValue 4 0; mkValue 5 0].

(** * Properties *)

(** ** The result monad *)

Lemma bind_Ok {A B : Type} (m : Res A) (f : A -> Res B) (b : B) :
  (m ≫= f) = Ok b -> exists a, m = Ok a /\ f a = Ok b.
Proof. destruct m as [a|e]; simpl; [eauto | discriminate]. Qed.

Ltac res_inv :=
  repeat match goal with
  | H : (_ ≫= _) = Ok _ |- _ =>
      let a := fresh "a" in let E := fresh "E" in
      apply bind_Ok in H; destruct H as (a & E & H)
  | H : mret _ = Ok _ |- _ => injection H as H
  | H : Ok _ = Ok _ |- _ => injection H as H
  | H : Fail _ = Ok _ |- _ => discriminate H
  end.

Lemma foldlM_app {A B : Type} (f : A -> B -> Res A) (a : A) (l1 l2 : list B) :
  foldlM f a (l1 ++ l2) = foldlM f a l1 ≫= fun a' => foldlM f a' l2.
Proof.
  revert a; induction l1 as [|x l1 IH]; intros a; simpl; [reflexivity|].
  destruct (f a x); simpl; auto.
Qed.

(** ** The codec *)

(** C9: the codec maps exactly Float to 1, Byte to 2, Char to 3, Short to 5,
    Int to 6, Long to 7, Bool to 9, Half to 10 and Double to 11; every other
    element type yields -1, and the codes 4 and 8 are never produced. *)
Theorem ScalarTypeToONNXType_table (st : ScalarType) :
  ScalarTypeToONNXType st =
    match st with
    | kFloat => 1 | kByte => 2 | kChar => 3 | kShort => 5 | kInt => 6
    | kLong => 7 | kBool => 9 | kHalf => 10 | kDouble => 11
    | _ => -1
    end%Z
  /\ ScalarTypeToONNXType st <> 4%Z /\ ScalarTypeToONNXType st <> 8%Z.
Proof. destruct st; vm_compute; repeat split; discriminate. Qed.

(** ** The classification of inputs *)

Ltac solve_bd :=
  first [ reflexivity
        | symmetry;
          first [ apply bool_decide_eq_true_2; eauto
                | apply bool_decide_eq_false_2; by intros [? ?] ] ].

Lemma classify_input_spec (g : Graph) (acc : list ScalarType * list ScalarType)
    (input : Value) (r : list ScalarType * list ScalarType) :
  classify_input g acc input = Ok r ->
  r = (acc.1 ++ option_list (tensor_contribution g input),
       acc.2 ++ option_list (scalar_contribution g input))
  /\ is_scalar_input g input = bool_decide (is_Some (scalar_contribution g input)).
Proof.
  unfold classify_input, tensor_contribution, scalar_contribution,
    is_scalar_input, is_shape_gather, is_constant, Node_input, Node_t.
  intros Hc.
  destruct (decide (n_kind (getNode g (Value_node input)) = onnx_Gather)) as [Hk|Hk].
  - rewrite Hk in *. rewrite bool_decide_eq_true_2 by reflexivity.
    rewrite (bool_decide_eq_false_2 (onnx_Gather = onnx_Constant)) by discriminate.
    destruct (n_inputs (getNode g (Value_node input)) !! 0) as [in0|];
      simpl in Hc; [|discriminate].
    destruct (bool_decide (n_kind (getNode g (Value_node in0)) = onnx_Shape));
      simpl in *.
    + injection Hc as <-. rewrite app_nil_r. split; [reflexivity|].
      solve_bd.
    + destruct (decide (onnx_Gather = onnx_Constant)); [discriminate|].
      destruct (Value_type g input) as [[tens|]|]; simpl in Hc; try discriminate.
      destruct (scalarType tens); injection Hc as <-; simpl;
        rewrite ?app_nil_r; (split; [by destruct acc|]); solve_bd.
  - rewrite (bool_decide_eq_false_2 _ Hk). simpl in *.
    destruct (decide (n_kind (getNode g (Value_node input)) = onnx_Constant)) as [Hc'|Hc'].
    + rewrite (bool_decide_eq_true_2 _ Hc').
      destruct (n_attrs (getNode g (Value_node input)) !! attr_value) as [[t| |]|];
        simpl in Hc; try discriminate.
      injection Hc as <-. rewrite app_nil_r. split; [reflexivity|].
      solve_bd.
    + rewrite (bool_decide_eq_false_2 _ Hc').
      destruct (Value_type g input) as [[tens|]|]; simpl in Hc; try discriminate.
      destruct (scalarType tens); injection Hc as <-; simpl;
        rewrite ?app_nil_r; (split; [by destruct acc|]); solve_bd.
Qed.

Lemma foldlM_classify_spec (g : Graph) (l : list Value)
    (acc r : list ScalarType * list ScalarType) :
  foldlM (classify_input g) acc l = Ok r ->
  r = (acc.1 ++ omap (tensor_contribution g) l,
       acc.2 ++ omap (scalar_contribution g) l)
  /\ Forall (fun v => is_scalar_input g v
                      = bool_decide (is_Some (scalar_contribution g v))) l.
Proof.
  revert acc; induction l as [|v l IH]; intros acc; simpl.
  - intros [= <-]. rewrite !app_nil_r. by destruct acc.
  - destruct (classify_input g acc v) as [acc'|] eqn:Hv; [|discriminate].
    intros Hl. apply classify_input_spec in Hv as [-> Hs].
    apply IH in Hl as [-> Hall]. simpl. split; [|by constructor].
    destruct (tensor_contribution g v), (scalar_contribution g v); simpl;
      by rewrite <- ?app_assoc.
Qed.

(** The two buckets are the contributions of the inputs, in input order. *)
Lemma collect_types_spec (g : Graph) (n : NodeId)
    (typesFromTensors typesFromScalars : list ScalarType) :
  collect_types g n = Ok (typesFromTensors, typesFromScalars) ->
  typesFromTensors = omap (tensor_contribution g) (n_inputs (getNode g n))
  /\ typesFromScalars = omap (scalar_contribution g) (n_inputs (getNode g n))
  /\ Forall (fun v => is_scalar_input g v
                      = bool_decide (is_Some (scalar_contribution g v)))
            (n_inputs (getNode g n)).
Proof.
  unfold collect_types. intros Hc.
  apply foldlM_classify_spec in Hc as [[= -> ->] Hall]. auto.
Qed.

Lemma omap_length_all {A B : Type} (f : A -> option B) (l : list A) :
  (length (omap f l) =? length l) = forallb (fun x => bool_decide (is_Some (f x))) l.
Proof.
  assert (Hle : forall l', length (omap f l') <= length l').
  { induction l' as [|y l' IH]; csimpl; [lia|].
    destruct (f y); simpl; lia. }
  induction l as [|x l IH]; csimpl; [reflexivity|].
  destruct (f x) as [b|] eqn:Hx; simpl.
  - rewrite IH. reflexivity.
  - apply Nat.eqb_neq. specialize (Hle l). lia.
Qed.

(** The test [typesFromScalars.size() == n->inputs().size()] holds exactly
    when every input is classified into the scalar bucket. *)
Lemma all_scalars_test (g : Graph) (n : NodeId)
    (typesFromTensors typesFromScalars : list ScalarType) :
  collect_types g n = Ok (typesFromTensors, typesFromScalars) ->
  (length typesFromScalars =? length (n_inputs (getNode g n)))
  = forallb (is_scalar_input g) (n_inputs (getNode g n)).
Proof.
  intros Hc. apply collect_types_spec in Hc as (_ & -> & Hall).
  rewrite omap_length_all.
  induction Hall as [|v l Hv Hall IH]; simpl; [reflexivity|].
  by rewrite Hv, IH.
Qed.

(** ** Type inference *)

Lemma existsb_differs_from_head (t0 : ScalarType) (rest : list ScalarType) :
  existsb (fun type => bool_decide (Some type <> Some t0)) (t0 :: rest)
  = existsb (fun type => bool_decide (type <> t0)) rest.
Proof.
  simpl. rewrite bool_decide_eq_false_2 by (intros Hne; by apply Hne).
  simpl. induction rest as [|t rest IH]; simpl; [reflexivity|].
  rewrite IH. f_equal. apply bool_decide_ext. split; intros Hne; congruence.
Qed.

Lemma IsStandardOp_not_comparison (k : NodeKind) :
  IsStandardOp k = true -> IsComparisonOp k = false.
Proof.
  unfold IsStandardOp, IsComparisonOp, standardOps, comparisonOps.
  intros Hs%bool_decide_eq_true_1. apply bool_decide_eq_false_2.
  revert Hs. rewrite !elem_of_union, !elem_of_singleton.
  intros Hs Hc. intuition congruence.
Qed.

(** C2: for a STANDARD node the inferred type follows this precedence: when
    every input is classified into the scalar bucket, the left-fold promotion
    over typesFromScalars; otherwise the element type of the output
    annotation when it is known; otherwise typesFromTensors[0] when there is
    one, with a warning naming the operator and the chosen type when another
    element of typesFromTensors differs; otherwise the promotion over
    typesFromScalars, which is unknown for an empty bucket. *)
Theorem InferExpectedScalarType_standard `{External} (g : Graph) (n : NodeId)
    (typesFromTensors typesFromScalars : list ScalarType) (output_tt : TensorType) :
  IsStandardOp (n_kind (getNode g n)) = true ->
  collect_types g n = Ok (typesFromTensors, typesFromScalars) ->
  n_outputs (getNode g n) = [TensorT output_tt] ->
  InferExpectedScalarType g n =
    Ok (if forallb (is_scalar_input g) (n_inputs (getNode g n)) then
          (PromoteScalarTypes typesFromScalars, [])
        else
          match scalarType output_tt, typesFromTensors with
          | Some output_st, _ => (Some output_st, [])
          | None, t0 :: others =>
              (Some t0,
               if existsb (fun type => bool_decide (type <> t0)) others
               then [WarnScalarTypesMismatch (n_kind (getNode g n)) t0]
               else [])
          | None, [] => (PromoteScalarTypes typesFromScalars, [])
          end)
  /\ PromoteScalarTypes [] = None
  /\ (forall t0 rest,
        PromoteScalarTypes (t0 :: rest) = Some (foldl promoteTypes t0 rest)).
Proof.
  intros Hstd Hc Hout. split; [|split; reflexivity].
  unfold InferExpectedScalarType. rewrite Hc. simpl.
  unfold Node_output. rewrite Hout. simpl.
  unfold Value_type. simpl. rewrite Hout. simpl.
  rewrite (IsStandardOp_not_comparison _ Hstd).
  rewrite (all_scalars_test _ _ _ _ Hc).
  destruct (forallb (is_scalar_input g) (n_inputs (getNode g n))); [reflexivity|].
  destruct (scalarType output_tt) as [o|]; [reflexivity|].
  destruct typesFromTensors as [|t0 others]; [reflexivity|].
  by rewrite existsb_differs_from_head.
Qed.

(** For a COMPARISON node the inferred type is the promotion over
    typesFromScalars followed by typesFromTensors. *)
Lemma InferExpectedScalarType_comparison `{External} (g : Graph) (n : NodeId)
    (typesFromTensors typesFromScalars : list ScalarType) (output_tt : TensorType) :
  IsComparisonOp (n_kind (getNode g n)) = true ->
  collect_types g n = Ok (typesFromTensors, typesFromScalars) ->
  n_outputs (getNode g n) = [TensorT output_tt] ->
  InferExpectedScalarType g n =
    Ok (PromoteScalarTypes (typesFromScalars ++ typesFromTensors), []).
Proof.
  intros Hcmp Hc Hout.
  unfold InferExpectedScalarType. rewrite Hc. simpl.
  unfold Node_output. rewrite Hout. simpl.
  unfold Value_type. simpl. rewrite Hout. simpl.
  by rewrite Hcmp.
Qed.

(** ** The store *)

Lemma getNode_set_node (g : Graph) (n m : NodeId) (nd : Node) :
  getNode (set_node g n nd) m = if decide (n = m) then nd else getNode g m.
Proof.
  unfold getNode, set_node; simpl.
  destruct (decide (n = m)) as [->|Hne].
  - by rewrite lookup_total_insert_eq.
  - by rewrite lookup_total_insert_ne.
Qed.

Lemma getNode_lookup (g : Graph) (n : NodeId) (nd : Node) :
  g_nodes g !! n = Some nd -> getNode g n = nd.
Proof. unfold getNode. intros Hn. by rewrite lookup_total_alt, Hn. Qed.

Lemma getNode_fresh (g : Graph) (n : NodeId) :
  g_nodes g !! n = None -> getNode g n = inhabitant.
Proof. unfold getNode. intros Hn. by rewrite lookup_total_alt, Hn. Qed.

Lemma fresh_node_None (g : Graph) : g_nodes g !! fresh (dom (g_nodes g)) = None.
Proof. apply not_elem_of_dom. apply is_fresh. Qed.

(** A node of a whitelisted kind is a node of the store. *)
Lemma supported_in_store (g : Graph) (n : NodeId) :
  IsImplicitCastSupported (n_kind (getNode g n)) = true ->
  is_Some (g_nodes g !! n).
Proof.
  intros Hs. destruct (g_nodes g !! n) as [nd|] eqn:Hn; [eauto|].
  rewrite (getNode_fresh _ _ Hn) in Hs. vm_compute in Hs. discriminate.
Qed.

Lemma getNode_insertBefore (g : Graph) (c n m : NodeId) :
  getNode (insertBefore g c n) m = getNode g m.
Proof. reflexivity. Qed.

Lemma getBlock_set_node (g : Graph) (n : NodeId) (nd : Node) (b : BlockId) :
  getBlock (set_node g n nd) b = getBlock g b.
Proof. reflexivity. Qed.

Ltac node_simpl :=
  repeat first
    [ rewrite getNode_insertBefore
    | rewrite getNode_set_node
    | rewrite getBlock_set_node
    | rewrite decide_True by done
    | rewrite decide_False by done
    | progress simpl ].

Lemma getBlock_insertBefore (g : Graph) (c n : NodeId) (b : BlockId) :
  getBlock (insertBefore g c n) b
  = mkBlock (insert_before c n (b_nodes (getBlock g b))) (b_return (getBlock g b)).
Proof.
  unfold getBlock, insertBefore; simpl.
  rewrite !lookup_total_alt, lookup_fmap.
  by destruct (g_blocks g !! b).
Qed.

Lemma insert_before_split (c n : NodeId) (l1 l2 : list NodeId) :
  n ∉ l1 -> insert_before c n (l1 ++ n :: l2) = l1 ++ c :: n :: l2.
Proof.
  induction l1 as [|x l1 IH]; simpl; intros Hn.
  - by rewrite decide_True.
  - rewrite decide_False by (intros ->; apply Hn; left).
    rewrite IH; [done|]. intros Hin; apply Hn; by right.
Qed.

Lemma insert_before_elem (c n x : NodeId) (l : list NodeId) :
  x ∈ insert_before c n l -> x = c \/ x ∈ l.
Proof.
  induction l as [|y l IH]; simpl; [auto|].
  destruct (decide (y = n)).
  - rewrite elem_of_cons. tauto.
  - rewrite !elem_of_cons. intros [->|Hx]; [auto|].
    destruct (IH Hx); auto.
Qed.

Lemma insert_before_keeps (c n x : NodeId) (l : list NodeId) :
  x ∈ l -> x ∈ insert_before c n l.
Proof.
  induction l as [|y l IH]; simpl; [auto|].
  destruct (decide (y = n)).
  - intros Hx. by right.
  - rewrite !elem_of_cons. intros [->|Hx]; auto.
Qed.

Lemma replace_value_lookup (from to : Value) (l : list Value) (i : nat) :
  l !! i = Some from -> (replace_value from to <$> l) !! i = Some to.
Proof.
  intros Hi. rewrite list_lookup_fmap, Hi. simpl.
  unfold replace_value. by rewrite decide_True.
Qed.

(** ** One turn of the loop over the inputs *)

Lemma Tensor_to_scalar_type `{External} (val : Tensor) (st : ScalarType) :
  scalar_type (Tensor_to val st) = st.
Proof. unfold Tensor_to. by destruct (decide (scalar_type val = st)). Qed.

Lemma Tensor_to_same `{External} (val : Tensor) :
  Tensor_to val (scalar_type val) = val.
Proof. unfold Tensor_to. by rewrite decide_True. Qed.

Lemma update_input_constant_eq `{External} (g : Graph) (n : NodeId)
    (st : ScalarType) (onnx_type : Z) (i : nat) (input : Value)
    (tens : TensorType) (val : Tensor) :
  is_Some (g_nodes g !! n) ->
  n_inputs (getNode g n) !! i = Some input ->
  Value_type g input = Some (TensorT tens) ->
  n_kind (getNode g (Value_node input)) = onnx_Constant ->
  n_attrs (getNode g (Value_node input)) !! attr_value = Some (AttrTensor val) ->
  update_input n st onnx_type g i
  = Ok (splice_before g n input
          (mkNode onnx_Constant [] [TensorT (TensorType_create (Tensor_to val st))]
                  {[ attr_value := AttrTensor (Tensor_to val st) ]} [])).
Proof.
  intros Hn Hi Hty Hk Hval.
  assert (Hc : fresh (dom (g_nodes g)) <> n).
  { intros <-. rewrite fresh_node_None in Hn. by destruct Hn. }
  unfold update_input, Node_input. rewrite Hi. simpl. rewrite Hty. simpl.
  rewrite Hk. rewrite bool_decide_eq_true_2 by done. simpl.
  unfold Node_t. rewrite Hval. simpl.
  unfold Node_output, Node_t_, set_attr, setType, replaceInputWith, splice_before.
  node_simpl.
  unfold set_node, insertBefore; simpl.
  f_equal. f_equal. rewrite !insert_insert_eq. rewrite insert_empty.
  reflexivity.
Qed.

Lemma update_input_cast_eq `{External} (g : Graph) (n : NodeId)
    (st : ScalarType) (onnx_type : Z) (i : nat) (input : Value)
    (tens : TensorType) (t : ScalarType) :
  is_Some (g_nodes g !! n) ->
  n_inputs (getNode g n) !! i = Some input ->
  Value_type g input = Some (TensorT tens) ->
  n_kind (getNode g (Value_node input)) <> onnx_Constant ->
  scalarType tens = Some t -> t <> st ->
  update_input n st onnx_type g i
  = Ok (splice_before g n input
          (mkNode onnx_Cast [input]
                  [TensorT (CreateProfiledTensorTypeWithScalarType tens st)]
                  {[ attr_to := AttrInt onnx_type ]} [])).
Proof.
  intros Hn Hi Hty Hk Hst Hne.
  assert (Hc : fresh (dom (g_nodes g)) <> n).
  { intros <-. rewrite fresh_node_None in Hn. by destruct Hn. }
  unfold update_input, Node_input. rewrite Hi. simpl. rewrite Hty. simpl.
  rewrite (bool_decide_eq_false_2 _ Hk). rewrite Hst.
  rewrite (bool_decide_eq_true_2 _ Hne). simpl.
  unfold Node_output, Node_i_, addInput, set_attr, setType, replaceInputWith,
    splice_before.
  node_simpl.
  unfold set_node, insertBefore; simpl.
  f_equal. f_equal. rewrite !insert_insert_eq. rewrite insert_empty.
  reflexivity.
Qed.

Lemma update_input_keep_eq `{External} (g : Graph) (n : NodeId)
    (st : ScalarType) (onnx_type : Z) (i : nat) (input : Value)
    (tens : TensorType) :
  n_inputs (getNode g n) !! i = Some input ->
  Value_type g input = Some (TensorT tens) ->
  n_kind (getNode g (Value_node input)) <> onnx_Constant ->
  scalarType tens = None \/ scalarType tens = Some st ->
  update_input n st onnx_type g i = Ok g.
Proof.
  intros Hi Hty Hk Hst.
  unfold update_input, Node_input. rewrite Hi. simpl. rewrite Hty. simpl.
  rewrite (bool_decide_eq_false_2 _ Hk).
  destruct Hst as [-> | ->]; simpl; [done|].
  by rewrite bool_decide_eq_false_2 by (intros Hne; by apply Hne).
Qed.

(** What [splice_before] leaves in the store. *)
Section splice.
Context (g : Graph) (n : NodeId) (input : Value) (nd : Node).
Context (Hn : is_Some (g_nodes g !! n)).
Let c := fresh (dom (g_nodes g)).
Let g' := splice_before g n input nd.

Lemma splice_fresh_ne : c <> n.
Proof.
  intros Heq. pose proof (fresh_node_None g) as Hf.
  fold c in Hf. rewrite Heq in Hf. rewrite Hf in Hn. by destruct Hn.
Qed.

Lemma splice_lookup_new : g_nodes g' !! c = Some nd.
Proof.
  subst g'; unfold splice_before; simpl.
  rewrite lookup_insert_ne by (apply not_eq_sym, splice_fresh_ne).
  apply lookup_insert_eq.
Qed.

Lemma splice_lookup_other (m : NodeId) :
  m <> n -> m <> c -> g_nodes g' !! m = g_nodes g !! m.
Proof.
  intros Hmn Hmc. subst g'; unfold splice_before; simpl.
  by rewrite !lookup_insert_ne by done.
Qed.

Lemma splice_getNode_consumer :
  getNode g' n =
    mkNode (n_kind (getNode g n))
           (replace_value input (mkValue c 0) <$> n_inputs (getNode g n))
           (n_outputs (getNode g n)) (n_attrs (getNode g n))
           (n_blocks (getNode g n)).
Proof.
  subst g'; unfold splice_before, getNode; simpl.
  by rewrite lookup_total_insert_eq.
Qed.

Lemma splice_getNode_new : getNode g' c = nd.
Proof. apply getNode_lookup, splice_lookup_new. Qed.

Lemma splice_getNode_other (m : NodeId) :
  m <> n -> m <> c -> getNode g' m = getNode g m.
Proof.
  intros Hmn Hmc. unfold getNode.
  by rewrite !lookup_total_alt, splice_lookup_other.
Qed.

Lemma splice_getBlock (b : BlockId) :
  getBlock g' b
  = mkBlock (insert_before c n (b_nodes (getBlock g b))) (b_return (getBlock g b)).
Proof.
  subst g'; unfold splice_before, getBlock; simpl.
  rewrite !lookup_total_alt, lookup_fmap.
  by destruct (g_blocks g !! b).
Qed.

Lemma splice_dom : dom (g_nodes g') = {[ c ]} ∪ dom (g_nodes g).
Proof.
  subst g'; unfold splice_before; simpl.
  rewrite !dom_insert_L.
  apply elem_of_dom in Hn. set_solver.
Qed.
End splice.

Lemma kind_in_store (g : Graph) (m : NodeId) :
  n_kind (getNode g m) <> OtherKind "" -> is_Some (g_nodes g !! m).
Proof.
  intros Hk. destruct (g_nodes g !! m) eqn:Hm; [eauto|].
  by rewrite (getNode_fresh _ _ Hm) in Hk.
Qed.

Lemma splice_keeps_producer (g : Graph) (n m : NodeId) (input : Value) (nd : Node) :
  is_Some (g_nodes g !! n) -> is_Some (g_nodes g !! m) ->
  is_Some (g_nodes (splice_before g n input nd) !! m)
  /\ n_kind (getNode (splice_before g n input nd) m) = n_kind (getNode g m)
  /\ n_outputs (getNode (splice_before g n input nd) m) = n_outputs (getNode g m)
  /\ n_attrs (getNode (splice_before g n input nd) m) = n_attrs (getNode g m)
  /\ n_blocks (getNode (splice_before g n input nd) m) = n_blocks (getNode g m).
Proof.
  intros Hn Hm.
  assert (Hmc : m <> fresh (dom (g_nodes g))).
  { intros ->. rewrite fresh_node_None in Hm. by destruct Hm. }
  destruct (decide (m = n)) as [->|Hmn].
  - rewrite splice_getNode_consumer by done. simpl. split; [|done].
    unfold splice_before; simpl. rewrite lookup_insert_eq. eauto.
  - rewrite splice_getNode_other, splice_lookup_other by done. done.
Qed.

(** ** One visit *)

Lemma supported_kind_cases (k : NodeKind) :
  IsImplicitCastSupported k = true ->
  negb (IsComparisonOp k) = IsStandardOp k.
Proof.
  intros Hsup. unfold IsImplicitCastSupported in Hsup.
  apply orb_true_iff in Hsup as [Hs|Hc].
  - fold (IsStandardOp k) in Hs.
    by rewrite Hs, (IsStandardOp_not_comparison k Hs).
  - fold (IsComparisonOp k) in Hc. rewrite Hc. simpl. symmetry.
    unfold IsStandardOp. apply bool_decide_eq_false_2.
    unfold IsComparisonOp in Hc. apply bool_decide_eq_true_1 in Hc.
    revert Hc. unfold standardOps, comparisonOps.
    rewrite !elem_of_union, !elem_of_singleton.
    intros Hc Hs. intuition congruence.
Qed.

(** Inference succeeds only on a node with a single, tensor-typed output. *)
Lemma InferExpectedScalarType_output `{External} (g : Graph) (n : NodeId)
    (r : option ScalarType * list Warning) :
  InferExpectedScalarType g n = Ok r ->
  exists output_tt, n_outputs (getNode g n) = [TensorT output_tt].
Proof.
  unfold InferExpectedScalarType. intros Hr. res_inv.
  unfold Node_output in E0.
  destruct (n_outputs (getNode g n)) as [|t [|? ?]] eqn:Hout; try discriminate.
  injection E0 as <-. unfold Value_type in E1. simpl in E1. rewrite Hout in E1.
  simpl in E1. destruct t; [eauto | discriminate].
Qed.

(** C8: when the inferred type has no wire-format code, the input rewriter
    writes one warning naming the type and the operator kind and returns the
    graph as it was, every input edge included; the visit does not fail, and
    for a STANDARD node it goes on to set the output annotation to the
    inferred type (for a COMPARISON node the graph is left unchanged). *)
Theorem unsupported_type_skips_inputs `{External} (s : PassState) (n : NodeId)
    (st : ScalarType) (w : list Warning) :
  ScalarTypeToONNXType st = (-1)%Z ->
  IsImplicitCastSupported (n_kind (getNode (ps_graph s) n)) = true ->
  InferExpectedScalarType (ps_graph s) n = Ok (Some st, w) ->
  let g := ps_graph s in
  let warning := WarnNotSupportedInONNX st (n_kind (getNode g n)) in
  UpdateScalarTypeForInputs g n st = Ok (g, [warning])
  /\ exists output_tt,
       n_outputs (getNode g n) = [TensorT output_tt]
       /\ visit_node s n
          = Ok (mkPassState
                  (if IsStandardOp (n_kind (getNode g n)) then
                     setType g (mkValue n 0)
                       (TensorT (withScalarType output_tt (Some st)))
                   else g)
                  (ps_cerr s ++ w ++ [warning])
                  (ps_inferred s ++ [(n, Some st)])).
Proof.
  intros Hcode Hsup Hinf. cbv zeta.
  assert (Hupd : UpdateScalarTypeForInputs (ps_graph s) n st
                 = Ok (ps_graph s,
                       [WarnNotSupportedInONNX st (n_kind (getNode (ps_graph s) n))])).
  { unfold UpdateScalarTypeForInputs. by rewrite Hcode. }
  split; [exact Hupd|].
  destruct (InferExpectedScalarType_output _ _ _ Hinf) as [output_tt Hout].
  exists output_tt. split; [exact Hout|].
  unfold visit_node. rewrite Hsup, Hinf. simpl. rewrite Hupd. simpl.
  rewrite (supported_kind_cases _ Hsup).
  destruct (IsStandardOp (n_kind (getNode (ps_graph s) n))); [|reflexivity].
  unfold UpdateScalarTypeForOutput, Node_output. rewrite Hout. simpl.
  unfold Value_type. simpl. rewrite Hout. reflexivity.
Qed.

(** ** The frame of the pass *)

Lemma same_or_tensor_refl (t : JitType) : same_or_tensor t t.
Proof. by left. Qed.

Lemma same_or_tensor_trans (t1 t2 t3 : JitType) :
  same_or_tensor t1 t2 -> same_or_tensor t2 t3 -> same_or_tensor t1 t3.
Proof.
  intros [->|(a & b & -> & ->)] [->|(c & d & Hc & ->)].
  - by left.
  - right; eauto.
  - right; eauto.
  - right; eauto.
Qed.

Lemma Forall2_same_or_tensor_refl (l : list JitType) : Forall2 same_or_tensor l l.
Proof. induction l; constructor; auto using same_or_tensor_refl. Qed.

Lemma Forall2_same_or_tensor_trans (l1 l2 l3 : list JitType) :
  Forall2 same_or_tensor l1 l2 -> Forall2 same_or_tensor l2 l3 ->
  Forall2 same_or_tensor l1 l3.
Proof.
  intros H12; revert l3; induction H12; intros l3 H23; inversion H23; subst;
    constructor; eauto using same_or_tensor_trans.
Qed.

Lemma Forall2_kept_refl (D D' : gset NodeId) (l : list Value) :
  Forall2 (kept_or_rewired D D') l l.
Proof. induction l; constructor; auto. by left. Qed.

Lemma Forall2_kept_trans (D1 D2 D3 : gset NodeId) (l1 l2 l3 : list Value) :
  D1 ⊆ D2 -> D2 ⊆ D3 ->
  Forall2 (kept_or_rewired D1 D2) l1 l2 ->
  Forall2 (kept_or_rewired D2 D3) l2 l3 ->
  Forall2 (kept_or_rewired D1 D3) l1 l3.
Proof.
  intros H12 H23 Ha; revert l3; induction Ha as [|v1 v2 l1 l2 Hv Ha IH];
    intros l3 Hb; inversion Hb as [|? v3 ? l3' Hv' Hb']; subst; constructor; auto.
  destruct Hv' as [->|(Ho & Hin & Hout)].
  - destruct Hv as [->|(Ho & Hin & Hout)]; [by left|].
    right. repeat split; auto.
  - right. repeat split; auto.
Qed.

Lemma node_evolves_refl (D D' : gset NodeId) (nd : Node) : node_evolves D D' nd nd.
Proof.
  constructor; auto using Forall2_same_or_tensor_refl, Forall2_kept_refl.
Qed.

Lemma node_evolves_trans (D1 D2 D3 : gset NodeId) (n1 n2 n3 : Node) :
  D1 ⊆ D2 -> D2 ⊆ D3 ->
  node_evolves D1 D2 n1 n2 -> node_evolves D2 D3 n2 n3 ->
  node_evolves D1 D3 n1 n3.
Proof.
  intros H12 H23 [k1 a1 b1 o1 ok1 i1 ik1] [k2 a2 b2 o2 ok2 i2 ik2].
  constructor.
  - congruence.
  - congruence.
  - congruence.
  - eauto using Forall2_same_or_tensor_trans.
  - intros Hs. rewrite ok2, ok1; auto. by rewrite k1.
  - eauto using Forall2_kept_trans.
  - intros Hs. rewrite ik2, ik1; auto. by rewrite k1.
Qed.

Lemma created_node_evolves (D D' : gset NodeId) (nd nd' : Node) :
  created_node nd -> node_evolves D D' nd nd' -> created_node nd'.
Proof.
  intros (Hb & (tens & Ho) & Hk) [k a b o ok i ik].
  split; [congruence|]. split.
  - rewrite ok; [eauto|].
    destruct Hk as [[-> _]| ->]; reflexivity.
  - rewrite k, a. exact Hk.
Qed.

Lemma evolves_dom (g g' : Graph) : evolves g g' -> dom (g_nodes g) ⊆ dom (g_nodes g').
Proof.
  intros Hev m [nd Hm]%elem_of_dom.
  destruct (ev_old _ _ Hev m nd Hm) as (nd' & Hm' & _).
  apply elem_of_dom; eauto.
Qed.

Lemma evolves_refl (g : Graph) : evolves g g.
Proof.
  constructor.
  - intros m nd Hm. exists nd. split; [done|]. apply node_evolves_refl.
  - intros m nd' Hn Hs. congruence.
  - auto.
  - reflexivity.
Qed.

Lemma evolves_trans (g1 g2 g3 : Graph) :
  evolves g1 g2 -> evolves g2 g3 -> evolves g1 g3.
Proof.
  intros H12 H23.
  pose proof (evolves_dom _ _ H12) as Hd12.
  pose proof (evolves_dom _ _ H23) as Hd23.
  constructor.
  - intros m nd Hm.
    destruct (ev_old _ _ H12 m nd Hm) as (nd2 & Hm2 & Hn2).
    destruct (ev_old _ _ H23 m nd2 Hm2) as (nd3 & Hm3 & Hn3).
    exists nd3. split; [done|]. eapply node_evolves_trans; eauto.
  - intros m nd3 Hm1 Hm3.
    destruct (g_nodes g2 !! m) as [nd2|] eqn:Hm2.
    + destruct (ev_old _ _ H23 m nd2 Hm2) as (nd3' & Hm3' & Hn3).
      assert (nd3' = nd3) as -> by congruence.
      eapply created_node_evolves; [|exact Hn3].
      exact (ev_new _ _ H12 m nd2 Hm1 Hm2).
    + exact (ev_new _ _ H23 m nd3 Hm2 Hm3).
  - intros b x Hx.
    destruct (ev_blocks _ _ H23 b x Hx) as [Hx2|[Hx2 Hx3]].
    + destruct (ev_blocks _ _ H12 b x Hx2) as [Hx1|[Hx1 [nd2 Hs2]]]; [by left|].
      right. split; [done|].
      destruct (ev_old _ _ H23 x nd2 Hs2) as (nd3 & Hm3 & _). eauto.
    + right. split; [|done].
      destruct (g_nodes g1 !! x) as [nd1|] eqn:Hx1; [|done].
      destruct (ev_old _ _ H12 x nd1 Hx1) as (nd2 & Hm2 & _). congruence.
  - rewrite (ev_block _ _ H23). apply (ev_block _ _ H12).
Qed.

(** The three ways a turn of the loop can end well. *)
Lemma update_input_inv `{External} (g g' : Graph) (n : NodeId)
    (st : ScalarType) (onnx_type : Z) (i : nat) :
  is_Some (g_nodes g !! n) ->
  update_input n st onnx_type g i = Ok g' ->
  exists input tens,
    n_inputs (getNode g n) !! i = Some input
    /\ Value_type g input = Some (TensorT tens)
    /\ ((n_kind (getNode g (Value_node input)) = onnx_Constant
         /\ exists val,
              n_attrs (getNode g (Value_node input)) !! attr_value
                = Some (AttrTensor val)
              /\ g' = splice_before g n input
                        (mkNode onnx_Constant []
                           [TensorT (TensorType_create (Tensor_to val st))]
                           {[ attr_value := AttrTensor (Tensor_to val st) ]} []))
        \/ (n_kind (getNode g (Value_node input)) <> onnx_Constant
            /\ exists t,
                 scalarType tens = Some t /\ t <> st
                 /\ g' = splice_before g n input
                           (mkNode onnx_Cast [input]
                              [TensorT (CreateProfiledTensorTypeWithScalarType tens st)]
                              {[ attr_to := AttrInt onnx_type ]} []))
        \/ (n_kind (getNode g (Value_node input)) <> onnx_Constant
            /\ (scalarType tens = None \/ scalarType tens = Some st)
            /\ g' = g)).
Proof.
  intros Hn Hu.
  destruct (n_inputs (getNode g n) !! i) as [input|] eqn:Hi.
  2:{ unfold update_input, Node_input in Hu. rewrite Hi in Hu. discriminate. }
  destruct (Value_type g input) as [[tens|?]|] eqn:Hty.
  2,3: unfold update_input, Node_input in Hu; rewrite Hi in Hu; simpl in Hu;
       rewrite Hty in Hu; discriminate.
  exists input, tens. split; [done|]. split; [done|].
  destruct (decide (n_kind (getNode g (Value_node input)) = onnx_Constant)) as [Hk|Hk].
  - left. split; [done|].
    destruct (n_attrs (getNode g (Value_node input)) !! attr_value)
      as [[val| |]|] eqn:Hval.
    + exists val. split; [done|].
      rewrite (update_input_constant_eq g n st onnx_type i input tens val) in Hu
        by done.
      by injection Hu.
    + unfold update_input, Node_input, Node_t in Hu. rewrite Hi in Hu.
      simpl in Hu. rewrite Hty in Hu. simpl in Hu.
      rewrite Hk, bool_decide_eq_true_2 in Hu by done. simpl in Hu.
      rewrite Hval in Hu. discriminate.
    + unfold update_input, Node_input, Node_t in Hu. rewrite Hi in Hu.
      simpl in Hu. rewrite Hty in Hu. simpl in Hu.
      rewrite Hk, bool_decide_eq_true_2 in Hu by done. simpl in Hu.
      rewrite Hval in Hu. discriminate.
    + unfold update_input, Node_input, Node_t in Hu. rewrite Hi in Hu.
      simpl in Hu. rewrite Hty in Hu. simpl in Hu.
      rewrite Hk, bool_decide_eq_true_2 in Hu by done. simpl in Hu.
      rewrite Hval in Hu. discriminate.
  - right.
    destruct (scalarType tens) as [t|] eqn:Hst.
    + destruct (decide (t = st)) as [->|Hne].
      * right. split; [done|]. split; [by right|].
        rewrite (update_input_keep_eq g n st onnx_type i input tens) in Hu
          by auto.
        by injection Hu.
      * left. split; [done|]. exists t. split; [done|]. split; [done|].
        rewrite (update_input_cast_eq g n st onnx_type i input tens t) in Hu
          by done.
        by injection Hu.
    + right. split; [done|]. split; [by left|].
      rewrite (update_input_keep_eq g n st onnx_type i input tens) in Hu
        by auto.
      by injection Hu.
Qed.

Lemma splice_evolves (g : Graph) (n : NodeId) (input : Value) (nd : Node) :
  is_Some (g_nodes g !! n) ->
  IsImplicitCastSupported (n_kind (getNode g n)) = true ->
  created_node nd ->
  evolves g (splice_before g n input nd).
Proof.
  intros Hn Hsup Hnd.
  pose proof (splice_fresh_ne g n Hn) as Hc.
  pose proof (splice_dom g n input nd Hn) as Hdom.
  constructor.
  - set (D' := dom (g_nodes (splice_before g n input nd))) in *.
    intros m ndm Hm.
    assert (Hmc : m <> fresh (dom (g_nodes g))).
    { intros ->. by rewrite fresh_node_None in Hm. }
    destruct (decide (m = n)) as [->|Hmn].
    + eexists. split.
      { unfold splice_before; simpl. apply lookup_insert_eq. }
      rewrite (getNode_lookup _ _ _ Hm).
      constructor; simpl; auto using Forall2_same_or_tensor_refl.
      * clear -Hdom. induction (n_inputs ndm) as [|v l IH]; constructor; auto.
        unfold replace_value. destruct (decide (v = input)); [|by left].
        right. simpl. split; [done|]. rewrite Hdom.
        split; [set_solver|apply is_fresh].
      * rewrite (getNode_lookup _ _ _ Hm) in Hsup. congruence.
    + exists ndm. split; [|apply node_evolves_refl].
      by rewrite splice_lookup_other.
  - intros m nd' Hm Hm'.
    destruct (decide (m = fresh (dom (g_nodes g)))) as [->|Hmc].
    + rewrite splice_lookup_new in Hm' by done. congruence.
    + destruct (decide (m = n)) as [->|Hmn].
      * destruct Hn as [? Hn]. congruence.
      * rewrite splice_lookup_other in Hm' by done. congruence.
  - intros b x Hx. rewrite splice_getBlock in Hx. simpl in Hx.
    apply insert_before_elem in Hx as [->|Hx]; [|by left].
    right. split; [apply fresh_node_None|].
    rewrite splice_lookup_new by done. eauto.
  - reflexivity.
Qed.

(** ** Induction over the traversal *)

Lemma foldlM_invariant {A B : Type} (P : A -> Prop) (f : A -> B -> Res A)
    (l : list B) (a a' : A) :
  (forall a x a', P a -> f a x = Ok a' -> P a') ->
  foldlM f a l = Ok a' -> P a -> P a'.
Proof.
  intros Hf. revert a. induction l as [|x l IH]; simpl; intros a Hl Ha.
  - by injection Hl as <-.
  - destruct (f a x) as [a1|] eqn:Hx; [|discriminate]. eauto.
Qed.

(** A property of the state that every visit and every call of the dead
    code elimination keep is kept by the traversal of a block. *)
Lemma ImplicitCastForONNX_invariant `{External} (P : PassState -> Prop) :
  (forall s it s', P s -> visit_node s it = Ok s' -> P s') ->
  (forall s block,
     P s ->
     P (mkPassState
          (EliminateDeadCode (ps_graph s) block true
             ALLOW_DELETING_NODES_WITH_SIDE_EFFECTS)
          (ps_cerr s) (ps_inferred s))) ->
  forall fuel s block s',
    ImplicitCastForONNX fuel s block = Ok s' -> P s -> P s'.
Proof.
  intros Hvisit Hdce. induction fuel as [|fuel IH]; intros s block s' Hrun Hs.
  - discriminate.
  - simpl in Hrun. apply bind_Ok in Hrun as (s1 & Hloop & Hret).
    injection Hret as <-. apply Hdce.
    revert Hloop Hs. apply foldlM_invariant.
    intros a it a' Ha Hit.
    apply bind_Ok in Hit as (a1 & Hsub & Hv).
    eapply Hvisit; [|exact Hv].
    revert Hsub Ha. apply foldlM_invariant.
    intros b sub b' Hb Hsubrun. eapply IH; eauto.
Qed.

(** ** The loop over the inputs *)

Lemma Value_type_in_store (g : Graph) (v : Value) (t : JitType) :
  Value_type g v = Some t -> is_Some (g_nodes g !! Value_node v).
Proof.
  unfold Value_type. intros Hv.
  destruct (g_nodes g !! Value_node v) eqn:Hn; [eauto|].
  rewrite (getNode_fresh _ _ Hn) in Hv. simpl in Hv.
  by rewrite lookup_nil in Hv.
Qed.

Lemma known_scalar_type_in_store (g : Graph) (v : Value) (t : ScalarType) :
  known_scalar_type g v = Some t -> is_Some (g_nodes g !! Value_node v).
Proof.
  unfold known_scalar_type. intros Hv.
  destruct (Value_type g v) as [ty|] eqn:Hty; [|discriminate].
  by eapply Value_type_in_store.
Qed.

Lemma splice_Value_type_old (g : Graph) (n : NodeId) (input v : Value) (nd : Node) :
  is_Some (g_nodes g !! n) ->
  is_Some (g_nodes g !! Value_node v) ->
  Value_type (splice_before g n input nd) v = Value_type g v.
Proof.
  intros Hn Hv. unfold Value_type.
  destruct (splice_keeps_producer g n (Value_node v) input nd Hn Hv)
    as (_ & _ & -> & _).
  reflexivity.
Qed.

Lemma input_settled_in_store (g : Graph) (st : ScalarType) (v : Value) :
  input_settled g st v -> is_Some (g_nodes g !! Value_node v).
Proof. intros [(tens & Hty & _) _]. by eapply Value_type_in_store. Qed.

Lemma input_settled_known (g : Graph) (st : ScalarType) (v : Value) (t : ScalarType) :
  input_settled g st v -> known_scalar_type g v = Some t -> t = st.
Proof.
  intros [(tens & Hty & Hst) _]. unfold known_scalar_type. rewrite Hty.
  destruct Hst; congruence.
Qed.

Lemma input_settled_store (g g' : Graph) (st : ScalarType) (v : Value) :
  g_nodes g' !! Value_node v = g_nodes g !! Value_node v ->
  input_settled g st v -> input_settled g' st v.
Proof.
  intros Heq. unfold input_settled, Value_type, getNode.
  by rewrite !lookup_total_alt, Heq.
Qed.

Lemma splice_settled_old (g : Graph) (n : NodeId) (input v : Value) (nd : Node)
    (st : ScalarType) :
  is_Some (g_nodes g !! n) ->
  IsImplicitCastSupported (n_kind (getNode g n)) = true ->
  input_settled g st v ->
  input_settled (splice_before g n input nd) st v.
Proof.
  intros Hn Hsup Hset.
  pose proof (input_settled_in_store _ _ _ Hset) as Hv.
  destruct (decide (Value_node v = n)) as [Heq|Hne].
  - destruct Hset as [Hty _]. split.
    + by rewrite splice_Value_type_old.
    + rewrite Heq, splice_getNode_consumer by done. simpl. intros Hk.
      rewrite Hk in Hsup. discriminate.
  - eapply input_settled_store; [|done].
    apply splice_lookup_other; [done|].
    intros Hc. rewrite Hc, fresh_node_None in Hv. by destruct Hv.
Qed.

Lemma splice_settled_new (g : Graph) (n : NodeId) (input : Value) (nd : Node)
    (st : ScalarType) (tens : TensorType) :
  is_Some (g_nodes g !! n) ->
  n_outputs nd = [TensorT tens] -> scalarType tens = Some st ->
  (n_kind nd = onnx_Constant ->
   exists val, scalar_type val = st /\ nd = constant_node val) ->
  input_settled (splice_before g n input nd) st (mkValue (fresh (dom (g_nodes g))) 0).
Proof.
  intros Hn Hout Hst Hconst. unfold input_settled, Value_type.
  cbn [Value_node Value_offset].
  rewrite splice_getNode_new by done. rewrite Hout. simpl. split; eauto.
Qed.

Lemma splice_frame (g : Graph) (n : NodeId) (input : Value) (nd : Node) :
  is_Some (g_nodes g !! n) -> frame n g (splice_before g n input nd).
Proof.
  intros Hn m ndm Hmn Hm.
  rewrite splice_lookup_other; [done|done|].
  intros ->. by rewrite fresh_node_None in Hm.
Qed.

Lemma frame_refl (n : NodeId) (g : Graph) : frame n g g.
Proof. by intros m nd _ Hm. Qed.

Lemma frame_trans (n : NodeId) (g1 g2 g3 : Graph) :
  frame n g1 g2 -> frame n g2 g3 -> frame n g1 g3.
Proof. intros H12 H23 m nd Hmn Hm. eauto. Qed.

(** What one turn of the loop does to the consumer and to the agreement of
    its inputs with the target type. *)
Lemma update_input_step `{External} (g g' : Graph) (n : NodeId)
    (st : ScalarType) (onnx_type : Z) (k : nat) :
  is_Some (g_nodes g !! n) ->
  IsImplicitCastSupported (n_kind (getNode g n)) = true ->
  update_input n st onnx_type g k = Ok g' ->
  evolves g g' /\ frame n g g'
  /\ is_Some (g_nodes g' !! n)
  /\ n_kind (getNode g' n) = n_kind (getNode g n)
  /\ n_outputs (getNode g' n) = n_outputs (getNode g n)
  /\ length (n_inputs (getNode g' n)) = length (n_inputs (getNode g n))
  /\ (forall j v', n_inputs (getNode g' n) !! j = Some v' ->
        exists v, n_inputs (getNode g n) !! j = Some v
                  /\ (input_settled g st v -> input_settled g' st v'))
  /\ (forall v', n_inputs (getNode g' n) !! k = Some v' -> input_settled g' st v').
Proof.
  intros Hn Hsup Hu.
  destruct (update_input_inv _ _ _ _ _ _ Hn Hu)
    as (input & tens & Hk & Hty & Hcases).
  assert (Hspl : forall nd tens',
            created_node nd -> n_outputs nd = [TensorT tens'] ->
            scalarType tens' = Some st ->
            (n_kind nd = onnx_Constant ->
             exists val, scalar_type val = st /\ nd = constant_node val) ->
            g' = splice_before g n input nd ->
            evolves g g' /\ frame n g g'
            /\ is_Some (g_nodes g' !! n)
            /\ n_kind (getNode g' n) = n_kind (getNode g n)
            /\ n_outputs (getNode g' n) = n_outputs (getNode g n)
            /\ length (n_inputs (getNode g' n)) = length (n_inputs (getNode g n))
            /\ (forall j v', n_inputs (getNode g' n) !! j = Some v' ->
                  exists v, n_inputs (getNode g n) !! j = Some v
                            /\ (input_settled g st v -> input_settled g' st v'))
            /\ (forall v', n_inputs (getNode g' n) !! k = Some v' ->
                  input_settled g' st v')).
  { intros nd tens' Hnd Hout Hst Hconst ->.
    split; [by apply splice_evolves|].
    split; [by apply splice_frame|].
    split; [by apply splice_keeps_producer|].
    rewrite splice_getNode_consumer by done. simpl.
    split; [done|]. split; [done|].
    split; [by rewrite length_fmap|].
    split.
    - intros j v' Hj. rewrite list_lookup_fmap in Hj.
      destruct (n_inputs (getNode g n) !! j) as [v|] eqn:Hv; [|discriminate].
      injection Hj as <-. exists v. split; [done|].
      unfold replace_value. destruct (decide (v = input)) as [->|Hne].
      + intros _. by eapply splice_settled_new.
      + by apply splice_settled_old.
    - intros v' Hv'. rewrite (replace_value_lookup _ _ _ _ Hk) in Hv'.
      injection Hv' as <-. by eapply splice_settled_new. }
  destruct Hcases as [(Hkind & val & Hval & Hg')
                     |[(Hkind & t & Ht & Hne & Hg')|(Hkind & Hst & ->)]].
  - eapply Hspl. 5: exact Hg'.
    + split; [done|]. split; [eauto|]. left. split; [done|].
      eexists. apply lookup_singleton_eq.
    + reflexivity.
    + simpl. by rewrite Tensor_to_scalar_type.
    + intros _. eexists. split; [apply Tensor_to_scalar_type|reflexivity].
  - eapply Hspl. 5: exact Hg'.
    + split; [done|]. split; [eauto|]. by right.
    + reflexivity.
    + reflexivity.
    + discriminate.
  - split; [apply evolves_refl|]. split; [apply frame_refl|].
    split; [done|]. split; [done|]. split; [done|]. split; [done|].
    split; [eauto|].
    intros v' Hv'. assert (v' = input) as -> by congruence.
    split; [eauto|]. done.
Qed.

Lemma update_loop `{External} (n : NodeId) (st : ScalarType) (onnx_type : Z)
    (m : nat) :
  forall (k : nat) (g g1 : Graph),
    is_Some (g_nodes g !! n) ->
    IsImplicitCastSupported (n_kind (getNode g n)) = true ->
    foldlM (update_input n st onnx_type) g (seq k m) = Ok g1 ->
    (forall j v, j < k -> n_inputs (getNode g n) !! j = Some v ->
                 input_settled g st v) ->
    evolves g g1 /\ frame n g g1
    /\ is_Some (g_nodes g1 !! n)
    /\ n_kind (getNode g1 n) = n_kind (getNode g n)
    /\ n_outputs (getNode g1 n) = n_outputs (getNode g n)
    /\ length (n_inputs (getNode g1 n)) = length (n_inputs (getNode g n))
    /\ (forall j v, j < k + m -> n_inputs (getNode g1 n) !! j = Some v ->
                    input_settled g1 st v).
Proof.
  induction m as [|m IH]; intros k g g1 Hn Hsup Hloop Hbefore.
  - injection Hloop as <-.
    split; [apply evolves_refl|]. split; [apply frame_refl|].
    repeat (split; [done|]).
    intros j v Hj. apply Hbefore. lia.
  - simpl in Hloop.
    destruct (update_input n st onnx_type g k) as [g'|] eqn:Hstep; [|discriminate].
    destruct (update_input_step _ _ _ _ _ _ Hn Hsup Hstep)
      as (Hev & Hfr & Hn' & Hkind & Hout & Hlen & Hkeep & Hnew).
    destruct (IH (S k) g' g1) as (Hev1 & Hfr1 & Hn1 & Hkind1 & Hout1 & Hlen1 & Hall).
    + done.
    + by rewrite Hkind.
    + done.
    + intros j v' Hj Hv'.
      destruct (decide (j = k)) as [->|Hjk]; [by apply Hnew|].
      destruct (Hkeep j v' Hv') as (v & Hv & Himp).
      apply Himp, (Hbefore j); [lia|done].
    + split; [by eapply evolves_trans|]. split; [by eapply frame_trans|].
      split; [done|]. split; [congruence|]. split; [congruence|].
      split; [congruence|].
      intros j v Hj. apply Hall. lia.
Qed.

Lemma supported_code (st : ScalarType) :
  (ScalarTypeToONNXType st <? 0)%Z = false <-> ScalarTypeToONNXType st <> (-1)%Z.
Proof. destruct st; vm_compute; split; congruence. Qed.

(** The rewriting of the inputs of a whitelisted node [n]: no other node of
    the store changes, and when the target type has a wire-format code every
    input of [n] ends up agreeing with it. *)
Lemma UpdateScalarTypeForInputs_spec `{External} (g g1 : Graph) (n : NodeId)
    (st : ScalarType) (w : list Warning) :
  is_Some (g_nodes g !! n) ->
  IsImplicitCastSupported (n_kind (getNode g n)) = true ->
  UpdateScalarTypeForInputs g n st = Ok (g1, w) ->
  evolves g g1 /\ frame n g g1
  /\ is_Some (g_nodes g1 !! n)
  /\ n_kind (getNode g1 n) = n_kind (getNode g n)
  /\ n_outputs (getNode g1 n) = n_outputs (getNode g n)
  /\ (ScalarTypeToONNXType st <> (-1)%Z ->
      Forall (input_settled g1 st) (n_inputs (getNode g1 n))).
Proof.
  intros Hn Hsup Hu. unfold UpdateScalarTypeForInputs in Hu.
  destruct (ScalarTypeToONNXType st <? 0)%Z eqn:Hcode.
  - injection Hu as <- <-.
    split; [apply evolves_refl|]. split; [apply frame_refl|].
    repeat (split; [done|]).
    intros Hne. apply supported_code in Hne. congruence.
  - apply bind_Ok in Hu as (g' & Hloop & Hret). injection Hret as -> <-.
    destruct (update_loop n st _ _ 0 g g1 Hn Hsup Hloop)
      as (Hev & Hfr & Hn1 & Hkind & Hout & Hlen & Hall).
    { intros j v Hj. lia. }
    repeat (split; [done|]).
    intros _. apply Forall_lookup. intros j v Hv. apply (Hall j); [|done].
    apply lookup_lt_Some in Hv. simpl. lia.
Qed.

Lemma UpdateScalarTypeForOutput_spec (g g2 : Graph) (n : NodeId) (st : ScalarType) :
  is_Some (g_nodes g !! n) ->
  IsStandardOp (n_kind (getNode g n)) = true ->
  UpdateScalarTypeForOutput g n st = Ok g2 ->
  exists tens,
    n_outputs (getNode g n) = [TensorT tens]
    /\ g2 = setType g (mkValue n 0) (TensorT (withScalarType tens (Some st)))
    /\ evolves g g2 /\ frame n g g2
    /\ n_inputs (getNode g2 n) = n_inputs (getNode g n)
    /\ n_kind (getNode g2 n) = n_kind (getNode g n)
    /\ (forall v, input_settled g st v -> input_settled g2 st v).
Proof.
  intros Hn Hstd Hu. unfold UpdateScalarTypeForOutput, Node_output in Hu.
  destruct (n_outputs (getNode g n)) as [|ty [|? ?]] eqn:Hout; try discriminate.
  simpl in Hu. unfold Value_type in Hu. simpl in Hu. rewrite Hout in Hu.
  simpl in Hu. destruct ty as [tens|]; [|discriminate].
  simpl in Hu. injection Hu as <-.
  exists tens. split; [done|]. split; [done|].
  destruct Hn as [nd Hnd]. pose proof (getNode_lookup _ _ _ Hnd) as Hget.
  assert (Hlook : forall m, g_nodes (setType g (mkValue n 0)
                     (TensorT (CreateProfiledTensorTypeWithScalarType tens st))) !! m
                  = if decide (n = m)
                    then Some (mkNode (n_kind nd) (n_inputs nd)
                                 [TensorT (withScalarType tens (Some st))]
                                 (n_attrs nd) (n_blocks nd))
                    else g_nodes g !! m).
  { intros m. unfold setType, set_node. simpl. rewrite Hget.
    rewrite Hget in Hout. rewrite Hout. simpl.
    destruct (decide (n = m)) as [->|Hne].
    - by rewrite lookup_insert_eq.
    - by rewrite lookup_insert_ne. }
  rewrite Hget in Hout, Hstd.
  split; [|split; [|split; [|split]]].
  - constructor.
    + intros m ndm Hm. rewrite Hlook.
      destruct (decide (n = m)) as [->|Hne]; [|exists ndm; split;
        [done|apply node_evolves_refl]].
      assert (ndm = nd) as -> by congruence.
      eexists. split; [done|].
      constructor; simpl; auto using Forall2_kept_refl.
      * rewrite Hout. constructor; [|constructor]. right. eauto.
      * congruence.
    + intros m nd' Hm Hm'. rewrite Hlook in Hm'.
      destruct (decide (n = m)) as [->|Hne]; congruence.
    + intros b x Hx. by left.
    + reflexivity.
  - intros m ndm Hmn Hm. rewrite Hlook. by rewrite decide_False.
  - unfold setType. rewrite getNode_set_node. rewrite decide_True by done.
    simpl. by rewrite Hget.
  - unfold setType. rewrite getNode_set_node. rewrite decide_True by done.
    simpl. by rewrite Hget.
  - intros v [(tv & Htv & Hsv) Hconst].
    unfold input_settled, Value_type, getNode in *.
    rewrite lookup_total_alt, Hlook.
    rewrite lookup_total_alt in Htv, Hconst.
    destruct (decide (n = Value_node v)) as [Heq|Hne]; [|eauto].
    simpl. rewrite <- Heq, Hnd in Htv. simpl in Htv. rewrite Hout in Htv.
    split.
    + destruct (Value_offset v) as [|off]; simpl in *; [eauto|discriminate].
    + intros Hk. rewrite Hk in Hstd. discriminate.
Qed.

(** ** One visit, as a whole *)

Lemma visit_node_spec `{External} (s s' : PassState) (it : NodeId) :
  visit_node s it = Ok s' ->
  evolves (ps_graph s) (ps_graph s') /\ frame it (ps_graph s) (ps_graph s')
  /\ ((ps_graph s' = ps_graph s /\ ps_inferred s' = ps_inferred s
       /\ IsImplicitCastSupported (n_kind (getNode (ps_graph s) it)) = false)
      \/ exists r w,
           ps_inferred s' = ps_inferred s ++ [(it, r)]
           /\ IsImplicitCastSupported (n_kind (getNode (ps_graph s) it)) = true
           /\ is_Some (g_nodes (ps_graph s) !! it)
           /\ InferExpectedScalarType (ps_graph s) it = Ok (r, w)
           /\ (r = None -> ps_graph s' = ps_graph s)
           /\ (forall st, r = Some st ->
                 ScalarTypeToONNXType st <> (-1)%Z ->
                 Forall (input_settled (ps_graph s') st)
                        (n_inputs (getNode (ps_graph s') it)))).
Proof.
  unfold visit_node. intros Hv.
  destruct (IsImplicitCastSupported (n_kind (getNode (ps_graph s) it))) eqn:Hsup.
  2:{ injection Hv as <-. split; [apply evolves_refl|].
      split; [apply frame_refl|]. by left. }
  pose proof (supported_in_store _ _ Hsup) as Hin.
  apply bind_Ok in Hv as ([inferred w] & Hinf & Hv). simpl in Hv.
  destruct inferred as [st|].
  2:{ injection Hv as <-. simpl. split; [apply evolves_refl|].
      split; [apply frame_refl|]. right. exists None, w.
      repeat (split; [done|]). by intros st [=]. }
  apply bind_Ok in Hv as ([g1 w1] & Hupd & Hv). simpl in Hv.
  apply bind_Ok in Hv as (g2 & Hout & Hv). injection Hv as <-. simpl.
  destruct (UpdateScalarTypeForInputs_spec _ _ _ _ _ Hin Hsup Hupd)
    as (Hev1 & Hfr1 & Hin1 & Hkind1 & Hout1 & Hall1).
  rewrite Hkind1, (supported_kind_cases _ Hsup) in Hout.
  destruct (IsStandardOp (n_kind (getNode (ps_graph s) it))) eqn:Hstd.
  - destruct (UpdateScalarTypeForOutput_spec g1 g2 it st Hin1) as
      (tens & Hty & Hg2 & Hev2 & Hfr2 & Hinputs2 & Hkind2 & Hkeep); [congruence|done|].
    split; [by eapply evolves_trans|]. split; [by eapply frame_trans|].
    right. exists (Some st), w. repeat (split; [done|]).
    intros st' [= <-] Hcode. rewrite Hinputs2.
    eapply Forall_impl; [apply Hall1, Hcode|]. exact Hkeep.
  - injection Hout as <-.
    split; [done|]. split; [done|].
    right. exists (Some st), w. repeat (split; [done|]).
    intros st' [= <-]. done.
Qed.

(** ** The agreement of the inputs with the inferred type *)

Lemma def_before_use_lookup (g : Graph) (order : list NodeId) (i j : nat)
    (n m : NodeId) :
  def_before_use g order -> i < j ->
  order !! i = Some n -> order !! j = Some m ->
  n <> m /\ forall v, v ∈ n_inputs (getNode g n) -> Value_node v <> m.
Proof.
  revert i j. induction order as [|x order IH]; intros i j Hd Hij Hi Hj;
    [by rewrite lookup_nil in Hi|].
  destruct Hd as (Hx & Hin & Hrest).
  destruct j as [|j]; [lia|]. simpl in Hj.
  assert (m ∈ order) by (eapply list_elem_of_lookup_2; eauto).
  destruct i as [|i]; simpl in Hi.
  - injection Hi as ->. split; [by intros ->|].
    intros v Hv Heq. apply (Hin v Hv). by rewrite Heq.
  - apply (IH i j); auto. lia.
Qed.

Lemma evolves_kind (g g' : Graph) (n : NodeId) :
  evolves g g' -> n_kind (getNode g n) <> OtherKind "" ->
  n_kind (getNode g' n) = n_kind (getNode g n).
Proof.
  intros Hev Hk. destruct (kind_in_store _ _ Hk) as [nd Hn].
  destruct (ev_old _ _ Hev n nd Hn) as (nd' & Hn' & Hne).
  rewrite (getNode_lookup _ _ _ Hn), (getNode_lookup _ _ _ Hn').
  apply (ne_kind _ _ _ _ Hne).
Qed.

Lemma supported_kind_not_default (k : NodeKind) :
  IsImplicitCastSupported k = true -> k <> OtherKind "".
Proof. intros Hs ->. vm_compute in Hs. discriminate. Qed.

Lemma created_node_unsupported (nd : Node) :
  created_node nd -> IsImplicitCastSupported (n_kind nd) = false.
Proof. intros (_ & _ & [[-> _]| ->]); reflexivity. Qed.

(** A whitelisted node met during the pass is a node of the first graph. *)
Lemma supported_is_old (g0 g : Graph) (n : NodeId) :
  evolves g0 g ->
  IsImplicitCastSupported (n_kind (getNode g n)) = true ->
  is_Some (g_nodes g0 !! n).
Proof.
  intros Hev Hsup. destruct (g_nodes g0 !! n) as [nd0|] eqn:H0; [eauto|].
  destruct (supported_in_store _ _ Hsup) as [nd Hnd].
  pose proof (ev_new _ _ Hev n nd H0 Hnd) as Hcr.
  apply created_node_unsupported in Hcr.
  rewrite (getNode_lookup _ _ _ Hnd) in Hsup. congruence.
Qed.

Lemma agreed_visit `{External} (g0 : Graph) (s s' : PassState) (it : NodeId) :
  agreed g0 (ps_graph s) (ps_inferred s) ->
  visit_node s it = Ok s' ->
  agreed g0 (ps_graph s') (ps_inferred s').
Proof.
  intros [Hev0 Hinv] Hv.
  destruct (visit_node_spec _ _ _ Hv) as (Hev & Hfr & Hcases).
  split; [by eapply evolves_trans|].
  destruct Hcases as [(Hg & Htr & _)|(r & w & Htr & Hsup & Hin & _ & _ & Hall)].
  { rewrite Hg, Htr. exact Hinv. }
  rewrite Htr. intros i n rn Hi.
  apply lookup_app_Some in Hi as [Hi|[Hlen Hi]].
  - destruct (Hinv i n rn Hi) as (Hn0 & Hsupn & Hcode).
    assert (Hnin : is_Some (g_nodes (ps_graph s) !! n))
      by (by apply supported_in_store).
    split; [done|]. split.
    { rewrite (evolves_kind _ _ _ Hev); [done|].
      by apply supported_kind_not_default. }
    intros st Hrn Hc.
    destruct (decide (n = it)) as [->|Hne].
    { left. exists (length (ps_inferred s)), r. split.
      - by apply lookup_lt_Some in Hi.
      - rewrite lookup_app_r by lia. by rewrite Nat.sub_diag. }
    destruct (Hcode st Hrn Hc) as [(j & r' & Hij & Hj)|Hforall].
    { left. exists j, r'. split; [done|]. by apply lookup_app_l_Some. }
    right. destruct Hnin as [nd Hnd].
    rewrite (getNode_lookup _ _ _ (Hfr n nd Hne Hnd)).
    rewrite (getNode_lookup _ _ _ Hnd) in Hforall.
    eapply Forall_impl; [exact Hforall|]. intros v [Hset|(j & r' & Hij & Hj)].
    + destruct (decide (Value_node v = it)) as [Hvit|Hvit].
      * right. exists (length (ps_inferred s)), r. split.
        -- by apply lookup_lt_Some in Hi.
        -- rewrite lookup_app_r by lia. rewrite Nat.sub_diag. simpl. by rewrite Hvit.
      * left. eapply input_settled_store; [|exact Hset].
        destruct (input_settled_in_store _ _ _ Hset) as [ndv Hndv].
        rewrite Hndv. by apply Hfr.
    + right. exists j, r'. split; [done|]. by apply lookup_app_l_Some.
  - apply list_lookup_singleton_Some in Hi as [Hi0 [= <- <-]].
    split; [by eapply supported_is_old|].
    split.
    { rewrite (evolves_kind _ _ _ Hev); [done|].
      by apply supported_kind_not_default. }
    intros st Hr Hc. right. eapply Forall_impl; [by apply Hall|]. by left.
Qed.

Lemma dce_evolves `{E : External} `{!DCELaws E} (g : Graph) (b : BlockId)
    (recurse : bool) (policy : DCESideEffectPolicy) :
  evolves g (EliminateDeadCode g b recurse policy).
Proof.
  constructor.
  - intros m nd Hm. exists nd. rewrite dce_nodes. split; [done|].
    apply node_evolves_refl.
  - intros m nd'. rewrite dce_nodes. congruence.
  - intros b' x Hx. left. by eapply dce_blocks.
  - apply dce_block.
Qed.

Lemma getNode_dce `{E : External} `{!DCELaws E} (g : Graph) (b : BlockId)
    (recurse : bool) (policy : DCESideEffectPolicy) (m : NodeId) :
  getNode (EliminateDeadCode g b recurse policy) m = getNode g m.
Proof. unfold getNode. by rewrite dce_nodes. Qed.

Lemma agreed_dce `{E : External} `{!DCELaws E} (g0 g : Graph)
    (tr : list (NodeId * option ScalarType)) (b : BlockId)
    (recurse : bool) (policy : DCESideEffectPolicy) :
  agreed g0 g tr -> agreed g0 (EliminateDeadCode g b recurse policy) tr.
Proof.
  intros [Hev Hinv]. split; [eapply evolves_trans; [done|apply dce_evolves]|].
  intros i n r Hi. destruct (Hinv i n r Hi) as (Hn0 & Hsup & Hcode).
  rewrite getNode_dce. split; [done|]. split; [done|].
  intros st Hr Hc. destruct (Hcode st Hr Hc) as [Hl|Hfa]; [by left|right].
  eapply Forall_impl; [exact Hfa|]. intros v [Hset|Hesc]; [left|by right].
  eapply input_settled_store; [|exact Hset]. by rewrite dce_nodes.
Qed.

Lemma agreed_pass `{E : External} `{!DCELaws E} (fuel : nat) (g : Graph)
    (s' : PassState) :
  ScalarTypeAnalysisForONNX fuel g = Ok s' ->
  agreed g (ps_graph s') (ps_inferred s').
Proof.
  unfold ScalarTypeAnalysisForONNX. intros Hrun.
  eapply (ImplicitCastForONNX_invariant
            (fun s => agreed g (ps_graph s) (ps_inferred s))); [| |exact Hrun|].
  - intros s it s1. apply agreed_visit.
  - intros s block Hs. simpl. by apply agreed_dce.
  - simpl. split; [apply evolves_refl|]. intros i n st Hi.
    by rewrite lookup_nil in Hi.
Qed.

(** ** The output annotation of a COMPARISON node *)

Lemma IsComparisonOp_not_standard (k : NodeKind) :
  IsComparisonOp k = true -> IsStandardOp k = false.
Proof.
  intros Hc. destruct (IsStandardOp k) eqn:Hs; [|done].
  apply IsStandardOp_not_comparison in Hs. congruence.
Qed.

(** C3: for a COMPARISON node the inferred type is the promotion over
    typesFromScalars followed by typesFromTensors: unknown when both are
    empty, and otherwise the left fold of [promoteTypes] over the elements
    that follow the first, started from the first; no warning is written.
    The pass leaves the node in the store with its kind and its output
    annotations as they were. *)
Theorem comparison_promotes_and_keeps_output `{E : External} `{!DCELaws E}
    (g : Graph) (n : NodeId) (nd : Node) :
  g_nodes g !! n = Some nd ->
  IsComparisonOp (n_kind nd) = true ->
  (forall typesFromTensors typesFromScalars output_tt,
     collect_types g n = Ok (typesFromTensors, typesFromScalars) ->
     n_outputs nd = [TensorT output_tt] ->
     InferExpectedScalarType g n
     = Ok (match typesFromScalars ++ typesFromTensors with
           | [] => None
           | t0 :: rest => Some (foldl promoteTypes t0 rest)
           end, []))
  /\ (forall fuel s',
        ScalarTypeAnalysisForONNX fuel g = Ok s' ->
        exists nd', g_nodes (ps_graph s') !! n = Some nd'
                    /\ n_kind nd' = n_kind nd
                    /\ n_outputs nd' = n_outputs nd).
Proof.
  intros Hn Hcmp. split.
  - intros ts ss output_tt Hc Hout.
    change (InferExpectedScalarType g n = Ok (PromoteScalarTypes (ss ++ ts), [])).
    eapply InferExpectedScalarType_comparison; eauto;
      by rewrite (getNode_lookup _ _ _ Hn).
  - intros fuel s' Hrun.
    destruct (agreed_pass _ _ _ Hrun) as [Hev _].
    destruct (ev_old _ _ Hev n nd Hn) as (nd' & Hn' & Hne).
    exists nd'. split; [done|]. split; [apply (ne_kind _ _ _ _ Hne)|].
    apply (ne_outputs_keep _ _ _ _ Hne). by apply IsComparisonOp_not_standard.
Qed.

(** ** Totality *)

Lemma input_ok_inv (g : Graph) (v : Value) :
  input_ok g v = true ->
  (exists tens, Value_type g v = Some (TensorT tens))
  /\ (n_kind (getNode g (Value_node v)) = onnx_Constant ->
      exists t, n_attrs (getNode g (Value_node v)) !! attr_value = Some (AttrTensor t))
  /\ (n_kind (getNode g (Value_node v)) = onnx_Gather ->
      exists in0, n_inputs (getNode g (Value_node v)) !! 0 = Some in0).
Proof.
  unfold input_ok, input_typed, is_tensor_typed, is_constant, has_tensor_value,
    gather_has_operand.
  intros [[Hty Hc]%andb_true_iff Hg]%andb_true_iff.
  split; [|split].
  - destruct (Value_type g v) as [[tens|]|]; try discriminate. eauto.
  - intros Hk. rewrite bool_decide_eq_true_2 in Hc by done.
    destruct (n_attrs (getNode g (Value_node v)) !! attr_value) as [[t| |]|];
      try discriminate. eauto.
  - intros Hk. rewrite decide_True in Hg by done.
    apply bool_decide_eq_true_1 in Hg.
    destruct (n_inputs (getNode g (Value_node v))) as [|in0 ?]; [done|].
    exists in0. reflexivity.
Qed.

Lemma classify_input_total (g : Graph) (acc : list ScalarType * list ScalarType)
    (v : Value) :
  input_ok g v = true -> exists r, classify_input g acc v = Ok r.
Proof.
  intros ([tens Hty] & Hc & Hg)%input_ok_inv.
  unfold classify_input, Node_input, Node_t. cbv zeta.
  destruct (decide (n_kind (getNode g (Value_node v)) = onnx_Gather)) as [Hk|Hk].
  - destruct (Hg Hk) as [in0 ->]. simpl.
    destruct (bool_decide _); [eauto|].
    destruct (decide (n_kind (getNode g (Value_node v)) = onnx_Constant)) as [Hk'|Hk'];
      [congruence|].
    rewrite Hty. simpl. destruct (scalarType tens); eauto.
  - simpl.
    destruct (decide (n_kind (getNode g (Value_node v)) = onnx_Constant)) as [Hk'|Hk'].
    + destruct (Hc Hk') as [t ->]. simpl. eauto.
    + rewrite Hty. simpl. destruct (scalarType tens); eauto.
Qed.

Lemma foldlM_classify_total (g : Graph) (l : list Value)
    (acc : list ScalarType * list ScalarType) :
  forallb (input_ok g) l = true ->
  exists r, foldlM (classify_input g) acc l = Ok r.
Proof.
  revert acc. induction l as [|v l IH]; intros acc; simpl; [eauto|].
  intros [Hv Hl]%andb_true_iff.
  destruct (classify_input_total g acc v Hv) as [r ->]. by apply IH.
Qed.

Lemma InferExpectedScalarType_total `{External} (g : Graph) (n : NodeId) :
  single_tensor_output (getNode g n) = true ->
  forallb (input_ok g) (n_inputs (getNode g n)) = true ->
  exists r, InferExpectedScalarType g n = Ok r.
Proof.
  intros Hout Hins. unfold InferExpectedScalarType, collect_types.
  destruct (foldlM_classify_total g _ ([], []) Hins) as [r ->]. simpl.
  unfold single_tensor_output in Hout. unfold Node_output, Value_type.
  destruct (n_outputs (getNode g n)) as [|[tens|] [|? ?]] eqn:Ho; try discriminate.
  simpl. rewrite Ho. simpl.
  destruct (IsComparisonOp _); [eauto|].
  destruct (_ =? _); [eauto|].
  destruct (scalarType tens); [eauto|].
  destruct r.1; eauto.
Qed.

Lemma evolves_getNode_blocks (g g' : Graph) (x : NodeId) :
  evolves g g' -> n_blocks (getNode g' x) = n_blocks (getNode g x).
Proof.
  intros Hev. destruct (g_nodes g !! x) as [nd|] eqn:Hx.
  - destruct (ev_old _ _ Hev x nd Hx) as (nd' & Hx' & Hne).
    rewrite (getNode_lookup _ _ _ Hx), (getNode_lookup _ _ _ Hx').
    apply (ne_blocks _ _ _ _ Hne).
  - rewrite (getNode_fresh _ _ Hx). simpl.
    destruct (g_nodes g' !! x) as [nd'|] eqn:Hx'.
    + rewrite (getNode_lookup _ _ _ Hx').
      by destruct (ev_new _ _ Hev x nd' Hx Hx') as (Hb & _).
    + by rewrite (getNode_fresh _ _ Hx').
Qed.

Lemma input_ok_evolves (g g' : Graph) (v : Value) :
  evolves g g' -> input_ok g v = true -> input_ok g' v = true.
Proof.
  intros Hev Hok.
  pose proof Hok as ([tens Hty] & _)%input_ok_inv.
  destruct (Value_type_in_store _ _ _ Hty) as [nd Hnd].
  destruct (ev_old _ _ Hev _ nd Hnd) as (nd' & Hnd' & Hne).
  revert Hok.
  unfold input_ok, input_typed, is_tensor_typed, is_constant, has_tensor_value,
    gather_has_operand, Value_type.
  rewrite (getNode_lookup _ _ _ Hnd), (getNode_lookup _ _ _ Hnd').
  rewrite (ne_kind _ _ _ _ Hne), (ne_attrs _ _ _ _ Hne).
  intros [[Ht Hc]%andb_true_iff Hg]%andb_true_iff.
  apply andb_true_iff. split; [apply andb_true_iff; split|]; [|done|].
  - pose proof (ne_outputs _ _ _ _ Hne) as Hout.
    destruct (n_outputs nd !! Value_offset v) as [[t|]|] eqn:Ho; try discriminate.
    destruct (Forall2_lookup_l _ _ _ _ _ Hout Ho) as (t' & -> & Hsame).
    destruct Hsame as [->|(? & ? & _ & ->)]; done.
  - destruct (decide (n_kind nd = onnx_Gather)) as [Hk|Hk]; [|done].
    rewrite (ne_inputs_keep _ _ _ _ Hne); [done|]. by rewrite Hk.
Qed.

Lemma created_output_ok (g : Graph) (v : Value) (nd : Node) :
  g_nodes g !! Value_node v = Some nd -> Value_offset v = 0 ->
  created_node nd -> input_ok g v = true.
Proof.
  intros Hnd Hoff (_ & [tens Hout] & Hk).
  unfold input_ok, input_typed, is_tensor_typed, is_constant, has_tensor_value,
    gather_has_operand, Value_type.
  rewrite (getNode_lookup _ _ _ Hnd), Hoff, Hout. simpl.
  destruct Hk as [[-> [t ->]]| ->]; reflexivity.
Qed.

Lemma whitelisted_nodes_ok_evolves (g g' : Graph) :
  evolves g g' ->
  whitelisted_nodes_ok input_ok g -> whitelisted_nodes_ok input_ok g'.
Proof.
  intros Hev Hok m nd' Hm' Hsup.
  destruct (g_nodes g !! m) as [nd|] eqn:Hm.
  2:{ pose proof (ev_new _ _ Hev m nd' Hm Hm') as Hcr.
      apply created_node_unsupported in Hcr. congruence. }
  destruct (ev_old _ _ Hev m nd Hm) as (nd'' & Hm'' & Hne).
  assert (nd'' = nd') as -> by congruence.
  destruct (Hok m nd Hm) as [Hout Hins].
  { by rewrite <- (ne_kind _ _ _ _ Hne). }
  split.
  - unfold single_tensor_output in *.
    pose proof (ne_outputs _ _ _ _ Hne) as Ho.
    destruct (n_outputs nd) as [|[tens|] [|? ?]]; try discriminate.
    inversion Ho as [|? t' ? l' Hsame Hnil]; subst. inversion Hnil; subst.
    destruct Hsame as [->|(? & ? & _ & ->)]; done.
  - apply forallb_forall. intros v' Hv'%list_elem_of_In.
    apply list_elem_of_lookup in Hv' as [k Hk].
    destruct (Forall2_lookup_r _ _ _ _ _ (ne_inputs _ _ _ _ Hne) Hk)
      as (v & Hv & [->|(Hoff & Hin & Hnew)]).
    + eapply input_ok_evolves; [done|].
      rewrite forallb_forall in Hins. apply Hins, list_elem_of_In.
      by eapply list_elem_of_lookup_2.
    + apply elem_of_dom in Hin as [ndv Hndv].
      eapply created_output_ok; [done|done|].
      eapply (ev_new _ _ Hev); [|done]. by apply not_elem_of_dom.
Qed.

Lemma update_input_total `{External} (g : Graph) (n : NodeId) (st : ScalarType)
    (onnx_type : Z) (k : nat) (input : Value) :
  is_Some (g_nodes g !! n) ->
  n_inputs (getNode g n) !! k = Some input ->
  input_ok g input = true ->
  exists g', update_input n st onnx_type g k = Ok g'.
Proof.
  intros Hn Hk ([tens Hty] & Hc & _)%input_ok_inv.
  destruct (decide (n_kind (getNode g (Value_node input)) = onnx_Constant)) as [Hkind|Hkind].
  - destruct (Hc Hkind) as [val Hval]. eexists.
    by eapply update_input_constant_eq.
  - destruct (scalarType tens) as [t|] eqn:Hst.
    + destruct (decide (t = st)) as [->|Hne].
      * exists g. eapply update_input_keep_eq; eauto.
      * eexists. by eapply update_input_cast_eq.
    + exists g. eapply update_input_keep_eq; eauto.
Qed.

Lemma whitelisted_node_inputs_ok (g : Graph) (n : NodeId) :
  whitelisted_nodes_ok input_ok g ->
  IsImplicitCastSupported (n_kind (getNode g n)) = true ->
  single_tensor_output (getNode g n) = true
  /\ forallb (input_ok g) (n_inputs (getNode g n)) = true.
Proof.
  intros Hok Hsup. destruct (supported_in_store _ _ Hsup) as [nd Hnd].
  rewrite (getNode_lookup _ _ _ Hnd) in *. by apply (Hok n nd Hnd).
Qed.

Lemma update_loop_total `{External} (n : NodeId) (st : ScalarType) (onnx_type : Z)
    (m : nat) :
  forall (k : nat) (g : Graph),
    IsImplicitCastSupported (n_kind (getNode g n)) = true ->
    whitelisted_nodes_ok input_ok g ->
    k + m <= length (n_inputs (getNode g n)) ->
    exists g1, foldlM (update_input n st onnx_type) g (seq k m) = Ok g1.
Proof.
  induction m as [|m IH]; intros k g Hsup Hok Hlen; simpl; [eauto|].
  pose proof (supported_in_store _ _ Hsup) as Hn.
  destruct (lookup_lt_is_Some_2 (n_inputs (getNode g n)) k) as [input Hk]; [lia|].
  destruct (whitelisted_node_inputs_ok _ _ Hok Hsup) as [_ Hins].
  rewrite forallb_forall in Hins.
  assert (Hin : input_ok g input = true).
  { apply Hins, list_elem_of_In. by eapply list_elem_of_lookup_2. }
  destruct (update_input_total g n st onnx_type k input Hn Hk Hin) as [g' Hstep].
  rewrite Hstep.
  destruct (update_input_step _ _ _ _ _ _ Hn Hsup Hstep)
    as (Hev & _ & _ & Hkind & _ & Hlen' & _).
  apply IH.
  - by rewrite Hkind.
  - by eapply whitelisted_nodes_ok_evolves.
  - rewrite Hlen'. lia.
Qed.

Lemma visit_node_total `{External} (s : PassState) (it : NodeId) :
  whitelisted_nodes_ok input_ok (ps_graph s) ->
  exists s', visit_node s it = Ok s'.
Proof.
  intros Hok. unfold visit_node.
  destruct (IsImplicitCastSupported (n_kind (getNode (ps_graph s) it))) eqn:Hsup;
    [|eauto].
  pose proof (supported_in_store _ _ Hsup) as Hn.
  destruct (whitelisted_node_inputs_ok _ _ Hok Hsup) as [Hout Hins].
  destruct (InferExpectedScalarType_total (ps_graph s) it Hout Hins) as [[[st|] w] ->];
    simpl; [|eauto].
  assert (Hupd : exists r, UpdateScalarTypeForInputs (ps_graph s) it st = Ok r).
  { unfold UpdateScalarTypeForInputs.
    destruct (_ <? _)%Z; [eauto|].
    destruct (update_loop_total it st (ScalarTypeToONNXType st)
                (length (n_inputs (getNode (ps_graph s) it))) 0 (ps_graph s))
      as [g1 ->]; [done|done|lia|]. simpl. eauto. }
  destruct Hupd as [[g1 w1] Hupd]. rewrite Hupd. simpl.
  destruct (UpdateScalarTypeForInputs_spec _ _ _ _ _ Hn Hsup Hupd)
    as (_ & _ & _ & Hkind1 & Hout1 & _).
  destruct (negb _); simpl; [|eauto].
  unfold UpdateScalarTypeForOutput, Node_output, Value_type. rewrite Hout1.
  unfold single_tensor_output in Hout.
  destruct (n_outputs (getNode (ps_graph s) it)) as [|[tens|] [|? ?]] eqn:Ho;
    try discriminate.
  simpl. rewrite Hout1. simpl. eauto.
Qed.

Lemma nesting_below_evolves (depth : nat) :
  forall (g g' : Graph) (b : BlockId),
    evolves g g' -> nesting_below depth g b = true ->
    nesting_below depth g' b = true.
Proof.
  induction depth as [|depth IH]; intros g g' b Hev; simpl; [done|].
  rewrite !forallb_forall. intros Hb x Hx%list_elem_of_In.
  rewrite (evolves_getNode_blocks _ _ _ Hev).
  destruct (ev_blocks _ _ Hev b x Hx) as [Hold|[Hnew _]].
  - apply forallb_forall. intros sb Hsb. eapply IH; [done|].
    apply list_elem_of_In, Hb in Hold. rewrite forallb_forall in Hold. by apply Hold.
  - by rewrite (getNode_fresh _ _ Hnew).
Qed.

(** With fuel above the depth of the nesting, the traversal of a block of a
    graph that meets the needs of the pass returns. *)
Lemma ImplicitCastForONNX_total `{E : External} `{!DCELaws E} (fuel : nat) :
  forall (s : PassState) (block : BlockId),
    whitelisted_nodes_ok input_ok (ps_graph s) ->
    nesting_below fuel (ps_graph s) block = true ->
    exists s', ImplicitCastForONNX fuel s block = Ok s'
               /\ evolves (ps_graph s) (ps_graph s').
Proof.
  induction fuel as [|fuel IH]; intros s block Hok Hnest; [discriminate|].
  simpl in Hnest. simpl.
  assert (Hsubs : forall (subs : list BlockId) (s0 : PassState),
            whitelisted_nodes_ok input_ok (ps_graph s0) ->
            forallb (nesting_below fuel (ps_graph s0)) subs = true ->
            exists s1, foldlM (ImplicitCastForONNX fuel) s0 subs = Ok s1
                       /\ evolves (ps_graph s0) (ps_graph s1)).
  { induction subs as [|sub subs IHs]; intros s0 Hok0 Hn0; simpl.
    - eexists. split; [done|apply evolves_refl].
    - simpl in Hn0. apply andb_true_iff in Hn0 as [Hsub Hrest].
      destruct (IH s0 sub Hok0 Hsub) as (s1 & -> & Hev1).
      destruct (IHs s1) as (s2 & -> & Hev2).
      + by eapply whitelisted_nodes_ok_evolves.
      + apply forallb_forall. intros sb Hsb.
        eapply nesting_below_evolves; [done|].
        rewrite forallb_forall in Hrest. by apply Hrest.
      + eexists. split; [done|]. by eapply evolves_trans. }
  assert (Hnodes : forall (l : list NodeId) (s0 : PassState),
            whitelisted_nodes_ok input_ok (ps_graph s0) ->
            forallb (fun x => forallb (nesting_below fuel (ps_graph s0))
                                      (n_blocks (getNode (ps_graph s0) x))) l = true ->
            exists s1,
              foldlM (fun s it =>
                        s1 ← foldlM (ImplicitCastForONNX fuel) s
                               (n_blocks (getNode (ps_graph s) it));
                        visit_node s1 it) s0 l = Ok s1
              /\ evolves (ps_graph s0) (ps_graph s1)).
  { induction l as [|x l IHl]; intros s0 Hok0 Hn0; simpl.
    - eexists. split; [done|apply evolves_refl].
    - simpl in Hn0. apply andb_true_iff in Hn0 as [Hx Hrest].
      destruct (Hsubs _ s0 Hok0 Hx) as (s1 & -> & Hev1). simpl.
      assert (Hok1 : whitelisted_nodes_ok input_ok (ps_graph s1))
        by (by eapply whitelisted_nodes_ok_evolves).
      destruct (visit_node_total s1 x Hok1) as [s2 Hv]. rewrite Hv.
      destruct (visit_node_spec _ _ _ Hv) as (Hev2 & _).
      assert (Hev02 : evolves (ps_graph s0) (ps_graph s2))
        by (by eapply evolves_trans).
      destruct (IHl s2) as (s3 & -> & Hev3).
      + by eapply whitelisted_nodes_ok_evolves.
      + apply forallb_forall. intros y Hy.
        rewrite (evolves_getNode_blocks _ _ _ Hev02).
        rewrite forallb_forall in Hrest. specialize (Hrest y Hy).
        apply forallb_forall. intros sb Hsb.
        eapply nesting_below_evolves; [done|].
        rewrite forallb_forall in Hrest. by apply Hrest.
      + eexists. split; [done|]. by eapply evolves_trans. }
  destruct (Hnodes _ s Hok Hnest) as (s1 & -> & Hev). simpl.
  eexists. split; [done|]. simpl.
  eapply evolves_trans; [done|apply dce_evolves].
Qed.

(** C10, as the code has it: the pass returns on every graph in which each
    whitelisted node has a single tensor-typed output and tensor-typed
    inputs, each Constant feeding such a node carries a tensor attribute
    "value", and each Gather feeding such a node has a first operand (the
    fuel being above the depth of the nesting); the precondition is needed:
    on Add(x, IntTensor) with x not tensor-typed the pass dereferences a null
    [TensorType]. *)
Theorem pass_total `{E : External} `{!DCELaws E} (fuel : nat) (g : Graph) :
  whitelisted_nodes_ok input_ok g ->
  nesting_below fuel g (g_block g) = true ->
  (exists s', ScalarTypeAnalysisForONNX fuel g = Ok s')
  /\ ScalarTypeAnalysisForONNX 1 g_add_untyped = Fail NullTensorType.
Proof.
  intros Hok Hnest. split; [|reflexivity].
  unfold ScalarTypeAnalysisForONNX.
  destruct (ImplicitCastForONNX_total fuel (mkPassState g [] []) (g_block g))
    as (s' & Hrun & _); eauto.
Qed.

(** ** The sample dead code elimination meets the contract *)

Lemma getBlock_unlink (g : Graph) (b b' : BlockId) (n : NodeId) :
  getBlock (unlink g b n) b'
  = if decide (b = b')
    then mkBlock (filter (fun x => x <> n) (b_nodes (getBlock g b)))
                 (b_return (getBlock g b))
    else getBlock g b'.
Proof.
  unfold getBlock, unlink; simpl.
  destruct (decide (b = b')) as [->|Hne].
  - by rewrite lookup_total_insert_eq.
  - by rewrite lookup_total_insert_ne.
Qed.

Lemma sample_dce_spec (g : Graph) (b : BlockId) (l : list NodeId) :
  let g' := foldr (fun n g => if node_dead g n then unlink g b n else g) g l in
  g_nodes g' = g_nodes g
  /\ (forall b' x, x ∈ b_nodes (getBlock g' b') -> x ∈ b_nodes (getBlock g b'))
  /\ g_block g' = g_block g.
Proof.
  induction l as [|n l IH]; simpl; [done|].
  destruct IH as (Hn & Hb & Hblock).
  destruct (node_dead _ n); [|done].
  split; [done|]. split; [|done].
  intros b' x. rewrite getBlock_unlink.
  destruct (decide (b = b')) as [->|Hne]; [|apply Hb].
  simpl. intros [_ Hx]%list_elem_of_filter. by apply Hb.
Qed.

Global Instance sample_dce_laws : DCELaws sample_external.
Proof.
  constructor; intros; simpl in *; unfold sample_dce in *.
  - apply sample_dce_spec.
  - eapply sample_dce_spec; eauto.
  - apply sample_dce_spec.
Qed.

(** ** The theorems at sample graphs *)

(** The claim of C1 fails when the inferred type has no wire-format code:
    on Add(BFloat16Tensor, FloatTensor) the pass infers BFloat16 and leaves
    the Float input, which no Cast produces, as it is. *)
Lemma unsupported_inferred_type_leaves_mismatch :
  exists s',
    ScalarTypeAnalysisForONNX (H := sample_external) 1 g_add_bfloat_float = Ok s'
    /\ def_before_use g_add_bfloat_float (ps_inferred s').*1
    /\ (1, Some kBFloat16) ∈ ps_inferred s'
    /\ IsStandardOp (n_kind (getNode (ps_graph s') 1)) = true
    /\ mkValue 0 1 ∈ n_inputs (getNode (ps_graph s') 1)
    /\ known_scalar_type (ps_graph s') (mkValue 0 1) = Some kFloat
    /\ n_kind (getNode (ps_graph s') 0) = OtherKind "prim::Param".
Proof.
  eexists. split; [vm_compute; reflexivity|].
  split.
  { simpl. split; [apply not_elem_of_nil|].
    split; [|exact I]. intros v _. apply not_elem_of_nil. }
  split; [apply list_elem_of_singleton; reflexivity|].
  split; [vm_compute; reflexivity|].
  split; [|split; vm_compute; reflexivity].
  apply list_elem_of_In. vm_compute. auto.
Qed.

Lemma InferExpectedScalarType_standard_witness :
  InferExpectedScalarType (H := sample_external) g_add_float_int 1
  = Ok (Some kFloat, [WarnScalarTypesMismatch onnx_Add kFloat]).
Proof.
  destruct (InferExpectedScalarType_standard (H := sample_external)
              g_add_float_int 1 [kFloat; kInt] [] (mkTensorType None None))
    as (Hinf & _); [reflexivity|reflexivity|reflexivity|].
  rewrite Hinf. reflexivity.
Defined.

Lemma comparison_promotes_and_keeps_output_witness :
  InferExpectedScalarType (H := sample_external) g_greater_const_double 2
  = Ok (Some kDouble, [])
  /\ exists s' nd',
       ScalarTypeAnalysisForONNX (H := sample_external) 1 g_greater_const_double
       = Ok s'
       /\ g_nodes (ps_graph s') !! 2 = Some nd'
       /\ n_kind nd' = onnx_Greater
       /\ n_outputs nd' = [tensor_of (Some kBool)].
Proof.
  destruct (comparison_promotes_and_keeps_output (E := sample_external)
              g_greater_const_double 2
              (op_node onnx_Greater [mkValue 1 0; mkValue 0 0] (Some kBool)))
    as [Hinf Hkeep]; [reflexivity|reflexivity|].
  split.
  - rewrite (Hinf [kDouble] [kFloat] (mkTensorType (Some kBool) None));
      reflexivity.
  - destruct (ScalarTypeAnalysisForONNX (H := sample_external) 1
                g_greater_const_double) as [s'|] eqn:Hrun;
      [|vm_compute in Hrun; discriminate].
    destruct (Hkeep 1 s' Hrun) as (nd' & Hnd' & Hk & Ho).
    exists s', nd'. auto.
Defined.

Lemma unsupported_type_skips_inputs_witness :
  UpdateScalarTypeForInputs (H := sample_external) g_add_bfloat_float 1 kBFloat16
  = Ok (g_add_bfloat_float, [WarnNotSupportedInONNX kBFloat16 onnx_Add])
  /\ exists output_tt,
       n_outputs (getNode g_add_bfloat_float 1) = [TensorT output_tt]
       /\ visit_node (H := sample_external)
            (mkPassState g_add_bfloat_float [] []) 1
          = Ok (mkPassState
                  (setType g_add_bfloat_float (mkValue 1 0)
                     (TensorT (withScalarType output_tt (Some kBFloat16))))
                  [WarnScalarTypesMismatch onnx_Add kBFloat16;
                   WarnNotSupportedInONNX kBFloat16 onnx_Add]
                  [(1, Some kBFloat16)]).
Proof.
  apply (unsupported_type_skips_inputs (H := sample_external)
           (mkPassState g_add_bfloat_float [] []) 1 kBFloat16
           [WarnScalarTypesMismatch onnx_Add kBFloat16]);
    reflexivity.
Defined.

Lemma pass_total_witness :
  (exists s',
     ScalarTypeAnalysisForONNX (H := sample_external) 1 g_mul_float_const = Ok s')
  /\ ScalarTypeAnalysisForONNX (H := sample_external) 1 g_add_untyped
     = Fail NullTensorType.
Proof.
  apply (pass_total (E := sample_external) 1 g_mul_float_const).
  - unfold whitelisted_nodes_ok. apply (bool_decide_unpack _). vm_compute. exact I.
  - reflexivity.
Defined.

(** The claim of C10 fails on Add(Gather(), IntTensor): every input and the
    output of the Add carry a [TensorType] and no Constant is involved, yet
    reading the first operand of the Gather fails. *)
Lemma gather_without_operand_fails :
  whitelisted_nodes_ok input_typed g_gather_no_operand
  /\ nesting_below 1 g_gather_no_operand (g_block g_gather_no_operand) = true
  /\ ScalarTypeAnalysisForONNX (H := sample_external) 1 g_gather_no_operand
     = Fail IndexOutOfRange.
Proof.
  split; [|split; reflexivity].
  unfold whitelisted_nodes_ok. apply (bool_decide_unpack _). vm_compute. exact I.
Qed.

(** ** Promotion as a join *)

Section promotion.
Context `{E : External} `{!PromoteLaws E}.

Lemma promote_le_refl (a : ScalarType) : promote_le a a.
Proof. apply promote_idem. Qed.

Lemma promote_le_trans (a b c : ScalarType) :
  promote_le a b -> promote_le b c -> promote_le a c.
Proof.
  unfold promote_le. intros Hab Hbc.
  rewrite <- Hbc. rewrite promote_assoc. by rewrite Hab.
Qed.

Lemma promote_le_antisym (a b : ScalarType) :
  promote_le a b -> promote_le b a -> a = b.
Proof. unfold promote_le. intros Hab Hba. rewrite <- Hba, promote_comm. done. Qed.

Lemma promote_le_l (a b : ScalarType) : promote_le a (promoteTypes a b).
Proof. unfold promote_le. by rewrite promote_assoc, promote_idem. Qed.

Lemma promote_le_r (a b : ScalarType) : promote_le b (promoteTypes a b).
Proof. rewrite promote_comm. apply promote_le_l. Qed.

Lemma promote_le_lub (a b c : ScalarType) :
  promote_le a c -> promote_le b c -> promote_le (promoteTypes a b) c.
Proof.
  unfold promote_le. intros Ha Hb. by rewrite <- promote_assoc, Hb, Ha.
Qed.

Lemma foldl_promote_upper (l : list ScalarType) :
  forall a, promote_le a (foldl promoteTypes a l)
            /\ forall x, x ∈ l -> promote_le x (foldl promoteTypes a l).
Proof.
  induction l as [|y l IH]; intros a; simpl.
  - split; [apply promote_le_refl|]. intros x Hx. by apply not_elem_of_nil in Hx.
  - destruct (IH (promoteTypes a y)) as [Ha Hl]. split.
    + eapply promote_le_trans; [apply promote_le_l|exact Ha].
    + intros x [->|Hx]%elem_of_cons; [|by apply Hl].
      eapply promote_le_trans; [apply promote_le_r|exact Ha].
Qed.

Lemma foldl_promote_least (l : list ScalarType) :
  forall a c, promote_le a c -> (forall x, x ∈ l -> promote_le x c) ->
              promote_le (foldl promoteTypes a l) c.
Proof.
  induction l as [|y l IH]; intros a c Ha Hl; simpl; [done|].
  apply IH.
  - apply promote_le_lub; [done|]. apply Hl. by left.
  - intros x Hx. apply Hl. by right.
Qed.

Lemma PromoteScalarTypes_upper (l : list ScalarType) (st x : ScalarType) :
  PromoteScalarTypes l = Some st -> x ∈ l -> promote_le x st.
Proof.
  destruct l as [|a l]; [discriminate|]. simpl. intros [= <-].
  destruct (foldl_promote_upper l a) as [Ha Hl].
  intros [->|Hx]%elem_of_cons; auto.
Qed.

Lemma PromoteScalarTypes_least (l : list ScalarType) (st c : ScalarType) :
  PromoteScalarTypes l = Some st -> (forall x, x ∈ l -> promote_le x c) ->
  promote_le st c.
Proof.
  destruct l as [|a l]; [discriminate|]. simpl. intros [= <-] Hl.
  apply foldl_promote_least.
  - apply Hl. by left.
  - intros x Hx. apply Hl. by right.
Qed.

(** The promotion over a list depends on the members of the list only: a
    list made of members of [l] and of the promotion of [l] itself, which
    holds that promotion or every member of [l], promotes to the same type. *)
Lemma PromoteScalarTypes_stable (l l' : list ScalarType) (st : ScalarType) :
  PromoteScalarTypes l = Some st ->
  l' <> [] ->
  (forall x, x ∈ l' -> x = st \/ x ∈ l) ->
  (st ∈ l' \/ forall x, x ∈ l -> x ∈ l') ->
  PromoteScalarTypes l' = Some st.
Proof.
  intros Hl Hne Hin Hcov.
  destruct (PromoteScalarTypes l') as [st'|] eqn:Hl';
    [|by destruct l'].
  f_equal. apply promote_le_antisym.
  - eapply PromoteScalarTypes_least; [exact Hl'|].
    intros x [->|Hx]%Hin; [apply promote_le_refl|].
    by eapply PromoteScalarTypes_upper.
  - destruct Hcov as [Hst|Hall].
    + by eapply PromoteScalarTypes_upper.
    + eapply PromoteScalarTypes_least; [exact Hl|].
      intros x Hx. eapply PromoteScalarTypes_upper; [exact Hl'|]. by apply Hall.
Qed.

End promotion.

(** ** What inference reads of a graph *)

Lemma classify_input_view (g g' : Graph)
    (acc : list ScalarType * list ScalarType) (v : Value) :
  view_kept g g' (Value_node v) -> shape_kept g g' ->
  classify_input g' acc v = classify_input g acc v.
Proof.
  intros (Hk & Ha & Ho & Hrec) Hshape.
  unfold classify_input, Node_input, Node_t, Value_type. cbv zeta.
  rewrite Hk, Ha, Ho.
  destruct (decide (n_kind (getNode g (Value_node v)) = onnx_Gather)) as [Hg|Hg];
    [|reflexivity].
  rewrite Hrec by (by rewrite Hg).
  destruct (n_inputs (getNode g (Value_node v)) !! 0) as [in0|]; [|reflexivity].
  simpl.
  rewrite (bool_decide_ext _ _ (Hshape (Value_node in0))). reflexivity.
Qed.

Lemma foldlM_ext_in {A B : Type} (f f' : A -> B -> Res A) (l : list B) (a : A) :
  (forall a x, x ∈ l -> f' a x = f a x) -> foldlM f' a l = foldlM f a l.
Proof.
  revert a. induction l as [|x l IH]; intros a Hf; simpl; [reflexivity|].
  rewrite Hf by (by left). destruct (f a x); [|reflexivity].
  apply IH. intros a' y Hy. apply Hf. by right.
Qed.

Lemma InferExpectedScalarType_view `{External} (g g' : Graph) (n : NodeId) :
  getNode g' n = getNode g n ->
  (forall v, v ∈ n_inputs (getNode g n) -> view_kept g g' (Value_node v)) ->
  shape_kept g g' ->
  InferExpectedScalarType g' n = InferExpectedScalarType g n.
Proof.
  intros Hn Hviews Hshape.
  unfold InferExpectedScalarType, collect_types, Node_output, Value_type.
  cbv zeta. rewrite Hn.
  rewrite (foldlM_ext_in (classify_input g) (classify_input g'));
    [|intros a x Hx; apply classify_input_view; auto].
  destruct (foldlM _ _ _) as [buckets|]; [|reflexivity]. simpl.
  destruct (n_outputs (getNode g n)) as [|ty [|? ?]]; try reflexivity.
  simpl. by rewrite Hn.
Qed.

Lemma input_settled_view (g g' : Graph) (st : ScalarType) (v : Value) :
  view_kept g g' (Value_node v) ->
  input_settled g st v -> input_settled g' st v.
Proof.
  intros (Hk & Ha & Ho & Hrec) [Hty Hconst].
  unfold input_settled, Value_type in *. rewrite Hk, Ho. split; [done|].
  intros Hc. rewrite Hrec by (by rewrite Hc). auto.
Qed.

Lemma settled_as_view `{External} (g g' : Graph) (n : NodeId)
    (r : option ScalarType) :
  getNode g' n = getNode g n ->
  (forall v, v ∈ n_inputs (getNode g n) -> view_kept g g' (Value_node v)) ->
  shape_kept g g' ->
  settled_as g n r -> settled_as g' n r.
Proof.
  intros Hn Hviews Hshape (Hsup & Hinf & Hrest).
  unfold settled_as.
  rewrite Hn, (InferExpectedScalarType_view g g' n) by done.
  split; [done|]. split; [done|].
  intros st Hr. destruct (Hrest st Hr) as [Hins Hout]. split; [|done].
  intros Hc. specialize (Hins Hc). rewrite Forall_forall in *.
  intros v Hv. eapply input_settled_view; eauto.
Qed.

Lemma evolves_shape_kept (g g' : Graph) : evolves g g' -> shape_kept g g'.
Proof.
  intros Hev q. destruct (g_nodes g !! q) as [nd|] eqn:Hq.
  - destruct (ev_old _ _ Hev q nd Hq) as (nd' & Hq' & Hne).
    rewrite (getNode_lookup _ _ _ Hq), (getNode_lookup _ _ _ Hq').
    by rewrite (ne_kind _ _ _ _ Hne).
  - rewrite (getNode_fresh _ _ Hq).
    destruct (g_nodes g' !! q) as [nd'|] eqn:Hq'.
    + rewrite (getNode_lookup _ _ _ Hq').
      destruct (ev_new _ _ Hev q nd' Hq Hq') as (_ & _ & [[-> _]| ->]);
        split; discriminate.
    + by rewrite (getNode_fresh _ _ Hq').
Qed.

Lemma view_kept_same (g g' : Graph) (p : NodeId) :
  g_nodes g' !! p = g_nodes g !! p -> view_kept g g' p.
Proof.
  intros Heq. unfold view_kept, getNode. by rewrite !lookup_total_alt, Heq.
Qed.

(** The inputs of a node on which the classification succeeds are outputs
    of nodes of the store. *)
Lemma classify_input_in_store (g : Graph)
    (acc r : list ScalarType * list ScalarType) (v : Value) :
  classify_input g acc v = Ok r -> is_Some (g_nodes g !! Value_node v).
Proof.
  intros Hc. destruct (g_nodes g !! Value_node v) as [nd|] eqn:Hv; [eauto|].
  unfold classify_input, Value_type in Hc. cbv zeta in Hc.
  rewrite (getNode_fresh _ _ Hv) in Hc. simpl in Hc. discriminate.
Qed.

Lemma foldlM_classify_in_store (g : Graph) (l : list Value)
    (acc r : list ScalarType * list ScalarType) :
  foldlM (classify_input g) acc l = Ok r ->
  forall v, v ∈ l -> is_Some (g_nodes g !! Value_node v).
Proof.
  revert acc. induction l as [|x l IH]; intros acc Hl v Hv;
    [by apply not_elem_of_nil in Hv|].
  simpl in Hl. destruct (classify_input g acc x) as [acc'|] eqn:Hx; [|discriminate].
  apply elem_of_cons in Hv as [->|Hv]; [by eapply classify_input_in_store|].
  by eapply IH.
Qed.

Lemma InferExpectedScalarType_in_store `{External} (g : Graph) (n : NodeId)
    (r : option ScalarType * list Warning) :
  InferExpectedScalarType g n = Ok r ->
  forall v, v ∈ n_inputs (getNode g n) -> is_Some (g_nodes g !! Value_node v).
Proof.
  unfold InferExpectedScalarType, collect_types. intros Hr.
  apply bind_Ok in Hr as (buckets & Hc & _).
  by eapply foldlM_classify_in_store.
Qed.

Lemma contributions_view (g g' : Graph) (v : Value) :
  view_kept g g' (Value_node v) -> shape_kept g g' ->
  is_scalar_input g' v = is_scalar_input g v
  /\ scalar_contribution g' v = scalar_contribution g v
  /\ tensor_contribution g' v = tensor_contribution g v.
Proof.
  intros (Hk & Ha & Ho & Hrec) Hshape.
  assert (Hsg : is_shape_gather g' v = is_shape_gather g v).
  { unfold is_shape_gather. rewrite Hk.
    destruct (decide (n_kind (getNode g (Value_node v)) = onnx_Gather)) as [Hg|Hg].
    - rewrite Hrec by (by rewrite Hg).
      destruct (n_inputs (getNode g (Value_node v)) !! 0) as [in0|]; [|done].
      by rewrite (bool_decide_ext _ _ (Hshape (Value_node in0))).
    - by rewrite (bool_decide_eq_false_2 _ Hg). }
  assert (Hc : is_constant g' v = is_constant g v).
  { unfold is_constant. by rewrite Hk. }
  unfold is_scalar_input, scalar_contribution, tensor_contribution,
    is_scalar_input, Value_type.
  by rewrite Hsg, Hc, Ha, Ho.
Qed.

Lemma classify_input_any_acc (g : Graph)
    (acc acc' r : list ScalarType * list ScalarType) (v : Value) :
  classify_input g acc v = Ok r -> exists r', classify_input g acc' v = Ok r'.
Proof.
  unfold classify_input. cbv zeta. intros Hc.
  destruct (if decide (n_kind (getNode g (Value_node v)) = onnx_Gather) then _ else _)
    as [shape_gather|]; [|discriminate].
  simpl in *. destruct shape_gather; [eauto|].
  destruct (decide _); [destruct (Node_t _ _ _); simpl in *; [eauto|discriminate]|].
  destruct (cast_TensorType _) as [tens|]; [|discriminate].
  simpl in *. destruct (scalarType tens); eauto.
Qed.

Lemma foldlM_classify_each (g : Graph) (l : list Value)
    (acc r : list ScalarType * list ScalarType) :
  foldlM (classify_input g) acc l = Ok r ->
  forall v, v ∈ l -> exists r', classify_input g ([], []) v = Ok r'.
Proof.
  revert acc. induction l as [|x l IH]; intros acc Hl v Hv;
    [by apply not_elem_of_nil in Hv|].
  simpl in Hl. destruct (classify_input g acc x) as [acc'|] eqn:Hx; [|discriminate].
  apply elem_of_cons in Hv as [->|Hv]; [by eapply classify_input_any_acc|].
  by eapply IH.
Qed.

Lemma foldlM_classify_all (g : Graph) (l : list Value)
    (acc : list ScalarType * list ScalarType) :
  (forall v, v ∈ l -> exists r', classify_input g ([], []) v = Ok r') ->
  exists r, foldlM (classify_input g) acc l = Ok r.
Proof.
  revert acc. induction l as [|x l IH]; intros acc Hall; simpl; [eauto|].
  destruct (Hall x) as [r' Hx]; [by left|].
  destruct (classify_input_any_acc g _ acc _ _ Hx) as [r'' ->].
  apply IH. intros v Hv. apply Hall. by right.
Qed.

(** ** Inference on a node whose inputs were rewritten *)

Lemma InferExpectedScalarType_inv `{External} (g : Graph) (n : NodeId)
    (r : option ScalarType * list Warning) :
  InferExpectedScalarType g n = Ok r ->
  exists ts ss tens,
    collect_types g n = Ok (ts, ss) /\ n_outputs (getNode g n) = [TensorT tens].
Proof.
  intros Hr. destruct (InferExpectedScalarType_output _ _ _ Hr) as [tens Hout].
  unfold InferExpectedScalarType in Hr.
  apply bind_Ok in Hr as ([ts ss] & Hc & _). eauto.
Qed.

Lemma InferExpectedScalarType_unfold `{External} (g : Graph) (n : NodeId)
    (ts ss : list ScalarType) (tens : TensorType) :
  collect_types g n = Ok (ts, ss) ->
  n_outputs (getNode g n) = [TensorT tens] ->
  InferExpectedScalarType g n =
    Ok (if IsComparisonOp (n_kind (getNode g n)) then
          (PromoteScalarTypes (ss ++ ts), [])
        else if forallb (is_scalar_input g) (n_inputs (getNode g n)) then
          (PromoteScalarTypes ss, [])
        else
          match scalarType tens, ts with
          | Some output_st, _ => (Some output_st, [])
          | None, t0 :: _ =>
              (Some t0,
               if existsb (fun type => bool_decide (Some type ≠ Some t0)) ts
               then [WarnScalarTypesMismatch (n_kind (getNode g n)) t0]
               else [])
          | None, [] => (PromoteScalarTypes ss, [])
          end).
Proof.
  intros Hc Hout. pose proof (all_scalars_test _ _ _ _ Hc) as Hall.
  unfold InferExpectedScalarType, Node_output, Value_type. cbv zeta.
  rewrite Hc. simpl. rewrite Hout. simpl. rewrite Hout. simpl.
  rewrite Hall.
  destruct (IsComparisonOp _); [reflexivity|].
  destruct (forallb _ _); [reflexivity|].
  destruct (scalarType tens); [reflexivity|].
  destruct ts; reflexivity.
Qed.

Lemma contributes_alike_lists (g g2 : Graph) (st : ScalarType) (cmp : bool)
    (l l2 : list Value) :
  Forall2 (contributes_alike g g2 st cmp) l l2 ->
  (forall x, x ∈ omap (scalar_contribution g2) l2 ->
             x = st \/ x ∈ omap (scalar_contribution g) l)
  /\ (forallb (is_scalar_input g2) l2 = true ->
      forallb (is_scalar_input g) l = true)
  /\ (omap (scalar_contribution g2) l2 = omap (scalar_contribution g) l
      \/ (forallb (is_scalar_input g2) l2 = true ->
          st ∈ omap (scalar_contribution g2) l2))
  /\ (cmp = true ->
      (forall x, x ∈ omap (tensor_contribution g2) l2 ->
                 x = st \/ x ∈ omap (tensor_contribution g) l)
      /\ ((omap (scalar_contribution g2) l2 = omap (scalar_contribution g) l
           /\ omap (tensor_contribution g2) l2 = omap (tensor_contribution g) l)
          \/ st ∈ omap (scalar_contribution g2) l2
                  ++ omap (tensor_contribution g2) l2)).
Proof.
  induction 1 as [|v v2 l l2 Hv _ (IH1 & IH2 & IH3 & IH4)].
  { split; [intros x Hx; by apply not_elem_of_nil in Hx|].
    split; [done|]. split; [by left|]. intros _.
    split; [intros x Hx; by apply not_elem_of_nil in Hx|]. by left. }
  csimpl.
  destruct Hv as [(His & Hsc & Htc)|[(His2 & His & Hsc & Htc)|(His2 & Hsc & Htc)]].
  - rewrite His, Hsc. split; [|split; [|split]].
    + intros x Hx. destruct (scalar_contribution g v) as [y|].
      * apply elem_of_cons in Hx as [->|Hx]; [right; left|].
        destruct (IH1 x Hx); [by left|right; by right].
      * by apply IH1.
    + intros Hall. apply andb_true_iff in Hall as [-> Hall]. simpl. auto.
    + destruct IH3 as [->|IH3]; [by left|]. right.
      intros Hall. apply andb_true_iff in Hall as [_ Hall].
      destruct (scalar_contribution g v); [right|]; auto.
    + intros Hcmp. destruct (IH4 Hcmp) as [IH4a IH4b]. rewrite (Htc Hcmp).
      split.
      * intros x Hx. destruct (tensor_contribution g v) as [y|].
        -- apply elem_of_cons in Hx as [->|Hx]; [right; left|].
           destruct (IH4a x Hx); [by left|right; by right].
        -- by apply IH4a.
      * destruct IH4b as [[-> ->]|Hst]; [by left|]. right.
        apply elem_of_app in Hst as [Hst|Hst]; apply elem_of_app.
        -- left. destruct (scalar_contribution g v); [right|]; done.
        -- right. destruct (tensor_contribution g v); [right|]; done.
  - rewrite His2, His, Hsc, Htc. split; [|split; [|split]].
    + intros x Hx. apply elem_of_cons in Hx as [->|Hx]; [by left|].
      destruct (IH1 x Hx); [by left|].
      right. destruct (scalar_contribution g v); [right|]; done.
    + simpl. auto.
    + right. intros _. left.
    + intros Hcmp. destruct (IH4 Hcmp) as [IH4a IH4b]. split.
      * intros x Hx. destruct (IH4a x Hx); [by left|].
        right. destruct (tensor_contribution g v); [right|]; done.
      * right. apply elem_of_app. left. left.
  - rewrite His2, Hsc, Htc. split; [|split; [|split]].
    + intros x Hx. destruct (IH1 x Hx); [by left|].
      right. destruct (scalar_contribution g v); [right|]; done.
    + simpl. discriminate.
    + right. simpl. discriminate.
    + intros Hcmp. destruct (IH4 Hcmp) as [IH4a IH4b]. split.
      * intros x Hx. apply elem_of_cons in Hx as [->|Hx]; [by left|].
        destruct (IH4a x Hx); [by left|].
        right. destruct (tensor_contribution g v); [right|]; done.
      * right. apply elem_of_app. right. left.
Qed.

(** ** Where the inputs of a visited node come from *)

Lemma evolves_old (g g' : Graph) (m : NodeId) :
  evolves g g' -> is_Some (g_nodes g !! m) ->
  is_Some (g_nodes g' !! m)
  /\ n_kind (getNode g' m) = n_kind (getNode g m)
  /\ n_attrs (getNode g' m) = n_attrs (getNode g m)
  /\ n_blocks (getNode g' m) = n_blocks (getNode g m).
Proof.
  intros Hev [nd Hm].
  destruct (ev_old _ _ Hev m nd Hm) as (nd' & Hm' & Hne).
  rewrite (getNode_lookup _ _ _ Hm), (getNode_lookup _ _ _ Hm').
  destruct Hne. eauto.
Qed.

Lemma update_input_rewired `{External} (g0 g g' : Graph) (n : NodeId)
    (st : ScalarType) (onnx_type : Z) (k : nat) :
  is_Some (g_nodes g !! n) ->
  evolves g0 g ->
  (forall v, v ∈ n_inputs (getNode g0 n) -> is_Some (g_nodes g0 !! Value_node v)) ->
  Forall2 (rewired_from g0 g st) (n_inputs (getNode g0 n)) (n_inputs (getNode g n)) ->
  update_input n st onnx_type g k = Ok g' ->
  Forall2 (rewired_from g0 g' st) (n_inputs (getNode g0 n)) (n_inputs (getNode g' n)).
Proof.
  intros Hn Hev Hstore HF Hu.
  destruct (update_input_inv _ _ _ _ _ _ Hn Hu)
    as (input & tens & Hk & Hty & Hcases).
  assert (Hspl : forall nd,
    (n_kind nd = onnx_Constant
     /\ n_kind (getNode g (Value_node input)) = onnx_Constant)
    \/ (n_kind nd = onnx_Cast
        /\ n_kind (getNode g (Value_node input)) <> onnx_Constant
        /\ exists t, n_outputs nd = [TensorT t] /\ scalarType t = Some st) ->
    Forall2 (rewired_from g0 (splice_before g n input nd) st)
      (n_inputs (getNode g0 n))
      (n_inputs (getNode (splice_before g n input nd) n))).
  { intros nd Hnd. rewrite splice_getNode_consumer by done.
    cbn [n_inputs]. apply Forall2_same_length_lookup.
    split; [rewrite length_fmap; by eapply Forall2_length|].
    intros i v0 v' Hv0 Hv'. rewrite list_lookup_fmap in Hv'.
    destruct (n_inputs (getNode g n) !! i) as [v|] eqn:Hv; [|discriminate].
    injection Hv' as <-.
    pose proof (Forall2_lookup_lr _ _ _ _ _ _ HF Hv0 Hv) as Hr.
    pose proof (Hstore v0 (list_elem_of_lookup_2 _ _ _ Hv0)) as Hv0s.
    assert (Hc0 : g_nodes g0 !! fresh (dom (g_nodes g)) = None).
    { apply not_elem_of_dom. intros Hin. apply (evolves_dom _ _ Hev) in Hin.
      by apply is_fresh in Hin. }
    unfold replace_value. destruct (decide (v = input)) as [->|Hvi].
    - right. cbn [Value_node]. split; [done|].
      rewrite splice_getNode_new by done.
      assert (Hcst : is_constant g0 v0
                     = bool_decide (n_kind (getNode g (Value_node input))
                                    = onnx_Constant)).
      { destruct Hr as [->|(_ & [[Hc Hkc]|(Hc & Hkc & _)])].
        - unfold is_constant.
          by destruct (evolves_old _ _ _ Hev Hv0s) as (_ & -> & _).
        - rewrite Hc. by rewrite bool_decide_eq_true_2.
        - rewrite Hc. rewrite bool_decide_eq_false_2; [done|].
          rewrite Hkc. discriminate. }
      destruct Hnd as [[Hknd Hki]|(Hknd & Hki & t & Hout & Ht)].
      + left. split; [|done]. rewrite Hcst. by apply bool_decide_eq_true_2.
      + right. split; [rewrite Hcst; by apply bool_decide_eq_false_2|].
        split; [done|].
        unfold known_scalar_type, Value_type. cbn [Value_node Value_offset].
        rewrite splice_getNode_new by done. rewrite Hout. done.
    - destruct Hr as [->|(Hnew & Hr)]; [by left|]. right. split; [done|].
      assert (Hvs : is_Some (g_nodes g !! Value_node v)).
      { apply kind_in_store.
        destruct Hr as [[_ ->]|(_ & -> & _)]; discriminate. }
      destruct (splice_keeps_producer g n (Value_node v) input nd Hn Hvs)
        as (_ & -> & _).
      unfold known_scalar_type.
      rewrite (splice_Value_type_old g n input v nd Hn Hvs).
      exact Hr. }
  destruct Hcases as [(Hkind & val & Hattr & ->)
                     |[(Hkind & t & Ht & Hne & ->)|(_ & _ & ->)]]; [| |done].
  - apply Hspl. left. done.
  - apply Hspl. right. split; [done|]. split; [done|].
    eexists. split; [reflexivity|]. reflexivity.
Qed.

Lemma update_loop_rewired `{External} (n : NodeId) (st : ScalarType)
    (onnx_type : Z) (l : list nat) (g g1 : Graph) :
  is_Some (g_nodes g !! n) ->
  IsImplicitCastSupported (n_kind (getNode g n)) = true ->
  (forall v, v ∈ n_inputs (getNode g n) -> is_Some (g_nodes g !! Value_node v)) ->
  foldlM (update_input n st onnx_type) g l = Ok g1 ->
  Forall2 (rewired_from g g1 st) (n_inputs (getNode g n)) (n_inputs (getNode g1 n)).
Proof.
  intros Hn Hsup Hstore Hloop.
  cut (is_Some (g_nodes g1 !! n)
       /\ IsImplicitCastSupported (n_kind (getNode g1 n)) = true
       /\ evolves g g1
       /\ Forall2 (rewired_from g g1 st) (n_inputs (getNode g n))
                  (n_inputs (getNode g1 n))).
  { tauto. }
  eapply (foldlM_invariant
           (fun gx => is_Some (g_nodes gx !! n)
              /\ IsImplicitCastSupported (n_kind (getNode gx n)) = true
              /\ evolves g gx
              /\ Forall2 (rewired_from g gx st) (n_inputs (getNode g n))
                         (n_inputs (getNode gx n)))); [|exact Hloop|].
  - intros a k a' (Ha & Hsa & Hev & HF) Hu.
    destruct (update_input_step _ _ _ _ _ _ Ha Hsa Hu)
      as (Hev' & _ & Ha' & Hk' & _).
    split; [done|]. split; [congruence|].
    split; [by eapply evolves_trans|].
    exact (update_input_rewired _ _ _ _ _ _ _ Ha Hev Hstore HF Hu).
  - split; [done|]. split; [done|]. split; [apply evolves_refl|].
    apply Forall2_same_length_lookup. split; [done|].
    intros i x y Hx Hy. left. congruence.
Qed.

Lemma rewired_from_refl (g : Graph) (st : ScalarType) (l : list Value) :
  Forall2 (rewired_from g g st) l l.
Proof.
  apply Forall2_same_length_lookup. split; [done|].
  intros i x y Hx Hy. left. congruence.
Qed.

Lemma rewired_from_frame (g g1 g2 : Graph) (n : NodeId) (st : ScalarType)
    (v v1 : Value) :
  is_Some (g_nodes g !! n) -> frame n g1 g2 ->
  rewired_from g g1 st v v1 -> rewired_from g g2 st v v1.
Proof.
  intros Hn Hfr [->|(Hnew & Hr)]; [by left|]. right. split; [done|].
  assert (Hvs : is_Some (g_nodes g1 !! Value_node v1)).
  { apply kind_in_store. destruct Hr as [[_ ->]|(_ & -> & _)]; discriminate. }
  destruct Hvs as [nd Hnd].
  assert (Hne : Value_node v1 <> n).
  { intros Heq. rewrite Heq in Hnew. rewrite Hnew in Hn. by destruct Hn. }
  pose proof (Hfr _ _ Hne Hnd) as Hnd2.
  unfold known_scalar_type, Value_type in *.
  by rewrite (getNode_lookup _ _ _ Hnd2), <- (getNode_lookup _ _ _ Hnd).
Qed.

Lemma UpdateScalarTypeForInputs_rewired `{External} (g g1 : Graph) (n : NodeId)
    (st : ScalarType) (w : list Warning) :
  is_Some (g_nodes g !! n) ->
  IsImplicitCastSupported (n_kind (getNode g n)) = true ->
  (forall v, v ∈ n_inputs (getNode g n) -> is_Some (g_nodes g !! Value_node v)) ->
  UpdateScalarTypeForInputs g n st = Ok (g1, w) ->
  Forall2 (rewired_from g g1 st) (n_inputs (getNode g n)) (n_inputs (getNode g1 n))
  /\ forall v1, v1 ∈ n_inputs (getNode g1 n) ->
       g_nodes g !! Value_node v1 = None -> input_settled g1 st v1.
Proof.
  intros Hn Hsup Hstore Hu.
  destruct (UpdateScalarTypeForInputs_spec _ _ _ _ _ Hn Hsup Hu)
    as (_ & _ & _ & _ & _ & Hall).
  unfold UpdateScalarTypeForInputs in Hu.
  destruct (ScalarTypeToONNXType st <? 0)%Z eqn:Hcode.
  - injection Hu as <- <-. split; [apply rewired_from_refl|].
    intros v1 Hv1 Hnone. destruct (Hstore v1 Hv1) as [? ?]. congruence.
  - apply bind_Ok in Hu as (g' & Hloop & Hret). injection Hret as -> <-.
    split; [by eapply update_loop_rewired|].
    intros v1 Hv1 _.
    assert (Hne : ScalarTypeToONNXType st <> (-1)%Z).
    { intros Heq. rewrite Heq in Hcode. discriminate. }
    specialize (Hall Hne). rewrite Forall_forall in Hall. by apply Hall.
Qed.

(** What a visit makes of the inputs and of the output of a node for which
    inference yields [st]. *)
Lemma visit_node_rewired `{External} (s s' : PassState) (it : NodeId)
    (st : ScalarType) (w : list Warning) :
  IsImplicitCastSupported (n_kind (getNode (ps_graph s) it)) = true ->
  InferExpectedScalarType (ps_graph s) it = Ok (Some st, w) ->
  visit_node s it = Ok s' ->
  Forall2 (rewired_from (ps_graph s) (ps_graph s') st)
    (n_inputs (getNode (ps_graph s) it)) (n_inputs (getNode (ps_graph s') it))
  /\ (forall v1, v1 ∈ n_inputs (getNode (ps_graph s') it) ->
        g_nodes (ps_graph s) !! Value_node v1 = None ->
        input_settled (ps_graph s') st v1)
  /\ (IsStandardOp (n_kind (getNode (ps_graph s) it)) = true ->
      exists tens, n_outputs (getNode (ps_graph s') it) = [TensorT tens]
                   /\ scalarType tens = Some st)
  /\ (IsStandardOp (n_kind (getNode (ps_graph s) it)) = false ->
      n_outputs (getNode (ps_graph s') it) = n_outputs (getNode (ps_graph s) it)).
Proof.
  intros Hsup Hinf Hv. unfold visit_node in Hv. rewrite Hsup, Hinf in Hv.
  simpl in Hv.
  pose proof (supported_in_store _ _ Hsup) as Hin.
  pose proof (InferExpectedScalarType_in_store _ _ _ Hinf) as Hstore.
  apply bind_Ok in Hv as ([g1 w1] & Hupd & Hv). simpl in Hv.
  apply bind_Ok in Hv as (g2 & Hout & Hv). injection Hv as <-. simpl.
  destruct (UpdateScalarTypeForInputs_spec _ _ _ _ _ Hin Hsup Hupd)
    as (Hev1 & Hfr1 & Hin1 & Hkind1 & Hout1 & _).
  destruct (UpdateScalarTypeForInputs_rewired _ _ _ _ _ Hin Hsup Hstore Hupd)
    as (HF & Hnew).
  rewrite Hkind1, (supported_kind_cases _ Hsup) in Hout.
  destruct (IsStandardOp (n_kind (getNode (ps_graph s) it))) eqn:Hstd.
  - destruct (UpdateScalarTypeForOutput_spec g1 g2 it st Hin1) as
      (tens & Hty & Hg2 & Hev2 & Hfr2 & Hinputs2 & Hkind2 & Hkeep);
      [congruence|done|].
    rewrite Hinputs2. split; [|split; [|split]].
    + eapply Forall2_impl; [exact HF|]. intros v v1.
      by apply (rewired_from_frame _ g1 g2 it).
    + intros v1 Hv1 Hnone. apply Hkeep. by apply Hnew.
    + intros _. exists (withScalarType tens (Some st)). split; [|done].
      rewrite Hg2. unfold setType. rewrite getNode_set_node.
      rewrite decide_True by done. cbn [Value_node Value_offset n_outputs].
      rewrite Hty. reflexivity.
    + discriminate.
  - injection Hout as <-. split; [done|]. split; [done|].
    split; [discriminate|]. intros _. done.
Qed.

Lemma supported_not_scalar_kind (k : NodeKind) :
  IsImplicitCastSupported k = true ->
  k <> onnx_Gather /\ k <> onnx_Constant /\ k <> onnx_Shape.
Proof. intros Hs. repeat split; intros ->; vm_compute in Hs; discriminate. Qed.

(** An input that the visit left in place contributes to inference what it
    contributed, the annotation of the visited node's own output apart. *)
Lemma kept_input_contributes (g g2 : Graph) (it : NodeId) (st : ScalarType)
    (v : Value) (r : list ScalarType * list ScalarType) (tens : TensorType) :
  IsImplicitCastSupported (n_kind (getNode g it)) = true ->
  evolves g g2 -> frame it g g2 ->
  n_outputs (getNode g it) = [TensorT tens] ->
  (IsStandardOp (n_kind (getNode g it)) = true ->
   exists tens, n_outputs (getNode g2 it) = [TensorT tens]) ->
  (IsStandardOp (n_kind (getNode g it)) = false ->
   n_outputs (getNode g2 it) = n_outputs (getNode g it)) ->
  classify_input g ([], []) v = Ok r ->
  contributes_alike g g2 st (IsComparisonOp (n_kind (getNode g it))) v v
  /\ exists r2, classify_input g2 ([], []) v = Ok r2.
Proof.
  intros Hsup Hev Hfr Hout Hstd_out Hcmp_out Hc.
  pose proof (supported_in_store _ _ Hsup) as Hin.
  pose proof (evolves_shape_kept _ _ Hev) as Hshape.
  destruct (evolves_old _ _ _ Hev Hin) as (Hin2 & Hkind2 & Hattr2 & _).
  destruct (classify_input_in_store _ _ _ _ Hc) as [nd Hnd].
  assert (Hcases : view_kept g g2 (Value_node v)
                   \/ (Value_node v = it
                       /\ IsStandardOp (n_kind (getNode g it)) = true)).
  { destruct (decide (Value_node v = it)) as [Heq|Hne].
    - destruct (IsStandardOp (n_kind (getNode g it))) eqn:Hstd; [by right|].
      left. rewrite Heq. repeat split; auto. congruence.
    - left. apply view_kept_same. by rewrite (Hfr _ _ Hne Hnd). }
  destruct Hcases as [Hview|[Heq Hstd]].
  - destruct (contributions_view _ _ v Hview Hshape) as (H1 & H2 & H3).
    split; [left; auto|].
    exists r. by rewrite (classify_input_view _ _ _ _ Hview Hshape).
  - destruct (supported_not_scalar_kind _ Hsup) as (HnG & HnC & _).
    destruct (Hstd_out Hstd) as [tens2 Hout2].
    assert (His : forall gx, n_kind (getNode gx it) = n_kind (getNode g it) ->
              is_scalar_input gx v = false /\ scalar_contribution gx v = None).
    { intros gx Hk.
      unfold scalar_contribution, is_scalar_input, is_shape_gather, is_constant.
      rewrite Heq, Hk.
      by rewrite (bool_decide_eq_false_2 _ HnG), (bool_decide_eq_false_2 _ HnC). }
    destruct (His g eq_refl) as [Hi1 Hs1].
    destruct (His g2 Hkind2) as [Hi2 Hs2].
    split.
    + left. rewrite Hi1, Hi2, Hs1, Hs2. repeat split.
      rewrite (IsStandardOp_not_comparison _ Hstd). discriminate.
    + unfold classify_input, Value_type in *. cbv zeta in *.
      rewrite Heq in *. rewrite Hkind2.
      destruct (decide (n_kind (getNode g it) = onnx_Gather)); [done|].
      simpl in *.
      destruct (decide (n_kind (getNode g it) = onnx_Constant)); [done|].
      rewrite Hout2. rewrite Hout in Hc.
      destruct (Value_offset v) as [|off]; simpl in *; [|discriminate].
      destruct (scalarType tens2); eauto.
Qed.

(** An input that the visit rewired to a node it made contributes the
    inferred type, as a scalar when it replaces a constant. *)
Lemma new_input_contributes (g g2 : Graph) (st : ScalarType) (cmp : bool)
    (v v2 : Value) :
  input_settled g2 st v2 ->
  (is_constant g v = true
   /\ n_kind (getNode g2 (Value_node v2)) = onnx_Constant)
  \/ (is_constant g v = false
      /\ n_kind (getNode g2 (Value_node v2)) = onnx_Cast
      /\ known_scalar_type g2 v2 = Some st) ->
  contributes_alike g g2 st cmp v v2
  /\ exists r2, classify_input g2 ([], []) v2 = Ok r2.
Proof.
  intros [(tens2 & Hty2 & Hst2) Hconst] [[Hc Hk]|(Hc & Hk & Hknown)].
  - destruct (Hconst Hk) as (val & Hval & Hrec).
    assert (Hsg : is_shape_gather g2 v2 = false).
    { unfold is_shape_gather. rewrite Hk.
      by rewrite (bool_decide_eq_false_2 (onnx_Constant = onnx_Gather)). }
    assert (Hcs : is_constant g2 v2 = true).
    { unfold is_constant. by apply bool_decide_eq_true_2. }
    split.
    + right. left.
      unfold scalar_contribution, tensor_contribution, is_scalar_input.
      rewrite Hsg, Hcs, Hc, Hrec. simpl.
      rewrite orb_true_r, lookup_singleton_eq, Hval. done.
    + unfold classify_input, Node_t. cbv zeta. rewrite Hk.
      destruct (decide (onnx_Constant = onnx_Gather)); [discriminate|].
      simpl. destruct (decide (onnx_Constant = onnx_Constant)); [|done].
      rewrite Hrec. simpl. rewrite lookup_singleton_eq. simpl. eauto.
  - assert (Hsg : is_shape_gather g2 v2 = false).
    { unfold is_shape_gather. rewrite Hk.
      by rewrite (bool_decide_eq_false_2 (onnx_Cast = onnx_Gather)). }
    assert (Hcs : is_constant g2 v2 = false).
    { unfold is_constant. rewrite Hk. by apply bool_decide_eq_false_2. }
    split.
    + right. right.
      unfold scalar_contribution, tensor_contribution, is_scalar_input.
      rewrite Hsg, Hcs. simpl. done.
    + unfold classify_input. cbv zeta. rewrite Hk.
      destruct (decide (onnx_Cast = onnx_Gather)); [discriminate|].
      simpl. destruct (decide (onnx_Cast = onnx_Constant)); [discriminate|].
      rewrite Hty2. simpl. destruct (scalarType tens2); eauto.
Qed.

Lemma PromoteScalarTypes_nonempty `{External} (l : list ScalarType)
    (st : ScalarType) :
  PromoteScalarTypes l = Some st -> l <> [].
Proof. by intros Hp ->. Qed.

(** Inference on a node that a visit has just rewritten yields the type
    that the visit inferred. *)
Lemma reinfer `{E : External} `{!PromoteLaws E} (g g2 : Graph) (it : NodeId)
    (st : ScalarType) (w : list Warning) :
  IsImplicitCastSupported (n_kind (getNode g it)) = true ->
  InferExpectedScalarType g it = Ok (Some st, w) ->
  evolves g g2 -> frame it g g2 ->
  Forall2 (rewired_from g g2 st)
    (n_inputs (getNode g it)) (n_inputs (getNode g2 it)) ->
  (forall v2, v2 ∈ n_inputs (getNode g2 it) ->
     g_nodes g !! Value_node v2 = None -> input_settled g2 st v2) ->
  (IsStandardOp (n_kind (getNode g it)) = true ->
   exists tens, n_outputs (getNode g2 it) = [TensorT tens]
                /\ scalarType tens = Some st) ->
  (IsStandardOp (n_kind (getNode g it)) = false ->
   n_outputs (getNode g2 it) = n_outputs (getNode g it)) ->
  exists w2, InferExpectedScalarType g2 it = Ok (Some st, w2).
Proof.
  intros Hsup Hinf Hev Hfr HF Hnew Hstd_out Hcmp_out.
  pose proof (supported_in_store _ _ Hsup) as Hin.
  destruct (evolves_old _ _ _ Hev Hin) as (Hin2 & Hkind2 & _).
  destruct (InferExpectedScalarType_inv _ _ _ Hinf) as (ts & ss & tens & Hc & Hout).
  set (cmp := IsComparisonOp (n_kind (getNode g it))) in *.
  assert (Hpairs : forall i v v2,
            n_inputs (getNode g it) !! i = Some v ->
            n_inputs (getNode g2 it) !! i = Some v2 ->
            contributes_alike g g2 st cmp v v2
            /\ exists r2, classify_input g2 ([], []) v2 = Ok r2).
  { intros i v v2 Hv Hv2.
    pose proof (Forall2_lookup_lr _ _ _ _ _ _ HF Hv Hv2) as [->|(Hnone & Hr)].
    - destruct (foldlM_classify_each _ _ _ _ Hc v) as [r Hr];
        [by eapply list_elem_of_lookup_2|].
      eapply kept_input_contributes; eauto.
      intros Hstd. destruct (Hstd_out Hstd) as (t & Ht & _). eauto.
    - apply new_input_contributes; [|done].
      apply Hnew; [|done]. by eapply list_elem_of_lookup_2. }
  assert (HFc : Forall2 (contributes_alike g g2 st cmp)
                  (n_inputs (getNode g it)) (n_inputs (getNode g2 it))).
  { apply Forall2_same_length_lookup. split; [by eapply Forall2_length|].
    intros i v v2 Hv Hv2. by destruct (Hpairs i v v2 Hv Hv2). }
  destruct (foldlM_classify_all g2 (n_inputs (getNode g2 it)) ([], []))
    as [[ts2 ss2] Hc2].
  { intros v2 Hv2. apply list_elem_of_lookup in Hv2 as [i Hv2].
    destruct (Forall2_lookup_r _ _ _ _ _ HF Hv2) as (v & Hv & _).
    by destruct (Hpairs i v v2 Hv Hv2). }
  fold (collect_types g2 it) in Hc2.
  destruct (collect_types_spec _ _ _ _ Hc) as (Hts & Hss & _).
  destruct (collect_types_spec _ _ _ _ Hc2) as (Hts2 & Hss2 & _).
  destruct (contributes_alike_lists _ _ _ _ _ _ HFc) as (L1 & L2 & L3 & L4).
  rewrite <- Hss, <- Hss2 in L1, L3, L4. rewrite <- Hts, <- Hts2 in L4.
  rewrite (InferExpectedScalarType_unfold _ _ _ _ _ Hc Hout) in Hinf.
  fold cmp in Hinf.
  assert (Hout2 : exists tens2, n_outputs (getNode g2 it) = [TensorT tens2]
            /\ (cmp = false -> scalarType tens2 = Some st)).
  { destruct (IsStandardOp (n_kind (getNode g it))) eqn:Hstd.
    - destruct (Hstd_out eq_refl) as (t & Ht & Hst). eauto.
    - exists tens. split; [by rewrite Hcmp_out|].
      intros Hcmp. pose proof (supported_kind_cases _ Hsup) as Hk.
      fold cmp in Hk. rewrite Hcmp, Hstd in Hk. discriminate. }
  destruct Hout2 as (tens2 & Hout2 & Hst2).
  rewrite (InferExpectedScalarType_unfold _ _ _ _ _ Hc2 Hout2).
  rewrite Hkind2. fold cmp. destruct cmp eqn:Hcmp.
  - injection Hinf as Hp _. destruct (L4 eq_refl) as [L4a L4b].
    exists []. do 2 f_equal.
    apply (PromoteScalarTypes_stable (ss ++ ts)); [done| |
      |].
    + destruct L4b as [[-> ->]|Hst]; [by eapply PromoteScalarTypes_nonempty|].
      intros Heq. rewrite Heq in Hst. by apply not_elem_of_nil in Hst.
    + intros x Hx. apply elem_of_app in Hx as [Hx|Hx].
      * destruct (L1 x Hx); [by left|right]. apply elem_of_app. by left.
      * destruct (L4a x Hx); [by left|right]. apply elem_of_app. by right.
    + destruct L4b as [[-> ->]|Hst]; [by right|by left].
  - rewrite (Hst2 eq_refl).
    destruct (forallb (is_scalar_input g2) (n_inputs (getNode g2 it))) eqn:Hall2;
      [|eauto].
    rewrite (L2 eq_refl) in Hinf. injection Hinf as Hp _.
    exists []. do 2 f_equal.
    apply (PromoteScalarTypes_stable ss); [done| |done|].
    + destruct L3 as [->|Hst]; [by eapply PromoteScalarTypes_nonempty|].
      intros Heq. specialize (Hst eq_refl). rewrite Heq in Hst.
      by apply not_elem_of_nil in Hst.
    + destruct L3 as [->|Hst]; [by right|left; by apply Hst].
Qed.

(** ** A visited node stays as the visit left it *)

Lemma visit_settles `{E : External} `{!PromoteLaws E} (s s' : PassState)
    (it : NodeId) (r : option ScalarType) (w : list Warning) :
  IsImplicitCastSupported (n_kind (getNode (ps_graph s) it)) = true ->
  InferExpectedScalarType (ps_graph s) it = Ok (r, w) ->
  visit_node s it = Ok s' ->
  settled_as (ps_graph s') it r.
Proof.
  intros Hsup Hinf Hv.
  destruct (visit_node_spec _ _ _ Hv) as (Hev & Hfr & Hcases).
  destruct Hcases as [(_ & _ & Hns)|(r' & w' & _ & _ & Hin & Hinf' & Hnone & Hall)];
    [congruence|].
  assert (r' = r) as -> by congruence.
  destruct (evolves_old _ _ _ Hev Hin) as (_ & Hkind & _).
  split; [congruence|].
  destruct r as [st|].
  2:{ rewrite (Hnone eq_refl). split; [eauto|]. by intros st [=]. }
  destruct (visit_node_rewired _ _ _ _ _ Hsup Hinf Hv)
    as (HF & Hnew & Hstd_out & Hcmp_out).
  split; [by eapply reinfer|].
  intros st' [= <-]. split; [by apply Hall|].
  rewrite Hkind. exact Hstd_out.
Qed.

Lemma evolves_old_input (g0 g : Graph) (n : NodeId) (v : Value) :
  evolves g0 g -> is_Some (g_nodes g0 !! n) ->
  v ∈ n_inputs (getNode g n) -> is_Some (g_nodes g0 !! Value_node v) ->
  v ∈ n_inputs (getNode g0 n).
Proof.
  intros Hev [nd0 Hn0] Hv Hold.
  destruct (ev_old _ _ Hev n nd0 Hn0) as (nd' & Hn' & Hne).
  rewrite (getNode_lookup _ _ _ Hn') in Hv.
  rewrite (getNode_lookup _ _ _ Hn0).
  apply list_elem_of_lookup in Hv as [k Hk].
  destruct (Forall2_lookup_r _ _ _ _ _ (ne_inputs _ _ _ _ Hne) Hk)
    as (v0 & Hk0 & [->|(_ & _ & Hnew)]).
  - by eapply list_elem_of_lookup_2.
  - exfalso. apply Hnew. by apply elem_of_dom.
Qed.

Lemma settled_as_store `{External} (g g' : Graph) (n : NodeId)
    (r : option ScalarType) :
  g_nodes g' = g_nodes g -> settled_as g n r -> settled_as g' n r.
Proof.
  intros Heq. apply settled_as_view.
  - unfold getNode. by rewrite Heq.
  - intros v _. apply view_kept_same. by rewrite Heq.
  - intros q. unfold getNode. by rewrite Heq.
Qed.

Lemma stable_visit `{E : External} `{!PromoteLaws E} (g0 : Graph)
    (s s' : PassState) (it : NodeId) :
  stable g0 (ps_graph s) (ps_inferred s) ->
  visit_node s it = Ok s' ->
  stable g0 (ps_graph s') (ps_inferred s').
Proof.
  intros [Hev0 Hinv] Hv.
  destruct (visit_node_spec _ _ _ Hv) as (Hev & Hfr & Hcases).
  split; [by eapply evolves_trans|].
  destruct Hcases as [(Hg & Htr & _)|(r & w & Htr & Hsup & Hin & Hinf & _)].
  { rewrite Hg, Htr. exact Hinv. }
  pose proof (supported_is_old _ _ _ Hev0 Hsup) as Hit0.
  rewrite Htr. intros i n rn Hi.
  apply lookup_app_Some in Hi as [Hi|[Hlen Hi]].
  - destruct (Hinv i n rn Hi) as (Hn0 & Hcases). split; [done|].
    assert (Hlast : forall m, m = it ->
              (ps_inferred s ++ [(it, r)]) !! length (ps_inferred s)
              = Some (m, r)).
    { intros m ->. rewrite lookup_app_r by lia. by rewrite Nat.sub_diag. }
    apply lookup_lt_Some in Hi as Hlt.
    destruct Hcases as [Hset|[(j & r' & Hij & Hj)|(v & j & r' & Hv0 & Hij & Hj)]].
    + destruct (decide (n = it)) as [Hnit|Hnit].
      { right. left. exists (length (ps_inferred s)), r. auto. }
      destruct (decide (it ∈ Value_node <$> n_inputs (getNode (ps_graph s) n)))
        as [Hreads|Hreads].
      { apply list_elem_of_fmap in Hreads as (v & Hvit & Hvin).
        right. right. exists v, (length (ps_inferred s)), r.
        split; [|split; [done|by apply Hlast]].
        apply (evolves_old_input g0 (ps_graph s)); auto. by rewrite <- Hvit. }
      left. destruct Hset as (Hsupn & [wn Hinfn] & Hrest).
      destruct (supported_in_store _ _ Hsupn) as [nd Hnd].
      eapply (settled_as_view (ps_graph s)).
      * by rewrite (getNode_lookup _ _ _ (Hfr _ _ Hnit Hnd)),
                   (getNode_lookup _ _ _ Hnd).
      * intros v Hvin. apply view_kept_same.
        destruct (InferExpectedScalarType_in_store _ _ _ Hinfn v Hvin)
          as [ndv Hndv].
        rewrite Hndv. apply Hfr; [|done].
        intros Heq. apply Hreads. apply list_elem_of_fmap. eauto.
      * by apply evolves_shape_kept.
      * split; [done|]. split; [eauto|done].
    + right. left. exists j, r'. split; [done|]. by apply lookup_app_l_Some.
    + right. right. exists v, j, r'. split; [done|]. split; [done|].
      by apply lookup_app_l_Some.
  - apply list_lookup_singleton_Some in Hi as [Hi0 [= <- <-]].
    split; [done|]. left. by eapply visit_settles.
Qed.

Lemma stable_dce `{E : External} `{!DCELaws E} (g0 g : Graph)
    (tr : list (NodeId * option ScalarType)) (b : BlockId)
    (recurse : bool) (policy : DCESideEffectPolicy) :
  stable g0 g tr -> stable g0 (EliminateDeadCode g b recurse policy) tr.
Proof.
  intros [Hev Hinv]. split; [eapply evolves_trans; [done|apply dce_evolves]|].
  intros i n r Hi. destruct (Hinv i n r Hi) as (Hn0 & Hcases).
  split; [done|]. destruct Hcases as [Hset|Hesc]; [left|by right].
  eapply settled_as_store; [|exact Hset]. apply dce_nodes.
Qed.

Lemma stable_pass `{E : External} `{!DCELaws E} `{!PromoteLaws E}
    (fuel : nat) (s : PassState) (b : BlockId) (g0 : Graph) (s' : PassState) :
  ImplicitCastForONNX fuel s b = Ok s' ->
  stable g0 (ps_graph s) (ps_inferred s) ->
  stable g0 (ps_graph s') (ps_inferred s').
Proof.
  intros Hrun.
  eapply (ImplicitCastForONNX_invariant
            (fun s => stable g0 (ps_graph s) (ps_inferred s))); [| |exact Hrun].
  - intros s0 it s1. apply stable_visit.
  - intros s0 block Hs. simpl. by apply stable_dce.
Qed.

(** After the pass, every visited node is left as inference saw it, in a
    graph whose values are defined before they are used along the order of
    the visits. *)
Lemma pass_settles `{E : External} `{!DCELaws E} `{!PromoteLaws E}
    (fuel : nat) (g : Graph) (s' : PassState) :
  ScalarTypeAnalysisForONNX fuel g = Ok s' ->
  def_before_use g (ps_inferred s').*1 ->
  forall n r, (n, r) ∈ ps_inferred s' -> settled_as (ps_graph s') n r.
Proof.
  unfold ScalarTypeAnalysisForONNX. intros Hrun Horder n r Hin.
  destruct (stable_pass _ _ _ g _ Hrun) as [Hev Hinv].
  { simpl. split; [apply evolves_refl|]. intros i m rm Hi.
    by rewrite lookup_nil in Hi. }
  apply list_elem_of_lookup in Hin as [i Hi].
  assert (Hi1 : (ps_inferred s').*1 !! i = Some n)
    by (by rewrite list_lookup_fmap, Hi).
  destruct (Hinv i n r Hi)
    as (_ & [Hset|[(j & r' & Hij & Hj)|(v & j & r' & Hv & Hij & Hj)]]); [done| |].
  - assert (Hj1 : (ps_inferred s').*1 !! j = Some n)
      by (by rewrite list_lookup_fmap, Hj).
    by destruct (def_before_use_lookup _ _ _ _ _ _ Horder Hij Hi1 Hj1).
  - assert (Hj1 : (ps_inferred s').*1 !! j = Some (Value_node v))
      by (by rewrite list_lookup_fmap, Hj).
    destruct (def_before_use_lookup _ _ _ _ _ _ Horder Hij Hi1 Hj1) as [_ Huse].
    by destruct (Huse v Hv).
Qed.

(** ** Graphs up to fresh copies of Constant nodes *)
















(** ** A visit of a node that is already settled *)






(** ** The second run *)

Lemma follows_refl (s : PassState) : follows s s.
Proof. split; [apply evolves_refl|done]. Qed.

Lemma follows_trans (s1 s2 s3 : PassState) :
  follows s1 s2 -> follows s2 s3 -> follows s1 s3.
Proof.
  intros [He1 Hl1] [He2 Hl2]. split; [by eapply evolves_trans|auto].
Qed.

Lemma visit_follows `{External} (s s' : PassState) (it : NodeId) :
  visit_node s it = Ok s' -> follows s s'.
Proof.
  intros Hv. destruct (visit_node_spec _ _ _ Hv) as (Hev & _ & Hcases).
  split; [done|].
  destruct Hcases as [(_ & -> & _)|(r & w & -> & _)]; [done|].
  intros m Hm. rewrite fmap_app. apply elem_of_app. by left.
Qed.

Lemma pass_follows `{E : External} `{!DCELaws E} (fuel : nat) (s : PassState)
    (b : BlockId) (s' : PassState) :
  ImplicitCastForONNX fuel s b = Ok s' -> follows s s'.
Proof.
  intros Hrun.
  eapply (ImplicitCastForONNX_invariant (follows s));
    [| |exact Hrun|apply follows_refl].
  - intros s0 it s1 Hs0 Hv. eapply follows_trans; [exact Hs0|].
    by eapply visit_follows.
  - intros s0 block [Hev Hlog]. split; [|done]. simpl.
    eapply evolves_trans; [exact Hev|apply dce_evolves].
Qed.

Lemma evolves_supported (g g' : Graph) (x : NodeId) :
  evolves g g' ->
  IsImplicitCastSupported (n_kind (getNode g' x))
  = IsImplicitCastSupported (n_kind (getNode g x)).
Proof.
  intros Hev. destruct (g_nodes g !! x) as [nd|] eqn:Hx.
  - by destruct (evolves_old _ _ x Hev (mk_is_Some _ _ Hx)) as (_ & -> & _).
  - rewrite (getNode_fresh _ _ Hx).
    destruct (g_nodes g' !! x) as [nd'|] eqn:Hx'.
    + rewrite (getNode_lookup _ _ _ Hx').
      by rewrite (created_node_unsupported _ (ev_new _ _ Hev x nd' Hx Hx')).
    + by rewrite (getNode_fresh _ _ Hx').
Qed.

Lemma covered_mono (depth : nat) :
  forall (g g' : Graph) (V V' : list NodeId) (b : BlockId),
    evolves g g' -> (forall m, m ∈ V -> m ∈ V') ->
    covered depth g V b -> covered depth g' V' b.
Proof.
  induction depth as [|depth IH]; intros g g' V V' b Hev Hsub Hc; [done|].
  simpl in *. intros x Hx.
  rewrite (evolves_supported _ _ x Hev), (evolves_getNode_blocks _ _ x Hev).
  destruct (ev_blocks _ _ Hev b x Hx) as [Hold|[Hnone [nd' Hnew]]].
  - destruct (Hc x Hold) as [Hvis Hsubs]. split.
    + destruct Hvis; [left|right]; auto.
    + intros sb Hsb. eapply IH; eauto.
  - rewrite (getNode_fresh _ _ Hnone). split; [by right|].
    intros sb Hsb. simpl in Hsb. by apply not_elem_of_nil in Hsb.
Qed.

Lemma foldlM_establish {A B : Type} (R : A -> A -> Prop) (Q : B -> A -> Prop)
    (f : A -> B -> Res A) (l : list B) :
  (forall a, R a a) ->
  (forall a b c, R a b -> R b c -> R a c) ->
  (forall x a a', R a a' -> Q x a -> Q x a') ->
  forall a a',
    (forall a0 x a1, x ∈ l -> R a a0 -> f a0 x = Ok a1 -> R a0 a1 /\ Q x a1) ->
    foldlM f a l = Ok a' -> R a a' /\ forall x, x ∈ l -> Q x a'.
Proof.
  intros Hrefl Htrans Hmono.
  induction l as [|x l IH]; intros a a' Hstep Hl; simpl in Hl.
  - injection Hl as <-. split; [done|]. intros x Hx.
    by apply not_elem_of_nil in Hx.
  - destruct (f a x) as [a1|] eqn:Hx; [|discriminate].
    destruct (Hstep a x a1) as [Ha1 Hq]; [by left|done|done|].
    destruct (IH a1 a') as [Hr Hall]; [|done|].
    { intros a0 y a2 Hy Ha0. apply Hstep; [by right|]. by eapply Htrans. }
    split; [by eapply Htrans|].
    intros y Hy. apply elem_of_cons in Hy as [->|Hy]; [|by apply Hall].
    by eapply Hmono.
Qed.

(** The traversal of a block leaves every whitelisted node of the block,
    and of the blocks nested in it, in the record of the visits. *)
Lemma pass_covers `{E : External} `{!DCELaws E} (fuel : nat) :
  forall (s : PassState) (b : BlockId) (s' : PassState),
    ImplicitCastForONNX fuel s b = Ok s' ->
    covered fuel (ps_graph s') (ps_inferred s').*1 b.
Proof.
  induction fuel as [|fuel IH]; intros s b s' Hrun; [discriminate|].
  simpl in Hrun. apply bind_Ok in Hrun as (sL & Hloop & Hret).
  injection Hret as <-.
  set (Q := fun (x : NodeId) (a : PassState) =>
              (x ∈ (ps_inferred a).*1
               \/ IsImplicitCastSupported (n_kind (getNode (ps_graph a) x)) = false)
              /\ forall sb, sb ∈ n_blocks (getNode (ps_graph a) x) ->
                   covered fuel (ps_graph a) (ps_inferred a).*1 sb).
  assert (Hmono : forall x a a', follows a a' -> Q x a -> Q x a').
  { intros x a a' [Hev Hlog] [Hvis Hsubs]. split.
    - rewrite (evolves_supported _ _ x Hev). destruct Hvis; auto.
    - rewrite (evolves_getNode_blocks _ _ x Hev). intros sb Hsb.
      eapply covered_mono; eauto. }
  destruct (foldlM_establish follows Q
              (fun s it =>
                 s1 ← foldlM (ImplicitCastForONNX fuel) s
                        (n_blocks (getNode (ps_graph s) it));
                 visit_node s1 it)
              (b_nodes (getBlock (ps_graph s) b))
              follows_refl follows_trans Hmono s sL) as [[Hev Hlog] Hall];
    [|exact Hloop|].
  { intros a0 x a1 _ _ Hstep.
    apply bind_Ok in Hstep as (s1 & Hsub & Hv).
    destruct (foldlM_establish follows
                (fun sb a => covered fuel (ps_graph a) (ps_inferred a).*1 sb)
                (ImplicitCastForONNX fuel)
                (n_blocks (getNode (ps_graph a0) x))
                follows_refl follows_trans) with (a := a0) (a' := s1)
      as [Hf01 Hsubs]; [| |exact Hsub|].
    { intros sb a a' [Hev Hlog]. by apply covered_mono. }
    { intros a2 sb a3 _ _ Hsb. split; [by eapply pass_follows|by eapply IH]. }
    pose proof (visit_follows _ _ _ Hv) as Hf1.
    pose proof (follows_trans _ _ _ Hf01 Hf1) as Hf.
    split; [done|]. split.
    - destruct (visit_node_spec _ _ _ Hv) as (_ & _ & Hcases).
      destruct Hcases as [(Hg & _ & Hns)|(r & w & Htr & _)].
      + right. by rewrite Hg.
      + left. rewrite Htr, fmap_app. apply elem_of_app. right. simpl.
        by apply list_elem_of_singleton.
    - destruct Hf as [Hev01 _]. destruct Hf1 as [Hev1 Hlog1].
      rewrite (evolves_getNode_blocks _ _ x Hev01). intros sb Hsb.
      apply (covered_mono fuel (ps_graph s1) _ (ps_inferred s1).*1 _ sb Hev1);
        [exact Hlog1|by apply Hsubs]. }
  simpl. intros x Hx. rewrite getNode_dce.
  apply dce_blocks in Hx.
  destruct (ev_blocks _ _ Hev b x Hx) as [Hold|[Hnone [nd' Hnew]]].
  - destruct (Hall x Hold) as [Hvis Hsubs]. split; [done|].
    intros sb Hsb.
    apply (covered_mono fuel (ps_graph sL) _ (ps_inferred sL).*1 _ sb
             (dce_evolves _ _ _ _)); [done|by apply Hsubs].
  - pose proof (ev_new _ _ Hev x nd' Hnone Hnew) as Hcr.
    rewrite (getNode_lookup _ _ _ Hnew).
    split; [right; by apply created_node_unsupported|].
    destruct Hcr as (-> & _). intros sb Hsb. by apply not_elem_of_nil in Hsb.
Qed.



(** ** The pass run twice *)

(** The sample promotion is a join. *)
Global Instance sample_promote_laws : PromoteLaws sample_external.
Proof.
  constructor; simpl.
  - intros a b c. destruct a, b, c; reflexivity.
  - intros a b. destruct a, b; reflexivity.
  - intros a. unfold sample_promoteTypes. by rewrite decide_True.
Qed.


(** * Further properties of the code *)

(** ** The codec and the two operator sets *)

(** X1: the codec is injective on the element types it encodes: two types
    with the same wire-format code are the same type, unless the code is the
    sentinel -1 of a missing key. *)
Theorem ScalarTypeToONNXType_injective (a b : ScalarType) :
  ScalarTypeToONNXType a = ScalarTypeToONNXType b ->
  ScalarTypeToONNXType a <> (-1)%Z ->
  a = b.
Proof. destruct a, b; vm_compute; congruence. Qed.

Lemma ScalarTypeToONNXType_injective_witness :
  ScalarTypeToONNXType kHalf = 10%Z /\ kHalf = kHalf.
Proof.
  split; [reflexivity|].
  apply (ScalarTypeToONNXType_injective kHalf kHalf); [reflexivity|].
  vm_compute. discriminate.
Defined.

(** X2: no operator is both in [standardOps] and in [comparisonOps], so
    that for a node of the whitelist the test [!IsComparisonOp] of the driver
    is the test [IsStandardOp]; and Constant, Cast, Gather and Shape, the
    kinds of the nodes the pass makes or looks through, are outside the
    whitelist. *)
Theorem whitelist_is_partitioned (k : NodeKind) :
  IsImplicitCastSupported k = xorb (IsStandardOp k) (IsComparisonOp k)
  /\ (IsImplicitCastSupported k = true ->
      negb (IsComparisonOp k) = IsStandardOp k
      /\ k <> onnx_Constant /\ k <> onnx_Cast
      /\ k <> onnx_Gather /\ k <> onnx_Shape).
Proof.
  split.
  - unfold IsImplicitCastSupported.
    fold (IsStandardOp k). fold (IsComparisonOp k).
    destruct (IsStandardOp k) eqn:Hs.
    + by rewrite (IsStandardOp_not_comparison k Hs).
    + by destruct (IsComparisonOp k).
  - intros Hsup. split; [by apply supported_kind_cases|].
    repeat split; intros ->; vm_compute in Hsup; discriminate.
Qed.

(** ** Promotion over a list *)

(** X3: when the promotion of two types is associative, commutative and
    idempotent, [PromoteScalarTypes] yields the join of the list: a type
    that absorbs every member of the list, and that every type absorbing all
    the members absorbs. *)
Theorem PromoteScalarTypes_is_join `{E : External} `{!PromoteLaws E}
    (l : list ScalarType) (st : ScalarType) :
  PromoteScalarTypes l = Some st ->
  (forall x, x ∈ l -> promoteTypes x st = st)
  /\ (forall u, (forall x, x ∈ l -> promoteTypes x u = u) -> promoteTypes st u = u).
Proof.
  intros Hl. split.
  - intros x Hx. by apply (PromoteScalarTypes_upper l).
  - intros u Hu. by apply (PromoteScalarTypes_least l).
Qed.

Lemma PromoteScalarTypes_is_join_witness :
  (forall x, x ∈ [kInt; kFloat; kLong] ->
     promoteTypes (External := sample_external) x kFloat = kFloat)
  /\ (forall u,
        (forall x, x ∈ [kInt; kFloat; kLong] ->
           promoteTypes (External := sample_external) x u = u) ->
        promoteTypes (External := sample_external) kFloat u = u).
Proof.
  apply (PromoteScalarTypes_is_join (E := sample_external) [kInt; kFloat; kLong]).
  reflexivity.
Defined.

(** X4: under the same laws the result of [PromoteScalarTypes] depends on
    the members of the list only, not on their order or their number of
    occurrences; in particular a COMPARISON node gets the same type whether
    the scalars or the tensors come first. *)
Theorem PromoteScalarTypes_same_members `{E : External} `{!PromoteLaws E}
    (l l' : list ScalarType) :
  (forall x, x ∈ l <-> x ∈ l') ->
  PromoteScalarTypes l = PromoteScalarTypes l'.
Proof.
  intros Hmem.
  destruct (PromoteScalarTypes l) as [a|] eqn:Hl,
           (PromoteScalarTypes l') as [b|] eqn:Hl'.
  - f_equal. apply promote_le_antisym.
    + eapply PromoteScalarTypes_least; [exact Hl|]. intros x Hx.
      eapply PromoteScalarTypes_upper; [exact Hl'|]. by apply Hmem.
    + eapply PromoteScalarTypes_least; [exact Hl'|]. intros x Hx.
      eapply PromoteScalarTypes_upper; [exact Hl|]. by apply Hmem.
  - destruct l' as [|y l']; [|discriminate]. destruct l as [|x l]; [discriminate|].
    exfalso. eapply not_elem_of_nil, Hmem. left.
  - destruct l as [|x l]; [|discriminate]. destruct l' as [|y l']; [discriminate|].
    exfalso. eapply not_elem_of_nil, Hmem. left.
  - reflexivity.
Qed.

Lemma PromoteScalarTypes_same_members_witness :
  PromoteScalarTypes (H := sample_external) [kInt; kFloat; kInt]
  = PromoteScalarTypes (H := sample_external) [kFloat; kInt].
Proof.
  apply (PromoteScalarTypes_same_members (E := sample_external)).
  intros x. rewrite !elem_of_cons. rewrite !elem_of_nil. tauto.
Defined.

Lemma foldl_promote_assoc `{E : External} `{!PromoteLaws E}
    (l : list ScalarType) (a b : ScalarType) :
  foldl promoteTypes (promoteTypes a b) l = promoteTypes a (foldl promoteTypes b l).
Proof.
  revert b. induction l as [|x l IH]; intros b; simpl; [done|].
  by rewrite <- promote_assoc, IH.
Qed.

(** X5: [PromoteScalarTypes] over a concatenation is the promotion of the
    results over the two parts, and the result over the part that is not
    empty when the other is. *)
Theorem PromoteScalarTypes_app `{E : External} `{!PromoteLaws E}
    (l1 l2 : list ScalarType) :
  PromoteScalarTypes (l1 ++ l2) =
    match PromoteScalarTypes l1, PromoteScalarTypes l2 with
    | Some a, Some b => Some (promoteTypes a b)
    | Some a, None => Some a
    | None, r => r
    end.
Proof.
  destruct l1 as [|a l1]; [reflexivity|].
  destruct l2 as [|b l2]; [by rewrite app_nil_r|].
  simpl. rewrite foldl_app. simpl. by rewrite foldl_promote_assoc.
Qed.

Lemma PromoteScalarTypes_app_witness :
  PromoteScalarTypes (H := sample_external) ([kInt; kLong] ++ [kHalf; kBool])
  = Some (promoteTypes (External := sample_external) kLong kHalf).
Proof.
  exact (PromoteScalarTypes_app (E := sample_external) [kInt; kLong] [kHalf; kBool]).
Defined.

(** ** When inference succeeds, and when it yields no type *)

Lemma classify_input_succeeds_iff (g : Graph)
    (acc : list ScalarType * list ScalarType) (v : Value) :
  (exists r, classify_input g acc v = Ok r) <-> input_readable g v = true.
Proof.
  unfold classify_input, input_readable, is_tensor_typed, Node_input, Node_t.
  cbv zeta.
  destruct (decide (n_kind (getNode g (Value_node v)) = onnx_Gather)) as [Hk|Hk].
  - destruct (n_inputs (getNode g (Value_node v)) !! 0) as [in0|]; simpl;
      [|split; [by intros [r Hr]|discriminate]].
    destruct (bool_decide _); simpl; [split; eauto|].
    destruct (decide (n_kind (getNode g (Value_node v)) = onnx_Constant));
      [congruence|].
    destruct (Value_type g v) as [[tens|]|]; simpl;
      try (split; [by intros [r Hr]|discriminate]).
    destruct (scalarType tens); split; eauto.
  - simpl.
    destruct (decide (n_kind (getNode g (Value_node v)) = onnx_Constant)).
    + destruct (n_attrs (getNode g (Value_node v)) !! attr_value) as [[t| |]|];
        simpl; try (split; [by intros [r Hr]|discriminate]).
      split; eauto.
    + destruct (Value_type g v) as [[tens|]|]; simpl;
        try (split; [by intros [r Hr]|discriminate]).
      destruct (scalarType tens); split; eauto.
Qed.

(** X6: [InferExpectedScalarType] returns a result exactly when every input
    of the node can be read (a Gather producer has a first operand, a
    Constant producer holds a tensor under "value", any other input carries
    a tensor annotation, and so does the input of a Gather that is not read
    off a Shape) and the node has a single output with a tensor annotation;
    a node without inputs needs the latter only. *)
Theorem InferExpectedScalarType_succeeds_iff `{External} (g : Graph) (n : NodeId) :
  (exists r, InferExpectedScalarType g n = Ok r)
  <-> forallb (input_readable g) (n_inputs (getNode g n)) = true
      /\ exists tens, n_outputs (getNode g n) = [TensorT tens].
Proof.
  split.
  - intros [r Hr].
    destruct (InferExpectedScalarType_inv _ _ _ Hr) as (ts & ss & tens & Hc & Hout).
    split; [|eauto]. apply forallb_forall. intros v Hv%list_elem_of_In.
    apply (classify_input_succeeds_iff g ([], [])).
    by eapply foldlM_classify_each.
  - intros [Hall [tens Hout]].
    destruct (foldlM_classify_all g (n_inputs (getNode g n)) ([], []))
      as [[ts ss] Hc].
    { intros v Hv%list_elem_of_In. apply classify_input_succeeds_iff.
      rewrite forallb_forall in Hall. by apply Hall. }
    eexists. by apply (InferExpectedScalarType_unfold g n ts ss tens).
Qed.

Lemma omap_nil_Forall {A B : Type} (f : A -> option B) (l : list A) :
  omap f l = [] <-> Forall (fun x => f x = None) l.
Proof.
  induction l as [|x l IH]; csimpl; [by split|].
  destruct (f x) as [y|] eqn:Hx.
  - split; [discriminate|]. intros Hall. inversion Hall. congruence.
  - rewrite IH. split; [by constructor|]. by inversion 1.
Qed.

(** X7: a successful inference yields no type exactly when no input of the
    node contributes a type, as a scalar or as a tensor, and the node is a
    comparison, or has no input, or has an output annotation of unknown
    element type; so a node that is not a comparison and has no input gets no
    type even when the element type of its output is known.  No warning is
    written then. *)
Theorem InferExpectedScalarType_None_iff `{External} (g : Graph) (n : NodeId)
    (r : option ScalarType) (w : list Warning) :
  InferExpectedScalarType g n = Ok (r, w) ->
  exists tens,
    n_outputs (getNode g n) = [TensorT tens]
    /\ (r = None <->
          Forall (fun v => scalar_contribution g v = None
                           /\ tensor_contribution g v = None)
                 (n_inputs (getNode g n))
          /\ (IsComparisonOp (n_kind (getNode g n)) = true
              \/ n_inputs (getNode g n) = []
              \/ scalarType tens = None))
    /\ (r = None -> w = []).
Proof.
  intros Hinf.
  destruct (InferExpectedScalarType_inv _ _ _ Hinf) as (ts & ss & tens & Hc & Hout).
  exists tens. split; [done|].
  rewrite (InferExpectedScalarType_unfold _ _ _ _ _ Hc Hout) in Hinf.
  destruct (collect_types_spec _ _ _ _ Hc) as (Hts & Hss & Hsc).
  assert (Hnone : Forall (fun v => scalar_contribution g v = None
                                   /\ tensor_contribution g v = None)
                         (n_inputs (getNode g n))
                  <-> ss = [] /\ ts = []).
  { rewrite Hts, Hss, !omap_nil_Forall, !Forall_forall. firstorder. }
  assert (Hallsc : forallb (is_scalar_input g) (n_inputs (getNode g n)) = true ->
                   ss = [] -> n_inputs (getNode g n) = []).
  { intros Hall Hnil. rewrite Hss in Hnil.
    destruct (n_inputs (getNode g n)) as [|v l]; [done|]. exfalso.
    simpl in Hall. apply andb_true_iff in Hall as [Hv _].
    inversion Hsc as [|? ? Hv' _]; subst. rewrite Hv' in Hv.
    apply bool_decide_eq_true_1 in Hv as [y Hy].
    csimpl in Hnil. by rewrite Hy in Hnil. }
  rewrite Hnone.
  destruct (IsComparisonOp (n_kind (getNode g n))).
  { injection Hinf as <- <-. split; [|done].
    destruct ss, ts; simpl; split; try done; intuition congruence. }
  destruct (forallb (is_scalar_input g) (n_inputs (getNode g n))) eqn:Hall.
  { injection Hinf as <- <-. split; [|done]. split.
    - intros Hn. assert (ss = []) as -> by (by destruct ss).
      pose proof (Hallsc eq_refl eq_refl) as Hnil.
      rewrite Hts, Hnil. simpl. auto.
    - by intros [[-> _] _]. }
  assert (Hne : n_inputs (getNode g n) <> []).
  { intros Hnil. by rewrite Hnil in Hall. }
  destruct (scalarType tens) as [o|].
  { injection Hinf as <- <-. split; [|done]. split; [done|].
    intros [_ [?|[?|?]]]; done. }
  destruct ts as [|t0 ts].
  - injection Hinf as <- <-. split; [|done]. split.
    + intros Hn. assert (ss = []) as -> by (by destruct ss). auto.
    + by intros [[-> _] _].
  - injection Hinf as <- <-. split; [|done]. split; [done|].
    by intros [[_ ?] _].
Qed.

Lemma InferExpectedScalarType_None_iff_witness :
  exists tens,
    n_outputs (getNode g_add_unknown 1) = [TensorT tens]
    /\ (@None ScalarType = None <->
          Forall (fun v => scalar_contribution g_add_unknown v = None
                           /\ tensor_contribution g_add_unknown v = None)
                 (n_inputs (getNode g_add_unknown 1))
          /\ (IsComparisonOp (n_kind (getNode g_add_unknown 1)) = true
              \/ n_inputs (getNode g_add_unknown 1) = []
              \/ scalarType tens = None))
    /\ (@None ScalarType = None -> @nil Warning = []).
Proof.
  apply (InferExpectedScalarType_None_iff (H := sample_external) g_add_unknown 1).
  vm_compute. reflexivity.
Defined.

(** ** The rewriting of the output *)

Lemma UpdateScalarTypeForOutput_eq (g : Graph) (n : NodeId) (st : ScalarType)
    (tens : TensorType) :
  n_outputs (getNode g n) = [TensorT tens] ->
  UpdateScalarTypeForOutput g n st =
    Ok (set_node g n
          (mkNode (n_kind (getNode g n)) (n_inputs (getNode g n))
                  [TensorT (mkTensorType (Some st) (tt_sizes tens))]
                  (n_attrs (getNode g n)) (n_blocks (getNode g n)))).
Proof.
  intros Hout. unfold UpdateScalarTypeForOutput, Node_output, Value_type, setType.
  repeat (rewrite Hout; simpl). reflexivity.
Qed.

Lemma UpdateScalarTypeForOutput_inv (g g' : Graph) (n : NodeId) (st : ScalarType) :
  UpdateScalarTypeForOutput g n st = Ok g' ->
  exists tens, n_outputs (getNode g n) = [TensorT tens].
Proof.
  intros Hu. unfold UpdateScalarTypeForOutput, Node_output in Hu.
  destruct (n_outputs (getNode g n)) as [|ty [|? ?]] eqn:Hout; try discriminate.
  simpl in Hu. unfold Value_type in Hu. simpl in Hu. rewrite Hout in Hu.
  simpl in Hu. destruct ty; [eauto|discriminate].
Qed.

(** X8: [UpdateScalarTypeForOutput] succeeds exactly on a node with a single
    output that carries a tensor annotation; it then replaces the element
    type of that annotation and keeps its sizes, and changes nothing else:
    not the kind, inputs, attributes or sub-blocks of the node, no other
    node, and no block. *)
Theorem UpdateScalarTypeForOutput_changes_element_type_only (g : Graph)
    (n : NodeId) (st : ScalarType) :
  ((exists g', UpdateScalarTypeForOutput g n st = Ok g')
   <-> exists tens, n_outputs (getNode g n) = [TensorT tens])
  /\ forall g', UpdateScalarTypeForOutput g n st = Ok g' ->
       g_blocks g' = g_blocks g /\ g_block g' = g_block g
       /\ (forall m, m <> n -> g_nodes g' !! m = g_nodes g !! m)
       /\ n_kind (getNode g' n) = n_kind (getNode g n)
       /\ n_inputs (getNode g' n) = n_inputs (getNode g n)
       /\ n_attrs (getNode g' n) = n_attrs (getNode g n)
       /\ n_blocks (getNode g' n) = n_blocks (getNode g n)
       /\ exists tens,
            n_outputs (getNode g n) = [TensorT tens]
            /\ n_outputs (getNode g' n)
               = [TensorT (mkTensorType (Some st) (tt_sizes tens))].
Proof.
  split.
  - split; [intros [g' Hu]; by eapply UpdateScalarTypeForOutput_inv|].
    intros [tens Hout]. rewrite (UpdateScalarTypeForOutput_eq _ _ _ _ Hout). eauto.
  - intros g' Hu. destruct (UpdateScalarTypeForOutput_inv _ _ _ _ Hu) as [tens Hout].
    rewrite (UpdateScalarTypeForOutput_eq _ _ _ _ Hout) in Hu.
    injection Hu as <-. rewrite getNode_set_node, decide_True by done. simpl.
    split; [done|]. split; [done|].
    split; [intros m Hm; by apply lookup_insert_ne|].
    repeat (split; [done|]). eauto.
Qed.

(** X9: of two rewritings of the output of a node the last one wins: after
    a first one, a second rewriting gives what it gives on the graph as it
    was, failure included; so rewriting twice to the same type is rewriting
    once. *)
Theorem UpdateScalarTypeForOutput_last_wins (g g1 : Graph) (n : NodeId)
    (st1 st2 : ScalarType) :
  UpdateScalarTypeForOutput g n st1 = Ok g1 ->
  UpdateScalarTypeForOutput g1 n st2 = UpdateScalarTypeForOutput g n st2
  /\ UpdateScalarTypeForOutput g1 n st1 = Ok g1.
Proof.
  intros Hu.
  destruct (UpdateScalarTypeForOutput_inv _ _ _ _ Hu) as [tens Hout].
  assert (Hsecond : forall st,
            UpdateScalarTypeForOutput g1 n st = UpdateScalarTypeForOutput g n st).
  { intros st. rewrite (UpdateScalarTypeForOutput_eq _ _ st _ Hout).
    rewrite (UpdateScalarTypeForOutput_eq _ _ _ _ Hout) in Hu. injection Hu as <-.
    rewrite (UpdateScalarTypeForOutput_eq _ _ st
               (mkTensorType (Some st1) (tt_sizes tens)));
      [|by rewrite getNode_set_node, decide_True].
    rewrite getNode_set_node, decide_True by done. simpl.
    unfold set_node. simpl. by rewrite insert_insert_eq. }
  split; [apply Hsecond|]. by rewrite Hsecond.
Qed.

Lemma UpdateScalarTypeForOutput_last_wins_witness :
  exists g1,
    UpdateScalarTypeForOutput g_add_float_int 1 kFloat = Ok g1
    /\ UpdateScalarTypeForOutput g1 1 kInt
       = UpdateScalarTypeForOutput g_add_float_int 1 kInt
    /\ UpdateScalarTypeForOutput g1 1 kFloat = Ok g1.
Proof.
  destruct (UpdateScalarTypeForOutput g_add_float_int 1 kFloat) as [g1|] eqn:Hu;
    [|vm_compute in Hu; discriminate].
  exists g1. split; [reflexivity|].
  exact (UpdateScalarTypeForOutput_last_wins g_add_float_int g1 1 kFloat kInt Hu).
Defined.

(** ** The rewriting of the inputs *)

Lemma insert_before_absent (c n : NodeId) (l : list NodeId) :
  n ∉ l -> insert_before c n l = l.
Proof.
  induction l as [|x l IH]; simpl; [done|]. intros Hn.
  rewrite decide_False by (intros ->; apply Hn; left).
  rewrite IH; [done|]. intros Hin. apply Hn. by right.
Qed.

Lemma inputs_rewritten_refl (n : NodeId) (st : ScalarType) (g : Graph) :
  is_Some (g_nodes g !! n) -> inputs_rewritten n st g g.
Proof.
  intros Hn. split; [done|]. split; [done|]. repeat (split; [done|]).
  split; [exists id; split; [by rewrite list_fmap_id|by left]|].
  split; [intros m nd'; congruence|]. split; [done|].
  intros b. split; [done|].
  destruct (decide (n ∈ b_nodes (getBlock g b))) as [Hin|Hout]; [|by left].
  right. apply list_elem_of_split_l in Hin as (l1 & l2 & Heq & Hn1).
  exists l1, l2, []. by rewrite Heq.
Qed.

Lemma splice_rewritten (n : NodeId) (st : ScalarType) (g gx : Graph)
    (input : Value) (nd : Node) :
  is_Some (g_nodes g !! n) ->
  inputs_rewritten n st g gx ->
  made_for st nd ->
  inputs_rewritten n st g (splice_before gx n input nd).
Proof.
  intros Hn0 (Hn & Hfr & Hk & Ho & Ha & Hb & (f & Hf & Hfv) & Hnew & Hblk & Hbs)
         Hmade.
  pose proof (splice_fresh_ne gx n Hn) as Hcn.
  assert (Hc0 : g_nodes g !! fresh (dom (g_nodes gx)) = None).
  { destruct (g_nodes g !! fresh (dom (g_nodes gx))) as [x|] eqn:Hx; [|done].
    apply (Hfr _ _ Hcn) in Hx. by rewrite fresh_node_None in Hx. }
  destruct (splice_keeps_producer gx n n input nd Hn Hn) as (Hn' & _).
  split; [done|]. split.
  { intros m ndm Hmn Hm. rewrite splice_lookup_other; [by apply Hfr|done|].
    intros ->. congruence. }
  rewrite (splice_getNode_consumer gx n input nd). cbn [n_kind n_inputs
    n_outputs n_attrs n_blocks].
  repeat (split; [done|]). split.
  { exists (replace_value input (mkValue (fresh (dom (g_nodes gx))) 0) ∘ f).
    split; [by rewrite Hf, <- list_fmap_compose|].
    intros v. unfold compose, replace_value.
    destruct (decide (f v = input)); [by right|apply Hfv]. }
  split.
  { intros m nd' Hm0 Hm.
    destruct (decide (m = fresh (dom (g_nodes gx)))) as [->|Hmc].
    - rewrite splice_lookup_new in Hm by done. by injection Hm as <-.
    - rewrite splice_lookup_other in Hm; [by eapply Hnew| |done].
      intros ->. destruct Hn0. congruence. }
  split; [done|].
  intros b. rewrite splice_getBlock. cbn [b_nodes b_return].
  destruct (Hbs b) as [Hret Hcases]. split; [done|].
  destruct Hcases as [[Hout Heq]|(l1 & l2 & news & Heq & Hn1 & Heq' & Hnews)].
  - left. split; [done|]. rewrite Heq. by apply insert_before_absent.
  - right. exists l1, l2, (news ++ [fresh (dom (g_nodes gx))]).
    split; [done|]. split; [done|]. split.
    + rewrite Heq', app_assoc, insert_before_split.
      * by rewrite <- !app_assoc.
      * intros [Hin|Hin]%elem_of_app; [done|].
        rewrite Forall_forall in Hnews. apply Hnews in Hin.
        destruct Hn0. congruence.
    + apply Forall_app. split; [done|]. by constructor.
Qed.

Lemma update_input_rewritten `{External} (g gx gx' : Graph) (n : NodeId)
    (st : ScalarType) (k : nat) :
  is_Some (g_nodes g !! n) ->
  ScalarTypeToONNXType st <> (-1)%Z ->
  inputs_rewritten n st g gx ->
  update_input n st (ScalarTypeToONNXType st) gx k = Ok gx' ->
  inputs_rewritten n st g gx'.
Proof.
  intros Hn0 Hcode Hinv Hu. pose proof Hinv as (Hn & _).
  destruct (update_input_inv _ _ _ _ _ _ Hn Hu)
    as (input & tens & _ & _ & Hcases).
  destruct Hcases as [(_ & val & _ & ->)|[(_ & t & _ & _ & ->)|(_ & _ & ->)]];
    [| |done].
  - apply splice_rewritten; [done|done|]. left.
    exists (Tensor_to val st). split; [done|apply Tensor_to_scalar_type].
  - apply splice_rewritten; [done|done|]. right.
    eexists _, _. split; [reflexivity|]. split; [reflexivity|done].
Qed.

Lemma UpdateScalarTypeForInputs_rewritten `{External} (g g1 : Graph)
    (n : NodeId) (st : ScalarType) (w : list Warning) :
  UpdateScalarTypeForInputs g n st = Ok (g1, w) ->
  g1 = g \/ (is_Some (g_nodes g !! n) /\ inputs_rewritten n st g g1).
Proof.
  intros Hu. unfold UpdateScalarTypeForInputs in Hu.
  destruct (ScalarTypeToONNXType st <? 0)%Z eqn:Hcode;
    [injection Hu as <- _; by left|].
  apply supported_code in Hcode.
  apply bind_Ok in Hu as (g' & Hloop & Hret). injection Hret as -> _.
  destruct (g_nodes g !! n) as [nd|] eqn:Hn.
  - right. split; [done|].
    eapply (foldlM_invariant (inputs_rewritten n st g)); [|exact Hloop|].
    + intros a k a' Ha Hk.
      apply (update_input_rewritten g a a' n st k); [by rewrite Hn|done|done|done].
    + apply inputs_rewritten_refl. by rewrite Hn.
  - left. rewrite (getNode_fresh _ _ Hn) in Hloop. simpl in Hloop. congruence.
Qed.

Lemma made_for_shape (st : ScalarType) (nd : Node) :
  made_for st nd ->
  (n_kind nd = onnx_Constant \/ n_kind nd = onnx_Cast)
  /\ n_blocks nd = []
  /\ exists tens, n_outputs nd = [TensorT tens].
Proof.
  intros [(val & -> & _)|(v & tens & -> & _)]; simpl; eauto.
Qed.

(** X10: [UpdateScalarTypeForInputs] touches the inputs of [n] and nothing
    else of the nodes there were: every other node keeps its record, [n]
    keeps its kind, output annotations, attributes, sub-blocks and number of
    inputs, no node is removed, and a node that is new is a Constant or a
    Cast with one tensor-typed output and no sub-block. *)
Theorem UpdateScalarTypeForInputs_frame `{External} (g g1 : Graph) (n : NodeId)
    (st : ScalarType) (w : list Warning) :
  UpdateScalarTypeForInputs g n st = Ok (g1, w) ->
  (forall m nd, m <> n -> g_nodes g !! m = Some nd -> g_nodes g1 !! m = Some nd)
  /\ (is_Some (g_nodes g !! n) -> is_Some (g_nodes g1 !! n))
  /\ n_kind (getNode g1 n) = n_kind (getNode g n)
  /\ n_outputs (getNode g1 n) = n_outputs (getNode g n)
  /\ n_attrs (getNode g1 n) = n_attrs (getNode g n)
  /\ n_blocks (getNode g1 n) = n_blocks (getNode g n)
  /\ length (n_inputs (getNode g1 n)) = length (n_inputs (getNode g n))
  /\ (forall m nd', g_nodes g !! m = None -> g_nodes g1 !! m = Some nd' ->
        (n_kind nd' = onnx_Constant \/ n_kind nd' = onnx_Cast)
        /\ n_blocks nd' = []
        /\ exists tens, n_outputs nd' = [TensorT tens])
  /\ g_block g1 = g_block g.
Proof.
  intros Hu.
  destruct (UpdateScalarTypeForInputs_rewritten _ _ _ _ _ Hu)
    as [->|(Hn0 & Hn & Hfr & Hk & Ho & Ha & Hb & (f & Hf & _) & Hnew & Hblk & _)].
  - repeat (split; [done|]). split; [|done]. intros m nd'. congruence.
  - repeat (split; [done|]). split; [by rewrite Hf, length_fmap|].
    split; [|done]. intros m nd' Hm Hm'. eapply made_for_shape. eauto.
Qed.

Lemma UpdateScalarTypeForInputs_frame_witness :
  exists g1 w,
    UpdateScalarTypeForInputs (H := sample_external) g_add_float_int 1 kFloat
    = Ok (g1, w)
    /\ n_kind (getNode g1 1) = n_kind (getNode g_add_float_int 1)
    /\ length (n_inputs (getNode g1 1))
       = length (n_inputs (getNode g_add_float_int 1))
    /\ g_block g1 = g_block g_add_float_int.
Proof.
  destruct (UpdateScalarTypeForInputs (H := sample_external) g_add_float_int 1 kFloat)
    as [[g1 w]|] eqn:Hu; [|vm_compute in Hu; discriminate].
  exists g1, w. split; [reflexivity|].
  destruct (UpdateScalarTypeForInputs_frame (H := sample_external)
              g_add_float_int g1 1 kFloat w Hu)
    as (_ & _ & Hk & _ & _ & _ & Hlen & _ & Hblk).
  auto.
Defined.

(** X12: [UpdateScalarTypeForInputs] substitutes values for values in the
    inputs of [n]: positions that read the same value before read the same
    value after (a Cast made for a value serves every position that read
    it), and a position reads the value it read or the first output of a
    new node. *)
Theorem UpdateScalarTypeForInputs_substitutes `{External} (g g1 : Graph)
    (n : NodeId) (st : ScalarType) (w : list Warning) :
  UpdateScalarTypeForInputs g n st = Ok (g1, w) ->
  (forall i j, n_inputs (getNode g n) !! i = n_inputs (getNode g n) !! j ->
               n_inputs (getNode g1 n) !! i = n_inputs (getNode g1 n) !! j)
  /\ forall i v1, n_inputs (getNode g1 n) !! i = Some v1 ->
       n_inputs (getNode g n) !! i = Some v1
       \/ (g_nodes g !! Value_node v1 = None /\ Value_offset v1 = 0).
Proof.
  intros Hu.
  destruct (UpdateScalarTypeForInputs_rewritten _ _ _ _ _ Hu)
    as [->|(Hn0 & _ & _ & _ & _ & _ & _ & (f & Hf & Hfv) & _)]; [auto|].
  rewrite Hf. split.
  - intros i j Hij. by rewrite !list_lookup_fmap, Hij.
  - intros i v1 Hv1. rewrite list_lookup_fmap in Hv1.
    destruct (n_inputs (getNode g n) !! i) as [v|]; [|discriminate].
    injection Hv1 as <-. destruct (Hfv v) as [->|Hnew]; auto.
Qed.

Lemma UpdateScalarTypeForInputs_substitutes_witness :
  exists g1 w,
    UpdateScalarTypeForInputs (H := sample_external) g_add_same_input 1 kFloat
    = Ok (g1, w)
    /\ n_inputs (getNode g1 1) !! 0 = n_inputs (getNode g1 1) !! 1.
Proof.
  destruct (UpdateScalarTypeForInputs (H := sample_external) g_add_same_input 1 kFloat)
    as [[g1 w]|] eqn:Hu; [|vm_compute in Hu; discriminate].
  exists g1, w. split; [reflexivity|].
  destruct (UpdateScalarTypeForInputs_substitutes (H := sample_external)
              g_add_same_input g1 1 kFloat w Hu) as [Heq _].
  apply Heq. reflexivity.
Defined.

(** ** The pass as a whole *)

Lemma evolves_unsupported_kept (g g' : Graph) (m : NodeId) (nd : Node) :
  evolves g g' -> g_nodes g !! m = Some nd ->
  IsImplicitCastSupported (n_kind nd) = false ->
  g_nodes g' !! m = Some nd.
Proof.
  intros Hev Hm Hk. destruct (ev_old _ _ Hev m nd Hm) as (nd' & Hm' & Hne).
  rewrite Hm'. f_equal. destruct Hne as [Hkind Ha Hb _ Ho _ Hi].
  assert (Hstd : IsStandardOp (n_kind nd) = false).
  { unfold IsImplicitCastSupported in Hk. apply orb_false_iff in Hk as [Hs _].
    exact Hs. }
  specialize (Ho Hstd). specialize (Hi Hk).
  destruct nd, nd'. simpl in *. congruence.
Qed.

Lemma visit_node_makes `{External} (s s' : PassState) (it : NodeId) :
  visit_node s it = Ok s' ->
  forall m nd, g_nodes (ps_graph s) !! m = None ->
    g_nodes (ps_graph s') !! m = Some nd -> exists st, made_for st nd.
Proof.
  unfold visit_node. intros Hv m nd Hm0 Hm.
  destruct (IsImplicitCastSupported (n_kind (getNode (ps_graph s) it))) eqn:Hsup.
  2:{ injection Hv as <-. congruence. }
  pose proof (supported_in_store _ _ Hsup) as Hin.
  apply bind_Ok in Hv as ([inferred w] & Hinf & Hv). simpl in Hv.
  destruct inferred as [st|]; [|injection Hv as <-; simpl in Hm; congruence].
  apply bind_Ok in Hv as ([g1 w1] & Hupd & Hv). simpl in Hv.
  apply bind_Ok in Hv as (g2 & Hout & Hv). injection Hv as <-. simpl in Hm.
  exists st.
  assert (Hm1 : g_nodes g1 !! m = Some nd).
  { destruct (negb (IsComparisonOp (n_kind (getNode g1 it)))).
    - destruct (UpdateScalarTypeForOutput_inv _ _ _ _ Hout) as [tens Hty].
      rewrite (UpdateScalarTypeForOutput_eq _ _ _ _ Hty) in Hout.
      injection Hout as <-. simpl in Hm.
      rewrite lookup_insert_ne in Hm; [done|].
      intros <-. destruct Hin. congruence.
    - by injection Hout as <-. }
  destruct (UpdateScalarTypeForInputs_rewritten _ _ _ _ _ Hupd)
    as [->|(_ & _ & _ & _ & _ & _ & _ & _ & Hnew & _)]; [congruence|].
  by eapply Hnew.
Qed.

(** Every node that a run of the pass adds to the store is a node made for
    some element type. *)
Lemma pass_new_nodes_made `{E : External} `{!DCELaws E}
    (fuel : nat) (g : Graph) (s' : PassState) :
  ScalarTypeAnalysisForONNX fuel g = Ok s' ->
  forall m nd, g_nodes g !! m = None -> g_nodes (ps_graph s') !! m = Some nd ->
    exists st, made_for st nd.
Proof.
  unfold ScalarTypeAnalysisForONNX. intros Hrun.
  cut (evolves g (ps_graph s')
       /\ forall m nd, g_nodes g !! m = None ->
            g_nodes (ps_graph s') !! m = Some nd -> exists st, made_for st nd);
    [tauto|].
  eapply (ImplicitCastForONNX_invariant
            (fun s => evolves g (ps_graph s)
               /\ forall m nd, g_nodes g !! m = None ->
                    g_nodes (ps_graph s) !! m = Some nd ->
                    exists st, made_for st nd)); [| |exact Hrun|].
  - intros s it s1 [Hev Hmade] Hv.
    destruct (visit_node_spec _ _ _ Hv) as (Hev1 & _).
    split; [by eapply evolves_trans|].
    intros m nd Hm0 Hm1.
    destruct (g_nodes (ps_graph s) !! m) as [nd0|] eqn:Hm.
    + destruct (Hmade m nd0 Hm0 Hm) as [st Hst]. exists st.
      assert (Hk : IsImplicitCastSupported (n_kind nd0) = false).
      { apply created_node_unsupported. exact (ev_new _ _ Hev m nd0 Hm0 Hm). }
      pose proof (evolves_unsupported_kept _ _ _ _ Hev1 Hm Hk) as Hkept.
      congruence.
    + by eapply visit_node_makes.
  - intros s block [Hev Hmade]. simpl.
    split; [eapply evolves_trans; [done|apply dce_evolves]|].
    intros m nd. rewrite dce_nodes. apply Hmade.
  - simpl. split; [apply evolves_refl|]. intros m nd. congruence.
Qed.

(** X13: every node that the pass adds to the graph is well formed: it is a
    Constant without operand whose output annotation is the one made from
    the literal it holds, or a Cast with one operand whose attribute "to" is
    the wire-format code of the element type of its output annotation, a
    code that is not the sentinel -1; and neither has a sub-block. *)
Theorem pass_makes_constants_and_casts `{E : External} `{!DCELaws E}
    (fuel : nat) (g : Graph) (s' : PassState) :
  ScalarTypeAnalysisForONNX fuel g = Ok s' ->
  forall m nd, g_nodes g !! m = None -> g_nodes (ps_graph s') !! m = Some nd ->
    exists st, made_for st nd.
Proof. exact (pass_new_nodes_made fuel g s'). Qed.

Lemma pass_makes_constants_and_casts_witness :
  exists s',
    ScalarTypeAnalysisForONNX (H := sample_external) 1 g_greater_float_const = Ok s'
    /\ forall m nd, g_nodes g_greater_float_const !! m = None ->
         g_nodes (ps_graph s') !! m = Some nd -> exists st, made_for st nd.
Proof.
  destruct (ScalarTypeAnalysisForONNX (H := sample_external) 1 g_greater_float_const)
    as [s'|] eqn:Hrun; [|vm_compute in Hrun; discriminate].
  exists s'. split; [reflexivity|].
  exact (pass_makes_constants_and_casts (E := sample_external) 1
           g_greater_float_const s' Hrun).
Defined.

(** X14: the pass keeps the shape of the graph: every node stays in the
    store with its kind, attributes, sub-blocks and numbers of inputs and of
    outputs, a node that is not a STANDARD operator keeps its output
    annotations, a node outside the whitelist keeps its whole record, and a
    block lists nodes it listed and new nodes only. *)
Theorem pass_keeps_structure `{E : External} `{!DCELaws E}
    (fuel : nat) (g : Graph) (s' : PassState) :
  ScalarTypeAnalysisForONNX fuel g = Ok s' ->
  g_block (ps_graph s') = g_block g
  /\ (forall m nd, g_nodes g !! m = Some nd ->
        exists nd', g_nodes (ps_graph s') !! m = Some nd'
          /\ n_kind nd' = n_kind nd /\ n_attrs nd' = n_attrs nd
          /\ n_blocks nd' = n_blocks nd
          /\ length (n_inputs nd') = length (n_inputs nd)
          /\ length (n_outputs nd') = length (n_outputs nd)
          /\ (IsStandardOp (n_kind nd) = false -> n_outputs nd' = n_outputs nd)
          /\ (IsImplicitCastSupported (n_kind nd) = false -> nd' = nd))
  /\ (forall b x, x ∈ b_nodes (getBlock (ps_graph s') b) ->
        x ∈ b_nodes (getBlock g b) \/ g_nodes g !! x = None).
Proof.
  unfold ScalarTypeAnalysisForONNX. intros Hrun.
  destruct (pass_follows _ _ _ _ Hrun) as [Hev _]. simpl in Hev.
  split; [apply (ev_block _ _ Hev)|]. split.
  - intros m nd Hm. destruct (ev_old _ _ Hev m nd Hm) as (nd' & Hm' & Hne).
    exists nd'. split; [done|].
    pose proof Hne as [Hk Ha Hb Ho Hok Hi Hik].
    repeat (split; [done|]).
    split; [symmetry; by eapply Forall2_length|].
    split; [symmetry; by eapply Forall2_length|].
    split; [done|]. intros Hns.
    pose proof (evolves_unsupported_kept _ _ _ _ Hev Hm Hns). congruence.
  - intros b x Hx.
    destruct (ev_blocks _ _ Hev b x Hx) as [Hold|[Hnone _]]; auto.
Qed.

Lemma pass_keeps_structure_witness :
  exists s',
    ScalarTypeAnalysisForONNX (H := sample_external) 1 g_mul_float_const = Ok s'
    /\ g_block (ps_graph s') = g_block g_mul_float_const
    /\ g_nodes (ps_graph s') !! 1 = g_nodes g_mul_float_const !! 1.
Proof.
  destruct (ScalarTypeAnalysisForONNX (H := sample_external) 1 g_mul_float_const)
    as [s'|] eqn:Hrun; [|vm_compute in Hrun; discriminate].
  exists s'. split; [reflexivity|].
  destruct (pass_keeps_structure (E := sample_external) 1 g_mul_float_const s' Hrun)
    as (Hblk & Hold & _).
  split; [done|].
  destruct (Hold 1 (constant_node (mkTensor kInt [] [3%Z]))) as (nd' & Hnd' & Hrest);
    [reflexivity|].
  destruct Hrest as (_ & _ & _ & _ & _ & _ & Hsame).
  rewrite (Hsame eq_refl) in Hnd'. exact Hnd'.
Defined.

Lemma InferExpectedScalarType_store `{External} (g g' : Graph) (n : NodeId) :
  g_nodes g' = g_nodes g ->
  InferExpectedScalarType g' n = InferExpectedScalarType g n.
Proof.
  intros Heq. apply InferExpectedScalarType_view.
  - unfold getNode. by rewrite Heq.
  - intros v _. apply view_kept_same. by rewrite Heq.
  - intros q. unfold getNode. by rewrite Heq.
Qed.

Lemma InferExpectedScalarType_None_quiet `{External} (g : Graph) (n : NodeId)
    (w : list Warning) :
  InferExpectedScalarType g n = Ok (None, w) -> w = [].
Proof.
  intros Hinf.
  destruct (InferExpectedScalarType_inv _ _ _ Hinf) as (ts & ss & tens & Hc & Hout).
  rewrite (InferExpectedScalarType_unfold _ _ _ _ _ Hc Hout) in Hinf.
  destruct (IsComparisonOp _); [by injection Hinf|].
  destruct (forallb _ _); [by injection Hinf|].
  destruct (scalarType tens); [by injection Hinf|].
  destruct ts; [by injection Hinf|discriminate].
Qed.

(** X15: on a graph in which inference finds no type for any node of the
    whitelist, the pass changes no node and makes none, and it writes no
    warning: whatever changes is what the dead code elimination unlinks. *)
Theorem pass_without_types_changes_nothing `{E : External} `{!DCELaws E}
    (fuel : nat) (g : Graph) (s' : PassState) :
  (forall n, IsImplicitCastSupported (n_kind (getNode g n)) = true ->
             exists w, InferExpectedScalarType g n = Ok (None, w)) ->
  ScalarTypeAnalysisForONNX fuel g = Ok s' ->
  g_nodes (ps_graph s') = g_nodes g
  /\ ps_cerr s' = []
  /\ forall e, e ∈ ps_inferred s' -> e.2 = None.
Proof.
  unfold ScalarTypeAnalysisForONNX. intros Hnone Hrun.
  eapply (ImplicitCastForONNX_invariant
            (fun s => g_nodes (ps_graph s) = g_nodes g
               /\ ps_cerr s = []
               /\ forall e, e ∈ ps_inferred s -> e.2 = None)); [| |exact Hrun|].
  - intros s it s1 (Hg & Hcerr & Hlog) Hv. unfold visit_node in Hv.
    assert (Hget : getNode (ps_graph s) it = getNode g it)
      by (unfold getNode; by rewrite Hg).
    rewrite Hget in Hv.
    destruct (IsImplicitCastSupported (n_kind (getNode g it))) eqn:Hsup;
      [|by injection Hv as <-].
    destruct (Hnone it Hsup) as [w Hinf].
    rewrite (InferExpectedScalarType_store g (ps_graph s) it Hg), Hinf in Hv.
    simpl in Hv. injection Hv as <-. simpl.
    rewrite Hcerr, (InferExpectedScalarType_None_quiet _ _ _ Hinf).
    repeat (split; [done|]).
    intros e [He|He]%elem_of_app; [by apply Hlog|].
    apply list_elem_of_singleton in He. by subst e.
  - intros s block (Hg & Hcerr & Hlog). simpl. by rewrite dce_nodes.
  - simpl. repeat (split; [done|]). intros e He. by apply not_elem_of_nil in He.
Qed.

Lemma pass_without_types_changes_nothing_witness :
  exists s',
    ScalarTypeAnalysisForONNX (H := sample_external) 1 g_add_unknown = Ok s'
    /\ g_nodes (ps_graph s') = g_nodes g_add_unknown
    /\ ps_cerr s' = []
    /\ forall e, e ∈ ps_inferred s' -> e.2 = None.
Proof.
  destruct (ScalarTypeAnalysisForONNX (H := sample_external) 1 g_add_unknown)
    as [s'|] eqn:Hrun; [|vm_compute in Hrun; discriminate].
  exists s'. split; [reflexivity|].
  apply (pass_without_types_changes_nothing (E := sample_external) 1
           g_add_unknown s'); [|exact Hrun].
  intros n Hsup.
  destruct (decide (n = 1)) as [->|Hne]; [eexists; vm_compute; reflexivity|].
  exfalso. destruct (supported_in_store _ _ Hsup) as [nd Hnd].
  rewrite (getNode_lookup _ _ _ Hnd) in Hsup.
  unfold g_add_unknown, graph_of in Hnd. cbn [g_nodes list_to_map foldr] in Hnd.
  simpl in Hnd.
  destruct (decide (n = 0)) as [->|Hn0].
  - rewrite lookup_insert_eq in Hnd. injection Hnd as <-. discriminate.
  - rewrite lookup_insert_ne, lookup_insert_ne, lookup_empty in Hnd by done.
    discriminate.
Defined.

Lemma InferExpectedScalarType_warnings `{External} (g : Graph) (n : NodeId)
    (r : option ScalarType) (w : list Warning) :
  IsImplicitCastSupported (n_kind (getNode g n)) = true ->
  InferExpectedScalarType g n = Ok (r, w) ->
  Forall warning_justified w.
Proof.
  intros Hsup Hinf.
  destruct (InferExpectedScalarType_inv _ _ _ Hinf) as (ts & ss & tens & Hc & Hout).
  rewrite (InferExpectedScalarType_unfold _ _ _ _ _ Hc Hout) in Hinf.
  pose proof (supported_kind_cases _ Hsup) as Hcases.
  destruct (IsComparisonOp _); [injection Hinf as _ <-; constructor|].
  destruct (forallb _ _); [injection Hinf as _ <-; constructor|].
  destruct (scalarType tens); [injection Hinf as _ <-; constructor|].
  destruct ts; [injection Hinf as _ <-; constructor|].
  injection Hinf as _ <-.
  match goal with |- Forall _ (if ?b then _ else _) => destruct b end;
    constructor; [|constructor].
  simpl. by rewrite <- Hcases.
Qed.

Lemma UpdateScalarTypeForInputs_warnings `{External} (g g1 : Graph) (n : NodeId)
    (st : ScalarType) (w : list Warning) :
  IsImplicitCastSupported (n_kind (getNode g n)) = true ->
  UpdateScalarTypeForInputs g n st = Ok (g1, w) ->
  Forall warning_justified w.
Proof.
  intros Hsup Hu. unfold UpdateScalarTypeForInputs in Hu.
  destruct (ScalarTypeToONNXType st <? 0)%Z eqn:Hcode.
  - injection Hu as _ <-. constructor; [|constructor]. simpl. split; [|done].
    destruct (decide (ScalarTypeToONNXType st = (-1)%Z)) as [|Hne]; [done|].
    apply supported_code in Hne. congruence.
  - apply bind_Ok in Hu as (g' & _ & Hret). injection Hret as _ <-. constructor.
Qed.

(** X16: every warning the pass writes is justified by the code: a mismatch
    of tensor types is reported for a STANDARD operator only, never for a
    comparison, and a type is reported as not supported only when it has no
    wire-format code, for an operator of the whitelist. *)
Theorem pass_warnings_justified `{External} (fuel : nat) (g : Graph)
    (s' : PassState) :
  ScalarTypeAnalysisForONNX fuel g = Ok s' ->
  Forall warning_justified (ps_cerr s').
Proof.
  unfold ScalarTypeAnalysisForONNX. intros Hrun.
  eapply (ImplicitCastForONNX_invariant
            (fun s => Forall warning_justified (ps_cerr s)));
    [| |exact Hrun|constructor].
  - intros s it s1 Hs Hv. unfold visit_node in Hv.
    destruct (IsImplicitCastSupported (n_kind (getNode (ps_graph s) it))) eqn:Hsup;
      [|by injection Hv as <-].
    apply bind_Ok in Hv as ([inferred w] & Hinf & Hv). simpl in Hv.
    pose proof (InferExpectedScalarType_warnings _ _ _ _ Hsup Hinf) as Hw.
    destruct inferred as [st|].
    + apply bind_Ok in Hv as ([g1 w1] & Hupd & Hv). simpl in Hv.
      apply bind_Ok in Hv as (g2 & _ & Hv). injection Hv as <-. simpl.
      pose proof (UpdateScalarTypeForInputs_warnings _ _ _ _ _ Hsup Hupd) as Hw1.
      by repeat (apply Forall_app; split).
    + injection Hv as <-. simpl. by apply Forall_app.
  - intros s block Hs. exact Hs.
Qed.

Lemma pass_warnings_justified_witness :
  exists s',
    ScalarTypeAnalysisForONNX (H := sample_external) 1 g_add_bfloat_float = Ok s'
    /\ ps_cerr s' <> []
    /\ Forall warning_justified (ps_cerr s').
Proof.
  destruct (ScalarTypeAnalysisForONNX (H := sample_external) 1 g_add_bfloat_float)
    as [s'|] eqn:Hrun; [|vm_compute in Hrun; discriminate].
  exists s'. split; [reflexivity|]. split.
  - pose proof Hrun as Hc. vm_compute in Hc. injection Hc as <-. discriminate.
  - exact (pass_warnings_justified (H := sample_external) 1 g_add_bfloat_float
             s' Hrun).
Defined.

(** ** One turn of the loop over the inputs, and the loop *)

(** X17: on a node [n] that is linked in a block (what [insertBefore(n)]
    asks for), a turn of the loop of [UpdateScalarTypeForInputs] fails on
    reading the input only: it succeeds exactly when the position holds an
    input that carries a tensor annotation (asked of a Constant input too,
    before its kind is looked at) and whose producer, when a Constant, holds
    a tensor under "value". *)
Theorem update_input_succeeds_iff `{External} (g : Graph) (n : NodeId)
    (st : ScalarType) (onnx_type : Z) (i : nat) :
  linked g n ->
  (exists g', update_input n st onnx_type g i = Ok g')
  <-> exists input, n_inputs (getNode g n) !! i = Some input
                    /\ input_typed g input = true.
Proof.
  intros _. split.
  - intros [g' Hu]. unfold update_input, Node_input in Hu.
    destruct (n_inputs (getNode g n) !! i) as [input|]; [|discriminate].
    exists input. split; [done|]. simpl in Hu.
    unfold input_typed, is_tensor_typed, is_constant, has_tensor_value.
    destruct (Value_type g input) as [[tens|]|]; try discriminate.
    simpl in Hu. unfold Node_t in Hu.
    destruct (bool_decide (n_kind (getNode g (Value_node input)) = onnx_Constant));
      [|done].
    simpl in Hu.
    by destruct (n_attrs (getNode g (Value_node input)) !! attr_value) as [[?| |]|].
  - intros (input & Hi & Hok).
    assert (Hn : is_Some (g_nodes g !! n)).
    { destruct (g_nodes g !! n) eqn:Hn; [eauto|].
      rewrite (getNode_fresh _ _ Hn) in Hi. simpl in Hi.
      by rewrite lookup_nil in Hi. }
    unfold input_typed, is_tensor_typed, is_constant, has_tensor_value in Hok.
    apply andb_true_iff in Hok as [Hty Hval].
    destruct (Value_type g input) as [[tens|]|] eqn:Htens; try discriminate.
    destruct (decide (n_kind (getNode g (Value_node input)) = onnx_Constant))
      as [Hk|Hk].
    + rewrite (bool_decide_eq_true_2 _ Hk) in Hval.
      destruct (n_attrs (getNode g (Value_node input)) !! attr_value)
        as [[val| |]|] eqn:Hattr; try discriminate.
      eexists. by eapply update_input_constant_eq.
    + destruct (scalarType tens) as [t|] eqn:Ht.
      * destruct (decide (t = st)) as [->|Hne].
        -- eexists. eapply update_input_keep_eq; eauto.
        -- eexists. by eapply update_input_cast_eq.
      * eexists. eapply update_input_keep_eq; eauto.
Qed.

Lemma update_input_succeeds_iff_witness :
  exists g',
    update_input (H := sample_external) 1 kFloat (ScalarTypeToONNXType kFloat)
      g_add_float_int 1 = Ok g'.
Proof.
  assert (Hlinked : linked g_add_float_int 1).
  { exists 0. change (1 ∈ [1]). apply list_elem_of_In. simpl. auto. }
  apply (update_input_succeeds_iff (H := sample_external) g_add_float_int 1
           kFloat (ScalarTypeToONNXType kFloat) 1 Hlinked).
  exists (mkValue 0 1). split; reflexivity.
Defined.

(** X18: after [UpdateScalarTypeForInputs] for a type that has a
    wire-format code, on a node of the whitelist, no warning is written and
    every input of the node agrees with the type: it carries a tensor
    annotation whose element type is unknown or the type, and when its
    producer is a Constant, that Constant holds a literal of the type under
    the annotation made from the literal. *)
Theorem UpdateScalarTypeForInputs_settles `{External} (g g1 : Graph) (n : NodeId)
    (st : ScalarType) (w : list Warning) :
  IsImplicitCastSupported (n_kind (getNode g n)) = true ->
  ScalarTypeToONNXType st <> (-1)%Z ->
  UpdateScalarTypeForInputs g n st = Ok (g1, w) ->
  w = []
  /\ forall v, v ∈ n_inputs (getNode g1 n) ->
       (exists tens, Value_type g1 v = Some (TensorT tens)
                     /\ (scalarType tens = None \/ scalarType tens = Some st))
       /\ (forall t, known_scalar_type g1 v = Some t -> t = st)
       /\ (n_kind (getNode g1 (Value_node v)) = onnx_Constant ->
           exists val, scalar_type val = st
                       /\ getNode g1 (Value_node v) = constant_node val).
Proof.
  intros Hsup Hcode Hu.
  destruct (UpdateScalarTypeForInputs_spec _ _ _ _ _
              (supported_in_store _ _ Hsup) Hsup Hu)
    as (_ & _ & _ & _ & _ & Hall).
  split.
  - unfold UpdateScalarTypeForInputs in Hu.
    apply supported_code in Hcode. rewrite Hcode in Hu.
    apply bind_Ok in Hu as (g' & _ & Hret). by injection Hret as _ <-.
  - intros v Hv. specialize (Hall Hcode). rewrite Forall_forall in Hall.
    pose proof (Hall v Hv) as Hset. pose proof Hset as [Hty Hconst].
    split; [done|]. split; [|done].
    intros t Ht. by eapply input_settled_known.
Qed.

Lemma UpdateScalarTypeForInputs_settles_witness :
  exists g1 w,
    UpdateScalarTypeForInputs (H := sample_external) g_greater_float_const 2 kDouble
    = Ok (g1, w)
    /\ w = []
    /\ forall v, v ∈ n_inputs (getNode g1 2) ->
         forall t, known_scalar_type g1 v = Some t -> t = kDouble.
Proof.
  destruct (UpdateScalarTypeForInputs (H := sample_external)
              g_greater_float_const 2 kDouble)
    as [[g1 w]|] eqn:Hu; [|vm_compute in Hu; discriminate].
  exists g1, w. split; [reflexivity|].
  destruct (UpdateScalarTypeForInputs_settles (H := sample_external)
              g_greater_float_const g1 2 kDouble w) as [Hw Hall];
    [reflexivity|vm_compute; discriminate|exact Hu|].
  split; [done|]. intros v Hv. by destruct (Hall v Hv) as (_ & Hk & _).
Defined.

(** X19: a visit reaches a fixed point of inference: when the promotion of
    two types is associative, commutative and idempotent, inference on a
    node that has just been visited yields again the type that the visit
    inferred, or again none. *)
Theorem visit_node_fixes_inference `{E : External} `{!PromoteLaws E}
    (s s' : PassState) (it : NodeId) (r : option ScalarType) (w : list Warning) :
  IsImplicitCastSupported (n_kind (getNode (ps_graph s) it)) = true ->
  InferExpectedScalarType (ps_graph s) it = Ok (r, w) ->
  visit_node s it = Ok s' ->
  exists w', InferExpectedScalarType (ps_graph s') it = Ok (r, w').
Proof.
  intros Hsup Hinf Hv.
  by destruct (visit_settles _ _ _ _ _ Hsup Hinf Hv) as (_ & Hinf' & _).
Qed.

Lemma visit_node_fixes_inference_witness :
  exists s' w',
    visit_node (H := sample_external) (mkPassState g_greater_float_const [] []) 2
    = Ok s'
    /\ InferExpectedScalarType (H := sample_external) (ps_graph s') 2
       = Ok (Some kDouble, w').
Proof.
  destruct (visit_node (H := sample_external)
              (mkPassState g_greater_float_const [] []) 2)
    as [s'|] eqn:Hv; [|vm_compute in Hv; discriminate].
  destruct (visit_node_fixes_inference (E := sample_external)
              (mkPassState g_greater_float_const [] []) s' 2 (Some kDouble) [])
    as [w' Hw']; [reflexivity|vm_compute; reflexivity|exact Hv|].
  exists s', w'. split; [reflexivity|exact Hw'].
Defined.

(** * The rewriting of the inputs, the inference and the two runs, exactly *)

(** ** The exact effect of the rewriting of the inputs *)

Lemma made_in_order_fresh (news : list NodeId) :
  forall (D : gset NodeId) (c : NodeId),
    made_in_order D news -> c ∈ news -> c ∉ D.
Proof.
  induction news as [|a news IH]; intros D c Hm Hc; [by apply not_elem_of_nil in Hc|].
  destruct Hm as [-> Hrest].
  apply elem_of_cons in Hc as [->|Hc]; [apply is_fresh|].
  intros Hin. apply (IH _ _ Hrest Hc). set_solver.
Qed.

Lemma made_in_order_snoc (news : list NodeId) :
  forall D : gset NodeId,
    made_in_order D news ->
    made_in_order D (news ++ [fresh (list_to_set news ∪ D)]).
Proof.
  induction news as [|a news IH]; intros D Hm; simpl.
  - split; [|done]. f_equal. set_solver.
  - destruct Hm as [-> Hrest]. split; [done|].
    replace ({[fresh D]} ∪ list_to_set news ∪ D)
      with (list_to_set news ∪ ({[fresh D]} ∪ D)) by set_solver.
    by apply IH.
Qed.

Lemma linked_in_a_row_refl (n : NodeId) (g : Graph) : linked_in_a_row n g g [].
Proof.
  split; [done|]. split; [set_solver|].
  intros b. split; [done|].
  destruct (decide (n ∈ b_nodes (getBlock g b))) as [Hin|Hout]; [|by left].
  right. apply list_elem_of_split_l in Hin as (l1 & l2 & Heq & Hn1).
  exists l1, l2. by rewrite Heq.
Qed.

Lemma splice_row (n : NodeId) (g gx : Graph) (input : Value) (nd : Node)
    (news : list NodeId) :
  is_Some (g_nodes g !! n) -> is_Some (g_nodes gx !! n) ->
  linked_in_a_row n g gx news ->
  linked_in_a_row n g (splice_before gx n input nd)
    (news ++ [fresh (dom (g_nodes gx))]).
Proof.
  intros Hn0 Hn (Hmade & Hdom & Hbs).
  split; [rewrite Hdom; by apply made_in_order_snoc|].
  split.
  { rewrite (splice_dom gx n input nd Hn), Hdom, list_to_set_app_L. set_solver. }
  intros b. rewrite splice_getBlock. cbn [b_nodes b_return].
  destruct (Hbs b) as [Hret Hcases]. split; [done|].
  destruct Hcases as [[Hout Heq]|(l1 & l2 & Heq & Hn1 & Heq')].
  - left. split; [done|]. rewrite Heq. by apply insert_before_absent.
  - right. exists l1, l2. split; [done|]. split; [done|].
    rewrite Heq', app_assoc, insert_before_split; [by rewrite <- !app_assoc|].
    intros [Hin|Hin]%elem_of_app; [done|].
    apply (made_in_order_fresh _ _ _ Hmade) in Hin.
    apply Hin. by apply elem_of_dom.
Qed.

Lemma UpdateScalarTypeForInputs_row `{External} (g g1 : Graph) (n : NodeId)
    (st : ScalarType) (w : list Warning) :
  UpdateScalarTypeForInputs g n st = Ok (g1, w) ->
  exists news, linked_in_a_row n g g1 news.
Proof.
  intros Hu. unfold UpdateScalarTypeForInputs in Hu.
  destruct (ScalarTypeToONNXType st <? 0)%Z;
    [injection Hu as <- _; exists []; apply linked_in_a_row_refl|].
  apply bind_Ok in Hu as (g' & Hloop & Hret). injection Hret as -> _.
  destruct (g_nodes g !! n) as [nd|] eqn:Hn.
  2:{ rewrite (getNode_fresh _ _ Hn) in Hloop. simpl in Hloop.
      injection Hloop as <-. exists []. apply linked_in_a_row_refl. }
  cut (is_Some (g_nodes g1 !! n) /\ exists news, linked_in_a_row n g g1 news);
    [tauto|].
  eapply (foldlM_invariant
            (fun gx => is_Some (g_nodes gx !! n)
                       /\ exists news, linked_in_a_row n g gx news));
    [|exact Hloop|].
  - intros a k a' (Ha & news & Hrow) Hk.
    destruct (update_input_inv _ _ _ _ _ _ Ha Hk)
      as (input & tens & _ & _ & Hcases).
    destruct Hcases as [(_ & val & _ & ->)|[(_ & t & _ & _ & ->)|(_ & _ & ->)]];
      [| |eauto].
    + split; [by apply splice_keeps_producer|].
      eexists. apply splice_row; [by rewrite Hn|done|done].
    + split; [by apply splice_keeps_producer|].
      eexists. apply splice_row; [by rewrite Hn|done|done].
  - split; [by rewrite Hn|]. exists []. apply linked_in_a_row_refl.
Qed.



Lemma inputs_rewritten_view (n : NodeId) (st : ScalarType) (g gx : Graph)
    (m : NodeId) :
  inputs_rewritten n st g gx -> is_Some (g_nodes g !! m) ->
  n_kind (getNode gx m) = n_kind (getNode g m)
  /\ n_outputs (getNode gx m) = n_outputs (getNode g m)
  /\ n_attrs (getNode gx m) = n_attrs (getNode g m).
Proof.
  intros (_ & Hfr & Hk & Ho & Ha & _) [nd Hm].
  destruct (decide (m = n)) as [->|Hne]; [done|].
  by rewrite (getNode_lookup _ _ _ (Hfr _ _ Hne Hm)), (getNode_lookup _ _ _ Hm).
Qed.

Lemma inputs_rewritten_Value_type (n : NodeId) (st : ScalarType) (g gx : Graph)
    (v : Value) :
  inputs_rewritten n st g gx -> is_Some (g_nodes g !! Value_node v) ->
  Value_type gx v = Value_type g v.
Proof.
  intros Hinv Hv. unfold Value_type.
  by destruct (inputs_rewritten_view _ _ _ _ _ Hinv Hv) as (_ & -> & _).
Qed.

(** What the loop has made of an input stays so when a node is spliced in
    later. *)
Lemma input_rewritten_splice `{External} (n : NodeId) (st : ScalarType)
    (g gx : Graph) (input : Value) (nd : Node) (v v1 : Value) :
  is_Some (g_nodes g !! n) -> is_Some (g_nodes gx !! n) ->
  input_rewritten g gx st v v1 ->
  input_rewritten g (splice_before gx n input nd) st v v1.
Proof.
  intros Hn0 Hn. unfold input_rewritten.
  assert (Hkeep : forall rec,
            g_nodes g !! Value_node v1 = None ->
            g_nodes gx !! Value_node v1 = Some rec ->
            g_nodes (splice_before gx n input nd) !! Value_node v1 = Some rec).
  { intros rec Hnew Hrec. rewrite splice_lookup_other; [done| |].
    - intros Heq. rewrite Heq in Hnew. destruct Hn0. congruence.
    - intros Heq. rewrite Heq, fresh_node_None in Hrec. discriminate. }
  destruct (g_nodes g !! Value_node v); [|done].
  destruct (Value_type g v) as [[tens|]|]; [|done|done].
  destruct (decide _).
  - intros (val & Hval & Hoff & Hnew & Hrec). exists val. eauto.
  - destruct (scalarType tens) as [t|]; [|done].
    destruct (decide (t = st)); [done|].
    intros (Hoff & Hnew & Hrec). eauto.
Qed.

(** An input that a turn leaves in place is an input that the loop has
    dealt with. *)
Lemma input_rewritten_kept `{External} (n : NodeId) (st : ScalarType)
    (g gx : Graph) (v : Value) (tens : TensorType) :
  inputs_rewritten n st g gx ->
  Value_type gx v = Some (TensorT tens) ->
  n_kind (getNode gx (Value_node v)) <> onnx_Constant ->
  scalarType tens = None \/ scalarType tens = Some st ->
  input_rewritten g gx st v v.
Proof.
  intros Hinv Hty Hk Hst. unfold input_rewritten.
  destruct (g_nodes g !! Value_node v) as [ndv|] eqn:Hndv; [|done].
  assert (Hv : is_Some (g_nodes g !! Value_node v)) by (by rewrite Hndv).
  rewrite (inputs_rewritten_Value_type _ _ _ _ _ Hinv Hv) in Hty.
  rewrite Hty.
  destruct (inputs_rewritten_view _ _ _ _ _ Hinv Hv) as (Hkind & _).
  rewrite Hkind in Hk. rewrite decide_False by done.
  destruct (scalarType tens) as [t|]; [|done].
  destruct Hst as [?|[= ->]]; [done|]. by rewrite decide_True.
Qed.

(** The input that a turn replaces, and every input that reads the same
    value, is then an input that the loop has dealt with. *)
Lemma input_rewritten_replaced `{External} (n : NodeId) (st : ScalarType)
    (g gx : Graph) (input v : Value) (tens : TensorType) (nd : Node) :
  is_Some (g_nodes g !! n) ->
  inputs_rewritten n st g gx ->
  Value_type gx input = Some (TensorT tens) ->
  (n_kind (getNode gx (Value_node input)) = onnx_Constant
   /\ exists val,
        n_attrs (getNode gx (Value_node input)) !! attr_value
          = Some (AttrTensor val)
        /\ nd = mkNode onnx_Constant []
                  [TensorT (TensorType_create (Tensor_to val st))]
                  {[ attr_value := AttrTensor (Tensor_to val st) ]} [])
  \/ (n_kind (getNode gx (Value_node input)) <> onnx_Constant
      /\ exists t,
           scalarType tens = Some t /\ t <> st
           /\ nd = mkNode onnx_Cast [input]
                     [TensorT (CreateProfiledTensorTypeWithScalarType tens st)]
                     {[ attr_to := AttrInt (ScalarTypeToONNXType st) ]} []) ->
  input = v \/ input_rewritten g gx st v input ->
  input_rewritten g (splice_before gx n input nd) st v
    (mkValue (fresh (dom (g_nodes gx))) 0).
Proof.
  intros Hn0 Hinv Hty Hstep Hcur. pose proof Hinv as (Hn & Hfr & _).
  assert (Hc0 : g_nodes g !! fresh (dom (g_nodes gx)) = None).
  { destruct (g_nodes g !! fresh (dom (g_nodes gx))) as [x|] eqn:Hx; [|done].
    apply (Hfr _ _ (splice_fresh_ne gx n Hn)) in Hx.
    by rewrite fresh_node_None in Hx. }
  pose proof (splice_lookup_new gx n input nd Hn) as Hnew.
  unfold input_rewritten in *. cbn [Value_node Value_offset].
  destruct (g_nodes g !! Value_node v) as [ndv|] eqn:Hndv; [|done].
  assert (Hv : is_Some (g_nodes g !! Value_node v)) by (by rewrite Hndv).
  destruct (inputs_rewritten_view _ _ _ _ _ Hinv Hv) as (Hkind & _ & Hattr).
  pose proof (inputs_rewritten_Value_type _ _ _ _ _ Hinv Hv) as Htyv.
  destruct (Value_type g v) as [[tg|]|] eqn:Htg.
  2,3: destruct Hcur as [->|[]]; congruence.
  (* the case where the value read is the original input *)
  assert (Horig : input = v ->
    if decide (n_kind (getNode g (Value_node v)) = onnx_Constant)
    then exists val,
           n_attrs (getNode g (Value_node v)) !! attr_value = Some (AttrTensor val)
           /\ 0 = 0 /\ g_nodes g !! fresh (dom (g_nodes gx)) = None
           /\ g_nodes (splice_before gx n input nd) !! fresh (dom (g_nodes gx))
              = Some (mkNode onnx_Constant []
                        [TensorT (TensorType_create (Tensor_to val st))]
                        {[ attr_value := AttrTensor (Tensor_to val st) ]} [])
    else match scalarType tg with
         | Some t =>
             if decide (t = st)
             then mkValue (fresh (dom (g_nodes gx))) 0 = v
             else 0 = 0 /\ g_nodes g !! fresh (dom (g_nodes gx)) = None
                  /\ g_nodes (splice_before gx n input nd) !! fresh (dom (g_nodes gx))
                     = Some (mkNode onnx_Cast [v]
                               [TensorT (CreateProfiledTensorTypeWithScalarType tg st)]
                               {[ attr_to := AttrInt (ScalarTypeToONNXType st) ]} [])
         | None => mkValue (fresh (dom (g_nodes gx))) 0 = v
         end).
  { intros ->. rewrite Htyv in Hty. injection Hty as ->.
    rewrite Hkind, Hattr in Hstep.
    destruct Hstep as [(Hk & val & Hval & ->)|(Hk & t & Ht & Hne & ->)].
    - rewrite decide_True by done. exists val. by rewrite Hnew.
    - rewrite decide_False by done. rewrite Ht, decide_False by done.
      by rewrite Hnew. }
  destruct Hcur as [Heq|Hcur]; [by apply Horig|].
  destruct (decide (n_kind (getNode g (Value_node v)) = onnx_Constant)) as [Hkc|Hkc].
  - destruct Hcur as (valv & Hvalv & Hoff & Hnewv & Hrec).
    exists valv. split; [done|]. split; [done|]. split; [done|].
    rewrite Hnew. f_equal.
    destruct Hstep as [(Hk & val & Hval & ->)|(Hk & _)].
    + rewrite (getNode_lookup _ _ _ Hrec) in Hval. simpl in Hval.
      rewrite lookup_singleton_eq in Hval. injection Hval as <-.
      assert (Hidem : Tensor_to (Tensor_to valv st) st = Tensor_to valv st).
      { rewrite <- (Tensor_to_scalar_type valv st) at 2. apply Tensor_to_same. }
      by rewrite Hidem.
    + by rewrite (getNode_lookup _ _ _ Hrec) in Hk.
  - destruct (scalarType tg) as [t|] eqn:Ht; [|by apply Horig].
    destruct (decide (t = st)) as [->|Hne]; [by apply Horig|].
    exfalso. destruct Hcur as (Hoff & Hnewv & Hrec).
    unfold Value_type in Hty. rewrite (getNode_lookup _ _ _ Hrec), Hoff in Hty.
    simpl in Hty. injection Hty as <-.
    destruct Hstep as [(Hk & _)|(_ & t' & Ht' & Hne' & _)].
    + by rewrite (getNode_lookup _ _ _ Hrec) in Hk.
    + simpl in Ht'. congruence.
Qed.

(** One turn of the loop, position by position: an input that the loop has
    dealt with stays so, an input that still is the original one is still
    the original one or has been dealt with, and the input of the turn has
    been dealt with. *)
Lemma update_input_exact `{External} (g gx gx' : Graph) (n : NodeId)
    (st : ScalarType) (k : nat) :
  is_Some (g_nodes g !! n) ->
  inputs_rewritten n st g gx ->
  update_input n st (ScalarTypeToONNXType st) gx k = Ok gx' ->
  forall j v cur',
    n_inputs (getNode gx' n) !! j = Some cur' ->
    exists cur,
      n_inputs (getNode gx n) !! j = Some cur
      /\ (cur = v \/ input_rewritten g gx st v cur ->
          cur' = v \/ input_rewritten g gx' st v cur')
      /\ (input_rewritten g gx st v cur -> input_rewritten g gx' st v cur')
      /\ (j = k -> cur = v \/ input_rewritten g gx st v cur ->
          input_rewritten g gx' st v cur').
Proof.
  intros Hn0 Hinv Hu j v cur' Hcur'. pose proof Hinv as (Hn & _).
  destruct (update_input_inv _ _ _ _ _ _ Hn Hu)
    as (input & tens & Hi & Hty & Hcases).
  assert (Hsplice : forall nd,
    (n_kind (getNode gx (Value_node input)) = onnx_Constant
     /\ exists val,
          n_attrs (getNode gx (Value_node input)) !! attr_value
            = Some (AttrTensor val)
          /\ nd = mkNode onnx_Constant []
                    [TensorT (TensorType_create (Tensor_to val st))]
                    {[ attr_value := AttrTensor (Tensor_to val st) ]} [])
    \/ (n_kind (getNode gx (Value_node input)) <> onnx_Constant
        /\ exists t,
             scalarType tens = Some t /\ t <> st
             /\ nd = mkNode onnx_Cast [input]
                       [TensorT (CreateProfiledTensorTypeWithScalarType tens st)]
                       {[ attr_to := AttrInt (ScalarTypeToONNXType st) ]} []) ->
    gx' = splice_before gx n input nd ->
    exists cur,
      n_inputs (getNode gx n) !! j = Some cur
      /\ (cur = v \/ input_rewritten g gx st v cur ->
          cur' = v \/ input_rewritten g gx' st v cur')
      /\ (input_rewritten g gx st v cur -> input_rewritten g gx' st v cur')
      /\ (j = k -> cur = v \/ input_rewritten g gx st v cur ->
          input_rewritten g gx' st v cur')).
  { intros nd Hstep ->.
    rewrite (splice_getNode_consumer gx n input nd) in Hcur'.
    cbn [n_inputs] in Hcur'. rewrite list_lookup_fmap in Hcur'.
    destruct (n_inputs (getNode gx n) !! j) as [cur|] eqn:Hcur; [|done].
    simpl in Hcur'. injection Hcur' as <-. exists cur. split; [done|].
    unfold replace_value. destruct (decide (cur = input)) as [->|Hne].
    - assert (Hall : input = v \/ input_rewritten g gx st v input ->
                     input_rewritten g (splice_before gx n input nd) st v
                       (mkValue (fresh (dom (g_nodes gx))) 0))
        by (apply (input_rewritten_replaced n st g gx input v tens nd); done).
      split; [intros Hc; right; by apply Hall|].
      split; [intros Hc; apply Hall; by right|].
      intros _ Hc. by apply Hall.
    - split.
      { intros [->|Hc]; [by left|right].
        by apply input_rewritten_splice. }
      split; [by apply input_rewritten_splice|].
      intros -> _. congruence. }
  destruct Hcases as [(Hk & val & Hval & ->)|[(Hk & t & Ht & Hne & ->)|(Hk & Hst & ->)]].
  - eapply Hsplice; [|reflexivity]. left. eauto.
  - eapply Hsplice; [|reflexivity]. right. split; [done|]. eauto.
  - exists cur'. split; [done|]. split; [done|]. split; [done|].
    intros -> [Heq|Hc]; [subst v|done].
    assert (Hci : cur' = input) by congruence. subst cur'.
    by apply (input_rewritten_kept n st g gx input tens).
Qed.

Lemma update_loop_exact `{External} (g : Graph) (n : NodeId) (st : ScalarType)
    (m : nat) :
  forall (k : nat) (gx g1 : Graph),
    is_Some (g_nodes g !! n) ->
    ScalarTypeToONNXType st <> (-1)%Z ->
    inputs_rewritten n st g gx ->
    (forall j v cur, n_inputs (getNode g n) !! j = Some v ->
                     n_inputs (getNode gx n) !! j = Some cur ->
                     cur = v \/ input_rewritten g gx st v cur) ->
    (forall j v cur, j < k -> n_inputs (getNode g n) !! j = Some v ->
                     n_inputs (getNode gx n) !! j = Some cur ->
                     input_rewritten g gx st v cur) ->
    foldlM (update_input n st (ScalarTypeToONNXType st)) gx (seq k m) = Ok g1 ->
    inputs_rewritten n st g g1
    /\ forall j v cur, j < k + m -> n_inputs (getNode g n) !! j = Some v ->
                       n_inputs (getNode g1 n) !! j = Some cur ->
                       input_rewritten g g1 st v cur.
Proof.
  induction m as [|m IH]; intros k gx g1 Hn0 Hcode Hinv Hpart Hdone Hloop.
  - injection Hloop as <-. split; [done|].
    intros j v cur Hj. apply Hdone. lia.
  - simpl in Hloop.
    destruct (update_input n st (ScalarTypeToONNXType st) gx k) as [gx'|] eqn:Hstep;
      [|discriminate].
    pose proof (update_input_rewritten g gx gx' n st k Hn0 Hcode Hinv Hstep)
      as Hinv'.
    pose proof (update_input_exact g gx gx' n st k Hn0 Hinv Hstep) as Hex.
    destruct (IH (S k) gx' g1) as (Hinv1 & Hall); try done.
    + intros j v cur' Hv Hcur'.
      destruct (Hex j v cur' Hcur') as (cur & Hcur & H1 & _).
      apply H1. by apply (Hpart j).
    + intros j v cur' Hj Hv Hcur'.
      destruct (Hex j v cur' Hcur') as (cur & Hcur & _ & H2 & H3).
      destruct (decide (j = k)) as [->|Hjk].
      * apply H3; [done|]. by apply (Hpart k).
      * apply H2. apply (Hdone j); [lia|done|done].
    + split; [done|]. intros j v cur Hj. apply Hall. lia.
Qed.

(** The inputs of [n] after [UpdateScalarTypeForInputs], one by one, when the
    target type has a wire-format code: what [input_rewritten] says of the
    input the node had at that position. *)
Lemma UpdateScalarTypeForInputs_exact `{External} (g g1 : Graph) (n : NodeId)
    (st : ScalarType) (w : list Warning) :
  ScalarTypeToONNXType st <> (-1)%Z ->
  UpdateScalarTypeForInputs g n st = Ok (g1, w) ->
  Forall2 (input_rewritten g g1 st)
    (n_inputs (getNode g n)) (n_inputs (getNode g1 n)).
Proof.
  intros Hcode Hu. unfold UpdateScalarTypeForInputs in Hu.
  rewrite (proj2 (supported_code st) Hcode) in Hu.
  apply bind_Ok in Hu as (g' & Hloop & Hret). injection Hret as -> _.
  destruct (g_nodes g !! n) as [nd|] eqn:Hn.
  2:{ rewrite (getNode_fresh _ _ Hn) in Hloop. simpl in Hloop.
      injection Hloop as <-. rewrite (getNode_fresh _ _ Hn). constructor. }
  assert (Hn0 : is_Some (g_nodes g !! n)) by (by rewrite Hn).
  destruct (update_loop_exact g n st (length (n_inputs (getNode g n))) 0 g g1
              Hn0 Hcode (inputs_rewritten_refl _ _ _ Hn0)) as (Hinv & Hall).
  - intros j v cur Hv Hcur. left. congruence.
  - intros j v cur Hj. lia.
  - done.
  - destruct Hinv as (_ & _ & _ & _ & _ & _ & (f & Hf & _) & _).
    apply Forall2_same_length_lookup_2; [by rewrite Hf, length_fmap|].
    intros j v cur Hv Hcur. apply (Hall j); [|done|done].
    apply lookup_lt_Some in Hv. lia.
Qed.

(** What [UpdateScalarTypeForInputs] makes of a graph for a type that has a
    wire-format code, in one statement: the nodes it makes and where it
    links them, what it makes of every input of [n], and what it leaves. *)
Lemma UpdateScalarTypeForInputs_effect `{External} (g g1 : Graph) (n : NodeId)
    (st : ScalarType) (w : list Warning) :
  ScalarTypeToONNXType st <> (-1)%Z ->
  UpdateScalarTypeForInputs g n st = Ok (g1, w) ->
  exists news,
    linked_in_a_row n g g1 news
    /\ Forall2 (input_rewritten g g1 st)
         (n_inputs (getNode g n)) (n_inputs (getNode g1 n))
    /\ (forall m, is_Some (g_nodes g !! m) ->
          is_Some (g_nodes g1 !! m)
          /\ n_kind (getNode g1 m) = n_kind (getNode g m)
          /\ n_outputs (getNode g1 m) = n_outputs (getNode g m)
          /\ n_attrs (getNode g1 m) = n_attrs (getNode g m))
    /\ (forall m, m <> n -> m ∉ news -> g_nodes g1 !! m = g_nodes g !! m)
    /\ (forall c, g_nodes g !! c = None -> is_Some (g_nodes g1 !! c) -> c ∈ news).
Proof.
  intros Hcode Hu.
  destruct (UpdateScalarTypeForInputs_row _ _ _ _ _ Hu) as (news & Hrow).
  exists news. split; [done|].
  split; [by eapply UpdateScalarTypeForInputs_exact|].
  destruct Hrow as (Hmade & Hdom & _).
  assert (Hin : forall c, g_nodes g !! c = None -> is_Some (g_nodes g1 !! c) ->
                          c ∈ news).
  { intros c Hc Hc1. apply elem_of_dom in Hc1. rewrite Hdom in Hc1.
    apply elem_of_union in Hc1 as [Hc1|Hc1]; [by apply elem_of_list_to_set in Hc1|].
    apply elem_of_dom in Hc1. rewrite Hc in Hc1. by destruct Hc1. }
  destruct (UpdateScalarTypeForInputs_rewritten _ _ _ _ _ Hu) as [->|[Hn0 Hinv]].
  { split; [done|]. split; [done|]. exact Hin. }
  split.
  { intros m Hm. split; [|by apply (inputs_rewritten_view n st)].
    destruct Hinv as (Hn & Hfr & _). destruct (decide (m = n)) as [->|Hne]; [done|].
    destruct Hm as [nd Hm]. rewrite (Hfr _ _ Hne Hm). eauto. }
  split; [|exact Hin].
  intros m Hmn Hm. destruct Hinv as (_ & Hfr & _).
  destruct (g_nodes g !! m) as [nd|] eqn:Hgm; [by apply Hfr|].
  destruct (g_nodes g1 !! m) as [nd1|] eqn:Hg1m; [|done].
  exfalso. apply Hm, Hin; [done|]. by rewrite Hg1m.
Qed.

Lemma row_keeps_members (n : NodeId) (g g1 : Graph) (news : list NodeId)
    (b : BlockId) (m : NodeId) :
  linked_in_a_row n g g1 news ->
  m ∈ b_nodes (getBlock g b) -> m ∈ b_nodes (getBlock g1 b).
Proof.
  intros (_ & _ & Hbs) Hm.
  destruct (Hbs b) as [_ [[_ ->]|(l1 & l2 & Heq & _ & ->)]]; [done|].
  rewrite Heq in Hm. set_solver.
Qed.

Lemma row_at (n : NodeId) (g g1 : Graph) (news : list NodeId)
    (b : BlockId) (l1 l2 : list NodeId) :
  linked_in_a_row n g g1 news ->
  b_nodes (getBlock g b) = l1 ++ n :: l2 -> n ∉ l1 ->
  b_nodes (getBlock g1 b) = l1 ++ news ++ n :: l2.
Proof.
  intros (_ & _ & Hbs) Heq Hn1.
  destruct (Hbs b) as [_ [[Hout _]|(l1' & l2' & Heq' & Hn1' & ->)]].
  - exfalso. apply Hout. rewrite Heq. set_solver.
  - rewrite Heq in Heq'.
    assert (Hl : l1 = l1' /\ l2 = l2').
    { clear -Heq' Hn1 Hn1'. revert l1' Heq' Hn1'.
      induction l1 as [|x l1 IH]; intros [|y l1'] Heq' Hn1'; simpl in *.
      - by injection Heq' as ->.
      - injection Heq' as <- _. exfalso. apply Hn1'. set_solver.
      - injection Heq' as -> _. exfalso. apply Hn1. set_solver.
      - injection Heq' as -> Heq'.
        destruct (IH ltac:(set_solver) l1' Heq' ltac:(set_solver)) as [-> ->].
        done. }
    by destruct Hl as [-> ->].
Qed.

(** ** The rewriting of the inputs, input by input *)

(** C5: [UpdateScalarTypeForInputs], called for a type [st] that has a
    wire-format code on a node [n] that is linked in a block, replaces every
    input of [n] whose producer is a Constant, whatever the element type of
    the stored literal (equal to [st] or not): when the call returns, the
    position reads output 0 of a node [c] that the graph did not have, a
    Constant without inputs whose attribute "value" holds the literal of the
    old Constant converted to [st] and whose output carries the annotation
    made from that literal, of element type [st].  The nodes the call makes
    are linked in the order in which they are made in a row that ends just
    before [n] ([insertBefore(n)] puts each of them immediately before [n],
    hence after those made before it), and [c] is one of them.  The old
    Constant is not removed: it keeps its place in the store and in its
    block, its kind and its literal; and no node other than [n] and the new
    ones changes. *)
Theorem UpdateScalarTypeForInputs_replaces_constants `{External} (g g1 : Graph)
    (n : NodeId) (st : ScalarType) (w : list Warning) :
  linked g n ->
  ScalarTypeToONNXType st <> (-1)%Z ->
  UpdateScalarTypeForInputs g n st = Ok (g1, w) ->
  exists news,
    made_in_order (dom (g_nodes g)) news
    /\ (exists b l1 l2,
          b_nodes (getBlock g b) = l1 ++ n :: l2 /\ n ∉ l1
          /\ b_nodes (getBlock g1 b) = l1 ++ news ++ n :: l2)
    /\ (forall b l1 l2,
          b_nodes (getBlock g b) = l1 ++ n :: l2 -> n ∉ l1 ->
          b_nodes (getBlock g1 b) = l1 ++ news ++ n :: l2)
    /\ (forall m, m <> n -> m ∉ news -> g_nodes g1 !! m = g_nodes g !! m)
    /\ forall i input,
         n_inputs (getNode g n) !! i = Some input ->
         n_kind (getNode g (Value_node input)) = onnx_Constant ->
         exists val c,
           n_attrs (getNode g (Value_node input)) !! attr_value
             = Some (AttrTensor val)
           /\ n_inputs (getNode g1 n) !! i = Some (mkValue c 0)
           /\ c ∈ news
           /\ g_nodes g !! c = None
           /\ g_nodes g1 !! c
              = Some (mkNode onnx_Constant []
                        [TensorT (TensorType_create (Tensor_to val st))]
                        {[ attr_value := AttrTensor (Tensor_to val st) ]} [])
           /\ scalar_type (Tensor_to val st) = st
           /\ known_scalar_type g1 (mkValue c 0) = Some st
           /\ is_Some (g_nodes g1 !! Value_node input)
           /\ n_kind (getNode g1 (Value_node input)) = onnx_Constant
           /\ n_attrs (getNode g1 (Value_node input)) !! attr_value
              = Some (AttrTensor val)
           /\ forall b, Value_node input ∈ b_nodes (getBlock g b) ->
                        Value_node input ∈ b_nodes (getBlock g1 b).
Proof.
  intros (b0 & Hb0) Hcode Hu.
  destruct (UpdateScalarTypeForInputs_effect _ _ _ _ _ Hcode Hu)
    as (news & Hrow & Hall & Hold & Hframe & Hnews).
  exists news. split; [by destruct Hrow|]. split.
  { apply list_elem_of_split_l in Hb0 as (l1 & l2 & Heq & Hn1).
    exists b0, l1, l2. split; [done|]. split; [done|].
    by apply (row_at n g g1 news). }
  split; [intros b l1 l2; by apply row_at|].
  split; [done|].
  intros i input Hi Hk.
  destruct (Forall2_lookup_l _ _ _ _ _ Hall Hi) as (v1 & Hv1 & Hrw).
  assert (Hp : is_Some (g_nodes g !! Value_node input))
    by (apply kind_in_store; by rewrite Hk).
  unfold input_rewritten in Hrw. destruct Hp as [ndp Hp]. rewrite Hp in Hrw.
  destruct (Value_type g input) as [[tens|]|]; [|done|done].
  rewrite decide_True in Hrw by done.
  destruct Hrw as (val & Hval & Hoff & Hnew & Hrec).
  destruct v1 as [c off]. simpl in Hoff, Hnew, Hrec. subst off.
  exists val, c. split; [done|]. split; [done|].
  split; [apply Hnews; [done|by rewrite Hrec]|].
  split; [done|]. split; [done|].
  split; [apply Tensor_to_scalar_type|].
  split.
  { unfold known_scalar_type, Value_type. simpl.
    rewrite (getNode_lookup _ _ _ Hrec). simpl.
    by rewrite Tensor_to_scalar_type. }
  destruct (Hold (Value_node input)) as (Hs & Hkind & _ & Hattr);
    [by rewrite Hp|].
  split; [done|]. split; [by rewrite Hkind|]. split; [by rewrite Hattr|].
  intros b. by apply (row_keeps_members n g g1 news).
Qed.

Lemma UpdateScalarTypeForInputs_replaces_constants_witness :
  exists g1 c,
    UpdateScalarTypeForInputs (H := sample_external) g_mul_float_const 2 kInt
    = Ok (g1, [])
    /\ n_inputs (getNode g1 2) !! 1 = Some (mkValue c 0)
    /\ g_nodes g1 !! c = Some (constant_node (mkTensor kInt [] [3%Z]))
    /\ g_nodes g_mul_float_const !! c = None
    /\ n_kind (getNode g1 1) = onnx_Constant
    /\ b_nodes (getBlock g1 0) = [1; 3; 4; 2].
Proof.
  destruct (UpdateScalarTypeForInputs (H := sample_external)
              g_mul_float_const 2 kInt)
    as [[g1 w]|] eqn:Hu; [|vm_compute in Hu; discriminate].
  assert (Hw : w = []) by (pose proof Hu as Hc; vm_compute in Hc; congruence).
  assert (Hlinked : linked g_mul_float_const 2).
  { exists 0. change (2 ∈ [1; 2]). apply list_elem_of_In. simpl. auto. }
  destruct (UpdateScalarTypeForInputs_replaces_constants (H := sample_external)
              g_mul_float_const g1 2 kInt w Hlinked ltac:(discriminate) Hu)
    as (news & _ & _ & _ & _ & Hpos).
  destruct (Hpos 1 (mkValue 1 0) eq_refl eq_refl)
    as (val & c & Hval & Hin & _ & Hnew & Hrec & _ & _ & _ & Hkind & _).
  injection Hval as <-.
  exists g1, c. subst w. split; [reflexivity|]. split; [exact Hin|].
  split; [exact Hrec|]. split; [exact Hnew|]. split; [exact Hkind|].
  pose proof Hu as Hc. vm_compute in Hc. injection Hc as <-. reflexivity.
Defined.

(** C6: [UpdateScalarTypeForInputs], called for a type [st] that has a
    wire-format code on a node [n] that is linked in a block, deals as
    follows with every input of [n] that carries a tensor annotation and
    whose producer is not a Constant.  When the annotated element type is
    known and is not [st], the position reads, when the call returns, output
    0 of a node [c] that the graph did not have: a Cast whose sole operand is
    that input, whose integer attribute "to" is the codec's code of [st] and
    whose output carries the annotation of the input with the element type
    [st].  When the annotation carries no element type, or carries [st], the
    position still reads the same input.  The nodes the call makes are linked
    in the order in which they are made in a row that ends just before [n]
    ([insertBefore(n)] puts each of them immediately before [n], hence after
    those made before it), and [c] is one of them; no node other than [n]
    and the new ones changes. *)
Theorem UpdateScalarTypeForInputs_inserts_casts `{External} (g g1 : Graph)
    (n : NodeId) (st : ScalarType) (w : list Warning) :
  linked g n ->
  ScalarTypeToONNXType st <> (-1)%Z ->
  UpdateScalarTypeForInputs g n st = Ok (g1, w) ->
  exists news,
    made_in_order (dom (g_nodes g)) news
    /\ (exists b l1 l2,
          b_nodes (getBlock g b) = l1 ++ n :: l2 /\ n ∉ l1
          /\ b_nodes (getBlock g1 b) = l1 ++ news ++ n :: l2)
    /\ (forall b l1 l2,
          b_nodes (getBlock g b) = l1 ++ n :: l2 -> n ∉ l1 ->
          b_nodes (getBlock g1 b) = l1 ++ news ++ n :: l2)
    /\ (forall m, m <> n -> m ∉ news -> g_nodes g1 !! m = g_nodes g !! m)
    /\ forall i input tens,
         n_inputs (getNode g n) !! i = Some input ->
         Value_type g input = Some (TensorT tens) ->
         n_kind (getNode g (Value_node input)) <> onnx_Constant ->
         (forall t, scalarType tens = Some t -> t <> st ->
            exists c,
              n_inputs (getNode g1 n) !! i = Some (mkValue c 0)
              /\ c ∈ news
              /\ g_nodes g !! c = None
              /\ g_nodes g1 !! c
                 = Some (mkNode onnx_Cast [input]
                           [TensorT (CreateProfiledTensorTypeWithScalarType tens st)]
                           {[ attr_to := AttrInt (ScalarTypeToONNXType st) ]} [])
              /\ known_scalar_type g1 (mkValue c 0) = Some st)
         /\ (scalarType tens = None \/ scalarType tens = Some st ->
             n_inputs (getNode g1 n) !! i = Some input).
Proof.
  intros (b0 & Hb0) Hcode Hu.
  destruct (UpdateScalarTypeForInputs_effect _ _ _ _ _ Hcode Hu)
    as (news & Hrow & Hall & Hold & Hframe & Hnews).
  exists news. split; [by destruct Hrow|]. split.
  { apply list_elem_of_split_l in Hb0 as (l1 & l2 & Heq & Hn1).
    exists b0, l1, l2. split; [done|]. split; [done|].
    by apply (row_at n g g1 news). }
  split; [intros b l1 l2; by apply row_at|].
  split; [done|].
  intros i input tens Hi Hty Hk.
  destruct (Forall2_lookup_l _ _ _ _ _ Hall Hi) as (v1 & Hv1 & Hrw).
  destruct (Value_type_in_store _ _ _ Hty) as [ndp Hp].
  unfold input_rewritten in Hrw. rewrite Hp, Hty in Hrw.
  rewrite decide_False in Hrw by done.
  split.
  - intros t Ht Hne. rewrite Ht, decide_False in Hrw by done.
    destruct Hrw as (Hoff & Hnew & Hrec).
    destruct v1 as [c off]. simpl in Hoff, Hnew, Hrec. subst off.
    exists c. split; [done|].
    split; [apply Hnews; [done|by rewrite Hrec]|].
    split; [done|]. split; [done|].
    unfold known_scalar_type, Value_type. simpl.
    by rewrite (getNode_lookup _ _ _ Hrec).
  - intros [Hnone|Hsame].
    + rewrite Hnone in Hrw. by subst v1.
    + rewrite Hsame, decide_True in Hrw by done. by subst v1.
Qed.

Lemma UpdateScalarTypeForInputs_inserts_casts_witness :
  exists g1 c,
    UpdateScalarTypeForInputs (H := sample_external) g_add_float_int 1 kFloat
    = Ok (g1, [])
    /\ n_inputs (getNode g1 1) !! 0 = Some (mkValue 0 0)
    /\ n_inputs (getNode g1 1) !! 1 = Some (mkValue c 0)
    /\ g_nodes g1 !! c
       = Some (mkNode onnx_Cast [mkValue 0 1] [tensor_of (Some kFloat)]
                      {[ attr_to := AttrInt 1 ]} [])
    /\ g_nodes g_add_float_int !! c = None
    /\ b_nodes (getBlock g1 0) = [2; 1].
Proof.
  destruct (UpdateScalarTypeForInputs (H := sample_external)
              g_add_float_int 1 kFloat)
    as [[g1 w]|] eqn:Hu; [|vm_compute in Hu; discriminate].
  assert (Hw : w = []) by (pose proof Hu as Hc; vm_compute in Hc; congruence).
  assert (Hlinked : linked g_add_float_int 1).
  { exists 0. change (1 ∈ [1]). apply list_elem_of_In. simpl. auto. }
  destruct (UpdateScalarTypeForInputs_inserts_casts (H := sample_external)
              g_add_float_int g1 1 kFloat w Hlinked ltac:(discriminate) Hu)
    as (news & _ & _ & _ & _ & Hpos).
  destruct (Hpos 0 (mkValue 0 0) (mkTensorType (Some kFloat) None)
              eq_refl eq_refl ltac:(discriminate)) as [_ Hkeep].
  destruct (Hpos 1 (mkValue 0 1) (mkTensorType (Some kInt) None)
              eq_refl eq_refl ltac:(discriminate)) as [Hcast _].
  destruct (Hcast kInt eq_refl ltac:(discriminate))
    as (c & Hin & _ & Hnew & Hrec & _).
  exists g1, c. subst w. split; [reflexivity|].
  split; [apply Hkeep; by right|]. split; [exact Hin|].
  split; [exact Hrec|]. split; [exact Hnew|].
  pose proof Hu as Hc. vm_compute in Hc. injection Hc as <-. reflexivity.
Defined.

(** ** The Gather/Shape idiom in the inference *)

Lemma contribution_cases (g : Graph) (input : Value) :
  (n_kind (getNode g (Value_node input)) = onnx_Gather ->
   forall in0, n_inputs (getNode g (Value_node input)) !! 0 = Some in0 ->
     n_kind (getNode g (Value_node in0)) = onnx_Shape ->
     tensor_contribution g input = None
     /\ scalar_contribution g input = Some kLong)
  /\ (n_kind (getNode g (Value_node input)) <> onnx_Gather ->
      n_kind (getNode g (Value_node input)) <> onnx_Constant ->
      tensor_contribution g input = known_scalar_type g input
      /\ scalar_contribution g input = None)
  /\ (n_kind (getNode g (Value_node input)) = onnx_Gather ->
      (forall in0, n_inputs (getNode g (Value_node input)) !! 0 = Some in0 ->
                   n_kind (getNode g (Value_node in0)) <> onnx_Shape) ->
      tensor_contribution g input = known_scalar_type g input
      /\ scalar_contribution g input = None).
Proof.
  unfold tensor_contribution, scalar_contribution, is_scalar_input,
    is_shape_gather, is_constant, known_scalar_type.
  split; [|split].
  - intros Hk in0 Hin Hs.
    by rewrite (bool_decide_eq_true_2 _ Hk), Hin, (bool_decide_eq_true_2 _ Hs).
  - intros Hg Hc.
    by rewrite !(bool_decide_eq_false_2 _ Hg), !(bool_decide_eq_false_2 _ Hc).
  - intros Hg Hno. rewrite Hg.
    rewrite (bool_decide_eq_false_2 (onnx_Gather = onnx_Constant)) by done.
    destruct (n_inputs (getNode g (Value_node input)) !! 0) as [in0|] eqn:Hin.
    + rewrite (bool_decide_eq_false_2 _ (Hno in0 eq_refl)).
      by rewrite andb_false_r.
    + by rewrite andb_false_r.
Qed.

(** C7: when [InferExpectedScalarType] returns for a node, its [for_each]
    over the inputs has filled the two buckets, and the result is computed
    from them as the code says, the promotion of a list of types being
    unknown for the empty list and otherwise the left fold of [promoteTypes]
    started from the first element.  Of the input at a position [i] the buckets
    hold, between what the inputs before [i] and the inputs after [i] have
    added: Long in typesFromScalars and nothing in typesFromTensors when the
    producer of the input is a Gather whose first operand is produced by a
    Shape node, whatever the annotation of the input; nothing in
    typesFromScalars, and the annotated element type of the input (when it
    has one) in typesFromTensors, when the producer is neither a Gather nor a
    Constant (an Unsqueeze over the idiom, say) or is a Gather whose first
    operand is not produced by a Shape node: the test looks at the producer
    and at the producer of its first operand, and no further. *)
Theorem shape_gather_contributes_long `{External} (g : Graph) (n : NodeId)
    (r : option ScalarType) (w : list Warning) :
  InferExpectedScalarType g n = Ok (r, w) ->
  exists typesFromTensors typesFromScalars output_tt,
    collect_types g n = Ok (typesFromTensors, typesFromScalars)
    /\ n_outputs (getNode g n) = [TensorT output_tt]
    /\ (r, w)
       = (if IsComparisonOp (n_kind (getNode g n)) then
            (PromoteScalarTypes (typesFromScalars ++ typesFromTensors), [])
          else if length typesFromScalars =? length (n_inputs (getNode g n)) then
            (PromoteScalarTypes typesFromScalars, [])
          else
            match scalarType output_tt, typesFromTensors with
            | Some output_st, _ => (Some output_st, [])
            | None, t0 :: _ =>
                (Some t0,
                 if existsb (fun type => bool_decide (Some type <> Some t0))
                      typesFromTensors
                 then [WarnScalarTypesMismatch (n_kind (getNode g n)) t0]
                 else [])
            | None, [] => (PromoteScalarTypes typesFromScalars, [])
            end)
    /\ PromoteScalarTypes [] = None
    /\ (forall t0 rest,
          PromoteScalarTypes (t0 :: rest) = Some (foldl promoteTypes t0 rest))
    /\ forall i input,
         n_inputs (getNode g n) !! i = Some input ->
         exists ts1 ss1 ts2 ss2 ct cs,
           foldlM (classify_input g) ([], []) (take i (n_inputs (getNode g n)))
           = Ok (ts1, ss1)
           /\ foldlM (classify_input g) ([], [])
                (drop (S i) (n_inputs (getNode g n)))
              = Ok (ts2, ss2)
           /\ typesFromTensors = ts1 ++ ct ++ ts2
           /\ typesFromScalars = ss1 ++ cs ++ ss2
           /\ (n_kind (getNode g (Value_node input)) = onnx_Gather ->
               forall in0,
                 n_inputs (getNode g (Value_node input)) !! 0 = Some in0 ->
                 n_kind (getNode g (Value_node in0)) = onnx_Shape ->
                 ct = [] /\ cs = [kLong])
           /\ (n_kind (getNode g (Value_node input)) <> onnx_Gather ->
               n_kind (getNode g (Value_node input)) <> onnx_Constant ->
               ct = option_list (known_scalar_type g input) /\ cs = [])
           /\ (n_kind (getNode g (Value_node input)) = onnx_Gather ->
               (forall in0,
                  n_inputs (getNode g (Value_node input)) !! 0 = Some in0 ->
                  n_kind (getNode g (Value_node in0)) <> onnx_Shape) ->
               ct = option_list (known_scalar_type g input) /\ cs = []).
Proof.
  intros Hr.
  destruct (InferExpectedScalarType_inv _ _ _ Hr) as (ts & ss & tens & Hc & Hout).
  exists ts, ss, tens. split; [done|]. split; [done|]. split.
  { unfold InferExpectedScalarType, Node_output, Value_type in Hr.
    cbv zeta in Hr. rewrite Hc in Hr. simpl in Hr. rewrite Hout in Hr.
    simpl in Hr. rewrite Hout in Hr. simpl in Hr.
    destruct (IsComparisonOp _); [by injection Hr as <- <-|].
    destruct (_ =? _); [by injection Hr as <- <-|].
    destruct (scalarType tens); [by injection Hr as <- <-|].
    destruct ts; by injection Hr as <- <-. }
  split; [done|]. split; [done|].
  intros i input Hi.
  pose proof (take_drop_middle _ _ _ Hi) as Hsplit.
  unfold collect_types in Hc. rewrite <- Hsplit in Hc.
  rewrite foldlM_app in Hc. apply bind_Ok in Hc as ([ts1 ss1] & H1 & Hrest).
  simpl in Hrest.
  destruct (classify_input g (ts1, ss1) input) as [acc'|] eqn:Hin; [|discriminate].
  apply classify_input_spec in Hin as [-> _]. simpl in Hrest.
  pose proof (foldlM_classify_each _ _ _ _ Hrest) as Heach.
  destruct (foldlM_classify_all g (drop (S i) (n_inputs (getNode g n))) ([], []) Heach)
    as [[ts2 ss2] H2].
  apply foldlM_classify_spec in Hrest as [[= -> ->] _].
  pose proof H2 as H2'. apply foldlM_classify_spec in H2' as [[= -> ->] _].
  exists ts1, ss1, (omap (tensor_contribution g) (drop (S i) (n_inputs (getNode g n)))),
    (omap (scalar_contribution g) (drop (S i) (n_inputs (getNode g n)))),
    (option_list (tensor_contribution g input)),
    (option_list (scalar_contribution g input)).
  split; [done|]. split; [done|].
  split; [by rewrite <- app_assoc|]. split; [by rewrite <- app_assoc|].
  destruct (contribution_cases g input) as (Hsg & Hother & Hgather).
  split; [|split].
  - intros Hk in0 Hin0 Hs. by destruct (Hsg Hk in0 Hin0 Hs) as [-> ->].
  - intros Hg Hk. by destruct (Hother Hg Hk) as [-> ->].
  - intros Hg Hno. by destruct (Hgather Hg Hno) as [-> ->].
Qed.

Lemma shape_gather_contributes_long_witness :
  InferExpectedScalarType (H := sample_external) g_shape_gather 4
  = Ok (Some kLong, [])
  /\ collect_types g_shape_gather 4 = Ok ([kLong], [kLong]).
Proof.
  assert (Hr : InferExpectedScalarType (H := sample_external) g_shape_gather 4
               = Ok (Some kLong, [])) by reflexivity.
  split; [exact Hr|].
  destruct (shape_gather_contributes_long (H := sample_external)
              g_shape_gather 4 (Some kLong) [] Hr)
    as (ts & ss & tens & Hc & _ & _ & _ & _ & Hpos).
  destruct (Hpos 0 (mkValue 2 0) eq_refl)
    as (ts1 & ss1 & ts2 & ss2 & ct & cs & H1 & H2 & Hts & Hss & Hsg & _ & _).
  destruct (Hsg eq_refl (mkValue 1 0) eq_refl eq_refl) as [-> ->].
  vm_compute in H1. injection H1 as <- <-.
  vm_compute in H2. injection H2 as <- <-.
  simpl in Hts, Hss. by rewrite Hts, Hss in Hc.
Defined.

(** ** The inputs of the visited nodes after the pass *)

(** A node made by the pass whose output agrees, as an input, with the type
    [st] is a node made for [st]. *)
Lemma made_for_settled (g : Graph) (st st' : ScalarType) (v : Value) (nd : Node) :
  g_nodes g !! Value_node v = Some nd -> Value_offset v = 0 ->
  made_for st' nd -> input_settled g st v -> made_for st nd.
Proof.
  intros Hnd Hoff Hmade [(tens' & Hty & Hst) Hconst].
  unfold Value_type in Hty. rewrite (getNode_lookup _ _ _ Hnd), Hoff in Hty.
  rewrite (getNode_lookup _ _ _ Hnd) in Hconst.
  destruct Hmade as [(val & -> & Hval)|(v0 & tens & -> & Htens & Hcode)].
  - left. destruct (Hconst eq_refl) as (val' & Hval' & Heq).
    assert (Hv : val = val').
    { assert (Ha : n_attrs (constant_node val) !! attr_value
                   = n_attrs (constant_node val') !! attr_value)
        by (by rewrite Heq).
      unfold constant_node in Ha. simpl in Ha.
      rewrite !lookup_singleton_eq in Ha. by injection Ha. }
    exists val. split; [done|]. by rewrite Hv.
  - simpl in Hty. injection Hty as <-.
    assert (st' = st) as -> by (destruct Hst; congruence).
    right. eauto.
Qed.

(** Every entry of the record of the visits is what inference returned on
    the node, in the graph as it was when the node was visited. *)
Lemma pass_inferences `{E : External} `{!DCELaws E}
    (fuel : nat) (g : Graph) (s' : PassState) :
  ScalarTypeAnalysisForONNX fuel g = Ok s' ->
  forall n r, (n, r) ∈ ps_inferred s' ->
    exists gv w,
      evolves g gv /\ evolves gv (ps_graph s')
      /\ IsImplicitCastSupported (n_kind (getNode gv n)) = true
      /\ InferExpectedScalarType gv n = Ok (r, w).
Proof.
  unfold ScalarTypeAnalysisForONNX. intros Hrun.
  cut (evolves g (ps_graph s')
       /\ forall n r, (n, r) ∈ ps_inferred s' ->
            exists gv w,
              evolves g gv /\ evolves gv (ps_graph s')
              /\ IsImplicitCastSupported (n_kind (getNode gv n)) = true
              /\ InferExpectedScalarType gv n = Ok (r, w)); [tauto|].
  eapply (ImplicitCastForONNX_invariant
            (fun s => evolves g (ps_graph s)
               /\ forall n r, (n, r) ∈ ps_inferred s ->
                    exists gv w,
                      evolves g gv /\ evolves gv (ps_graph s)
                      /\ IsImplicitCastSupported (n_kind (getNode gv n)) = true
                      /\ InferExpectedScalarType gv n = Ok (r, w)));
    [| |exact Hrun|].
  - intros s it s1 [Hev Hlog] Hv.
    destruct (visit_node_spec _ _ _ Hv) as (Hev1 & _ & Hcases).
    split; [by eapply evolves_trans|].
    assert (Hold : forall n r, (n, r) ∈ ps_inferred s ->
              exists gv w,
                evolves g gv /\ evolves gv (ps_graph s1)
                /\ IsImplicitCastSupported (n_kind (getNode gv n)) = true
                /\ InferExpectedScalarType gv n = Ok (r, w)).
    { intros n r Hin. destruct (Hlog n r Hin) as (gv & w & H1 & H2 & H3 & H4).
      exists gv, w. split; [done|]. split; [by eapply evolves_trans|]. done. }
    destruct Hcases as [(_ & -> & _)|(r & w & -> & Hsup & _ & Hinf & _)];
      [done|].
    intros n r' [Hin|Hin%list_elem_of_singleton]%elem_of_app; [by apply Hold|].
    injection Hin as -> ->. exists (ps_graph s), w. done.
  - intros s block [Hev Hlog]. simpl.
    split; [eapply evolves_trans; [done|apply dce_evolves]|].
    intros n r Hin. destruct (Hlog n r Hin) as (gv & w & H1 & H2 & H3 & H4).
    exists gv, w. split; [done|].
    split; [eapply evolves_trans; [done|apply dce_evolves]|]. done.
  - simpl. split; [apply evolves_refl|]. intros n r Hin.
    by apply not_elem_of_nil in Hin.
Qed.

(** After the pass, the inputs of a visited node whose inferred type has a
    wire-format code agree with that type, in a graph whose values are
    defined before they are used along the order of the visits. *)
Lemma pass_inputs_settled `{E : External} `{!DCELaws E}
    (fuel : nat) (g : Graph) (s' : PassState) :
  ScalarTypeAnalysisForONNX fuel g = Ok s' ->
  def_before_use g (ps_inferred s').*1 ->
  forall n st,
    (n, Some st) ∈ ps_inferred s' ->
    ScalarTypeToONNXType st <> (-1)%Z ->
    forall v, v ∈ n_inputs (getNode (ps_graph s') n) ->
      input_settled (ps_graph s') st v
      /\ (v ∈ n_inputs (getNode g n)
          \/ (g_nodes g !! Value_node v = None /\ Value_offset v = 0
              /\ is_Some (g_nodes (ps_graph s') !! Value_node v))).
Proof.
  intros Hrun Horder n st Hin Hcode.
  destruct (agreed_pass _ _ _ Hrun) as [Hev Hinv].
  apply list_elem_of_lookup in Hin as [i Hi].
  destruct (Hinv i n (Some st) Hi) as ([nd0 Hn0] & Hsup & Hagree).
  assert (Hi1 : (ps_inferred s').*1 !! i = Some n)
    by (by rewrite list_lookup_fmap, Hi).
  destruct (ev_old _ _ Hev n nd0 Hn0) as (nd' & Hn' & Hne).
  pose proof (ne_inputs _ _ _ _ Hne) as Hins.
  destruct (Hagree st eq_refl Hcode) as [(j & r' & Hij & Hj)|Hall].
  { assert (Hj1 : (ps_inferred s').*1 !! j = Some n)
      by (by rewrite list_lookup_fmap, Hj).
    destruct (def_before_use_lookup _ _ _ _ _ _ Horder Hij Hi1 Hj1) as [Hne' _].
    done. }
  intros v Hv.
  assert (Hfrom : v ∈ n_inputs (getNode g n)
                  \/ (g_nodes g !! Value_node v = None /\ Value_offset v = 0
                      /\ is_Some (g_nodes (ps_graph s') !! Value_node v))).
  { rewrite (getNode_lookup _ _ _ Hn') in Hv.
    rewrite (getNode_lookup _ _ _ Hn0).
    apply list_elem_of_lookup in Hv as [k Hk].
    destruct (Forall2_lookup_r _ _ _ _ _ Hins Hk)
      as (v0 & Hk0 & [->|(Hoff & Hin' & Hnew)]).
    - left. by eapply list_elem_of_lookup_2.
    - right. split; [by apply not_elem_of_dom|]. split; [done|].
      by apply elem_of_dom. }
  split; [|done].
  rewrite Forall_forall in Hall.
  destruct (Hall v Hv) as [Hset|(j & r' & Hij & Hj)]; [done|].
  exfalso.
  assert (Hj1 : (ps_inferred s').*1 !! j = Some (Value_node v))
    by (by rewrite list_lookup_fmap, Hj).
  destruct (def_before_use_lookup _ _ _ _ _ _ Horder Hij Hi1 Hj1) as [_ Huse].
  destruct (Hinv j (Value_node v) r' Hj) as (Hold & _).
  destruct Hfrom as [Hv0|(Hnone & _)].
  - by apply (Huse v).
  - rewrite Hnone in Hold. by destruct Hold.
Qed.

(** C1, as the code has it.  After the pass on a graph whose values are
    defined before they are used along the order of the visits: the
    traversal of the graph from its top block, down through the blocks of
    its nodes, meets no node of STANDARD or COMPARISON kind that the pass
    has not visited; the type recorded for a visited node is what
    [InferExpectedScalarType] returned on it when it was visited (and what
    it returns on it in the final graph, when promotion is a join); and
    when that type is a concrete type with a wire-format code, every input
    of the node whose annotated element type is known carries that type, and
    is an input the node had before the pass or output 0 of a node made by
    the pass for that type: a Constant holding a literal of that type, or a
    Cast whose attribute "to" is the code of that type and whose output is
    annotated with it. *)
Theorem inputs_agree_with_inferred_type `{E : External} `{!DCELaws E}
    (fuel : nat) (g : Graph) (s' : PassState) :
  ScalarTypeAnalysisForONNX fuel g = Ok s' ->
  def_before_use g (ps_inferred s').*1 ->
  covered fuel (ps_graph s') (ps_inferred s').*1 (g_block (ps_graph s'))
  /\ forall n r,
       (n, r) ∈ ps_inferred s' ->
       is_Some (g_nodes g !! n)
       /\ IsImplicitCastSupported (n_kind (getNode (ps_graph s') n)) = true
       /\ (exists gv w,
             evolves g gv /\ evolves gv (ps_graph s')
             /\ IsImplicitCastSupported (n_kind (getNode gv n)) = true
             /\ InferExpectedScalarType gv n = Ok (r, w))
       /\ (PromoteLaws E ->
           exists w, InferExpectedScalarType (ps_graph s') n = Ok (r, w))
       /\ forall st,
            r = Some st ->
            ScalarTypeToONNXType st <> (-1)%Z ->
            forall v, v ∈ n_inputs (getNode (ps_graph s') n) ->
              (forall t, known_scalar_type (ps_graph s') v = Some t -> t = st)
              /\ (v ∈ n_inputs (getNode g n)
                  \/ (g_nodes g !! Value_node v = None
                      /\ Value_offset v = 0
                      /\ exists nd,
                           g_nodes (ps_graph s') !! Value_node v = Some nd
                           /\ made_for st nd)).
Proof.
  intros Hrun Horder. split.
  { pose proof Hrun as Hcov. unfold ScalarTypeAnalysisForONNX in Hcov.
    apply pass_covers in Hcov.
    destruct (agreed_pass _ _ _ Hrun) as [Hev _].
    by rewrite (ev_block _ _ Hev). }
  intros n r Hin.
  destruct (agreed_pass _ _ _ Hrun) as [Hev Hinv].
  pose proof Hin as Hin'. apply list_elem_of_lookup in Hin' as [i Hi].
  destruct (Hinv i n r Hi) as (Hn0 & Hsup & _).
  split; [done|]. split; [done|].
  split; [by apply (pass_inferences fuel g s' Hrun)|].
  split.
  { intros Hlaws.
    by destruct (pass_settles fuel g s' Hrun Horder n r Hin) as (_ & Hw & _). }
  intros st -> Hcode v Hv.
  destruct (pass_inputs_settled fuel g s' Hrun Horder n st Hin Hcode v Hv)
    as [Hset Hfrom].
  split; [intros t; by apply input_settled_known|].
  destruct Hfrom as [Hold|(Hnone & Hoff & [nd Hnd])]; [by left|right].
  split; [done|]. split; [done|]. exists nd. split; [done|].
  destruct (pass_new_nodes_made fuel g s' Hrun _ _ Hnone Hnd) as [st' Hmade].
  by apply (made_for_settled (ps_graph s') st st' v nd).
Qed.

Lemma inputs_agree_with_inferred_type_witness :
  exists s',
    ScalarTypeAnalysisForONNX (H := sample_external) 1 g_add_float_int = Ok s'
    /\ ps_inferred s' = [(1, Some kFloat)]
    /\ covered 1 (ps_graph s') [1] (g_block (ps_graph s'))
    /\ forall v, v ∈ n_inputs (getNode (ps_graph s') 1) ->
         (forall t, known_scalar_type (ps_graph s') v = Some t -> t = kFloat)
         /\ (v ∈ n_inputs (getNode g_add_float_int 1)
             \/ (g_nodes g_add_float_int !! Value_node v = None
                 /\ Value_offset v = 0
                 /\ exists nd,
                      g_nodes (ps_graph s') !! Value_node v = Some nd
                      /\ made_for kFloat nd)).
Proof.
  destruct (ScalarTypeAnalysisForONNX (H := sample_external) 1 g_add_float_int)
    as [s'|] eqn:Hrun; [|vm_compute in Hrun; discriminate].
  exists s'. split; [reflexivity|].
  assert (Hlog : ps_inferred s' = [(1, Some kFloat)]).
  { pose proof Hrun as Hrun'. vm_compute in Hrun'. by injection Hrun' as <-. }
  split; [exact Hlog|].
  destruct (inputs_agree_with_inferred_type (E := sample_external) 1
              g_add_float_int s' Hrun) as [Hcov Hall].
  { rewrite Hlog. simpl. split; [apply not_elem_of_nil|].
    split; [|exact I]. intros v _. apply not_elem_of_nil. }
  rewrite Hlog in Hcov. split; [exact Hcov|].
  destruct (Hall 1 (Some kFloat)) as (_ & _ & _ & _ & Hins).
  { rewrite Hlog. apply list_elem_of_singleton. reflexivity. }
  apply (Hins kFloat eq_refl). vm_compute. discriminate.
Defined.

(** ** The input edges after a second run *)












